(** * htmlux: tokenizer, tree builder, selector engine, facade, extractor,
      request manager, scraper

    A shallow embedding of the TypeScript sources
    ([tokenizer.ts], [dom.ts], [query.ts], [parser.ts], [extractor.ts],
    [fetcher.ts], [index.ts]), the properties the specification states
    about them, and further properties of the code.

    Conventions of the embedding.
    - A JavaScript string is the list of its code units.  The embedding
      covers the code units 0..255 (Latin-1); [toLowerCase], [trim] and the
      regular-expression class [\s] are the JavaScript ones on that range.
    - An index that JavaScript reports as [-1] is [None].
    - [Map<string,string>] is an association list in insertion order
      ([set] on a present key keeps the key's position), because
      [Node.toString] prints the entries in that order.
    - Objects that the code mutates after sharing them (the nodes while
      [buildTree] runs, the two [WeakMap] caches of the selector engine)
      live in an explicit store; the tree that [buildTree] returns is
      read off the store as a value, each node with the identity of its
      object.
    - A loop is a function on a number of iterations it may take
      ([None] when they do not finish it), together with the proof that
      the number the embedding passes finishes it.
    - A call returns or throws ([Extractor.Result]); a thrown value is
      kept as the message that the [catch] clauses of the code read off
      it.
    - A schema is a plain object, given as the list of its own fields in
      the order [for ... in] enumerates them; [limit] is an integer.
    - An object that extraction returns is the list of its own properties
      in the order of their creation; its prototype is not part of the
      value.
    - The depth of recursion is not bounded: the error that the runtime
      raises when the call stack is exhausted (a tree nested some
      thousand levels deep) is not part of the embedding.
    - The network and [Math.random] are an environment that the request
      manager is a function of; the requests it sends, the time it sleeps
      and the agents it closes are recorded as events of a world that it
      passes along. *)

From Stdlib Require Import Ascii String ZArith.
From stdpp Require Import base option list gmap.

Local Open Scope nat_scope.

(** ** JavaScript strings *)

Module Js.

Definition str := list ascii.

(** A string literal of the source. *)
Definition lit (s : string) : str := list_ascii_of_string s.

Definition code (c : ascii) : nat := nat_of_ascii c.

Definition chr (n : nat) : ascii := ascii_of_nat n.

Definition in_range (lo hi : nat) (c : ascii) : bool :=
  (lo <=? code c) && (code c <=? hi).

Definition ch_eqb (a b : ascii) : bool := Ascii.eqb a b.

Fixpoint str_eqb (a b : str) : bool :=
  match a, b with
  | [], [] => true
  | x :: a', y :: b' => ch_eqb x y && str_eqb a' b'
  | _, _ => false
  end.

(** [\s] of a regular expression and the white space [trim] strips:
    TAB, LF, VT, FF, CR, SPACE and NBSP (the members below U+0100). *)
Definition is_space (c : ascii) : bool :=
  in_range 9 13 c || (code c =? 32) || (code c =? 160).

(** [A-Z], and the Latin-1 capitals U+00C0..U+00DE except U+00D7. *)
Definition is_upper (c : ascii) : bool :=
  in_range 65 90 c || (in_range 192 222 c && negb (code c =? 215)).

Definition lower_char (c : ascii) : ascii :=
  if is_upper c then chr (code c + 32) else c.

(** [String.prototype.toLowerCase] *)
Definition toLowerCase (s : str) : str := map lower_char s.

Fixpoint trimStart (s : str) : str :=
  match s with
  | c :: s' => if is_space c then trimStart s' else s
  | [] => []
  end.

Definition trimEnd (s : str) : str := rev (trimStart (rev s)).

(** [String.prototype.trim] *)
Definition trim (s : str) : str := trimEnd (trimStart s).

(** [String.prototype.startsWith] *)
Fixpoint startsWith (s pat : str) : bool :=
  match pat, s with
  | [], _ => true
  | p :: pat', c :: s' => ch_eqb p c && startsWith s' pat'
  | _ :: _, [] => false
  end.

(** The first position [>= k] at which [pat] occurs, [s] being the part
    of the string from position [k] on. *)
Fixpoint find_from (pat s : str) (k : nat) : option nat :=
  if startsWith s pat then Some k
  else match s with
       | [] => None
       | _ :: s' => find_from pat s' (S k)
       end.

(** [String.prototype.indexOf(pat, from)]; [None] is [-1]. *)
Definition indexOf (s pat : str) (from : nat) : option nat :=
  let from' := from `min` length s in
  find_from pat (drop from' s) from'.

(** [String.prototype.slice(a, b)] and [slice(a)], for indices [>= 0]. *)
Definition slice (s : str) (a b : nat) : str := take (b - a) (drop a s).

Definition sliceFrom (s : str) (a : nat) : str := drop a s.

(** The longest prefix whose characters satisfy [p], and the rest. *)
Fixpoint span (p : ascii -> bool) (s : str) : str * str :=
  match s with
  | c :: s' =>
      if p c then let '(a, b) := span p s' in (c :: a, b) else ([], s)
  | [] => ([], [])
  end.

(** [s.split(/\s+/)]: the pieces between the maximal runs of white space;
    a run at either end leaves an empty piece there, and the empty string
    splits into one empty piece. *)
Fixpoint split_ws_aux (s : str) (cur : str) (in_run : bool) : list str :=
  match s with
  | [] => [rev cur]
  | c :: s' =>
      if is_space c then
        if in_run then split_ws_aux s' cur true
        else rev cur :: split_ws_aux s' [] true
      else split_ws_aux s' (c :: cur) false
  end.

Definition split_ws (s : str) : list str := split_ws_aux s [] false.

(** [Array.prototype.includes] on an array of strings. *)
Definition includes (l : list str) (x : str) : bool := existsb (str_eqb x) l.

(** [arr.filter(Boolean)] on an array of strings: the non-empty ones. *)
Definition filter_nonempty (l : list str) : list str :=
  List.filter (fun x => negb (str_eqb x [])) l.

(** [arr.join('')] *)
Definition join (l : list str) : str := concat l.

End Js.

(** ** [Map<string, string>], in insertion order *)

Module JsMap.
Import Js.

Definition t := list (str * str).

Definition empty : t := [].

Fixpoint get (m : t) (k : str) : option str :=
  match m with
  | [] => None
  | (k', v) :: m' => if str_eqb k' k then Some v else get m' k
  end.

Definition has (m : t) (k : str) : bool :=
  match get m k with Some _ => true | None => false end.

(** [m.set(k, v)]: a present key keeps its place, a new key goes last. *)
Fixpoint set (m : t) (k v : str) : t :=
  match m with
  | [] => [(k, v)]
  | (k', v') :: m' =>
      if str_eqb k' k then (k', v) :: m' else (k', v') :: set m' k v
  end.

Definition size (m : t) : nat := length m.

Definition keys (m : t) : list str := map fst m.

End JsMap.

(** ** tokenizer.ts *)

Module Tokenizer.
Import Js.

Inductive TokenType := TOpen | TClose | TText | TSelfClosing.

(** [interface Token]; an optional property that is absent is [None]. *)
Record Token := mkToken {
  type : TokenType;
  tag : option str;
  attrs : option JsMap.t;
  content : option str
}.

Definition lt_char : ascii := "<"%char.
Definition gt_char : ascii := ">"%char.
Definition slash : ascii := "/"%char.
Definition equals : ascii := "="%char.
Definition dquote : ascii := Eval cbv in chr 34.
Definition squote : ascii := "'"%char.

Definition selfClosingTags : list str :=
  map lit ["area"; "base"; "br"; "col"; "embed"; "hr"; "img"; "input";
           "link"; "meta"; "param"; "source"; "track"; "wbr"]%string.

(** The class [[a-zA-Z0-9-_:]] of the tag-name expression. *)
Definition is_name_char (c : ascii) : bool :=
  in_range 97 122 c || in_range 65 90 c || in_range 48 57 c
  || ch_eqb c "-" || ch_eqb c "_" || ch_eqb c ":".

(** [tagRaw.match(/^([a-zA-Z0-9-_:]+)/)]: group 1, or [None] for no
    match. *)
Definition match_name (tagRaw : str) : option str :=
  match fst (span is_name_char tagRaw) with
  | [] => None
  | n => Some n
  end.

(** [/\/\s*$/.test(s)] *)
Fixpoint test_slash_end (s : str) : bool :=
  match s with
  | [] => false
  | c :: r => (ch_eqb c slash && forallb is_space r) || test_slash_end r
  end.

(** [s.replace(/\/\s*$/, '')]: the leftmost slash that only white space
    follows is removed together with that white space. *)
Fixpoint replace_slash_end (s : str) : str :=
  match s with
  | [] => []
  | c :: r =>
      if ch_eqb c slash && forallb is_space r then []
      else c :: replace_slash_end r
  end.

(** The class [[^\s=]] of an attribute name. *)
Definition is_attr_name_char (c : ascii) : bool :=
  negb (is_space c) && negb (ch_eqb c equals).

(** The class of an unquoted value: no white space, no quote of either
    kind, no [>]. *)
Definition is_unquoted_char (c : ascii) : bool :=
  negb (is_space c) && negb (ch_eqb c dquote) && negb (ch_eqb c squote)
  && negb (ch_eqb c gt_char).

(** A quoted value for a quote character [q]: the run up to the next
    [q], which closes it; [s] is what follows the opening quote. *)
Definition match_quoted (q : ascii) (s : str) : option (str * str) :=
  let '(v, r) := span (fun c => negb (ch_eqb c q)) s in
  match r with
  | _ :: r' => Some (v, r')
  | [] => None
  end.

(** The optional group of [attrRegex], tried right after the name: white
    space, [=], white space, then a value in double quotes, or in single
    quotes, or a non-empty unquoted run.  The result is the value and what
    follows the match, or [None] when the group does not match (then the
    match is the name alone). *)
Definition match_value (s : str) : option (str * str) :=
  match trimStart s with
  | c :: s1 =>
      if ch_eqb c equals then
        match trimStart s1 with
        | d :: s2 =>
            if ch_eqb d dquote then match_quoted dquote s2
            else if ch_eqb d squote then match_quoted squote s2
            else
              let '(v, r) := span is_unquoted_char (d :: s2) in
              match v with [] => None | _ => Some (v, r) end
        | [] => None
        end
      else None
  | [] => None
  end.

(** One [attrRegex.exec]: the next match in [s] (the part of [attrPart]
    from [lastIndex] on) as name, value ([m[2] ?? m[3] ?? m[4] ?? '']) and
    the part after the match; [None] is [null]. *)
Definition exec_attr (s : str) : option (str * str * str) :=
  let s0 := snd (span (fun c => negb (is_attr_name_char c)) s) in
  let '(name, r) := span is_attr_name_char s0 in
  match name with
  | [] => None
  | _ =>
      match match_value r with
      | Some (v, r') => Some (name, v, r')
      | None => Some (name, [], r)
      end
  end.

(** The loop [while (m !== null)] over the matches; [None] when [fuel]
    iterations do not finish it. *)
Fixpoint parseAttrs_loop (fuel : nat) (s : str) (attrs : JsMap.t)
  : option JsMap.t :=
  match exec_attr s with
  | None => Some attrs
  | Some (name, value, rest) =>
      match fuel with
      | 0 => None
      | S fuel' =>
          parseAttrs_loop fuel' rest
            (JsMap.set attrs (toLowerCase name) value)
      end
  end.

(** The attributes of a tag, [attrPart] being the tag body after the name.
    Every match is at least one character long, so [length attrPart]
    iterations finish the loop ([parseAttrs_loop_total] below); the
    fallback is never taken. *)
Definition parseAttrs (attrPart : str) : JsMap.t :=
  match attrPart with
  | [] => JsMap.empty
  | _ =>
      default JsMap.empty
        (parseAttrs_loop (length attrPart) attrPart JsMap.empty)
  end.

Definition push {A} (l : list A) (x : A) : list A := l ++ [x].

Definition text_token (text : str) : Token :=
  mkToken TText None None (Some text).

Definition close_token (tagName : str) : Token :=
  mkToken TClose (Some tagName) None None.

(** [{ type: isSelfClosing ? 'self-closing' : 'open', tag,
       attrs: attrs.size ? attrs : undefined }] *)
Definition tag_token (isSelfClosing : bool) (tag : str) (attrs : JsMap.t)
  : Token :=
  mkToken (if isSelfClosing then TSelfClosing else TOpen)
          (Some tag)
          (match JsMap.size attrs with 0 => None | _ => Some attrs end)
          None.

(** [if (text) tokens.push({ type: 'text', content: text })] *)
Definition push_text (tokens : list Token) (text : str) : list Token :=
  match text with [] => tokens | _ => push tokens (text_token text) end.

(** How one iteration of the loop ends: at a [break], or going on (at a
    [continue] or at the end of the body) from a new index. *)
Inductive Step :=
  | Break (tokens : list Token)
  | Continue (i : nat) (tokens : list Token).

(** The second half of the body of [while (i < length)]: what the
    iteration does with the tag between [lt] and [gt], once [tagRaw] is
    cut out and trimmed. *)
Definition tokenize_tag (html : str) (lt gt : nat) (tagRaw : str)
    (tokens : list Token) : Step :=
  if startsWith tagRaw (lit "!--") then
    match indexOf html (lit "-->") (lt + 4) with
    | None => Continue (gt + 1) tokens
    | Some endComment => Continue (endComment + 3) tokens
    end
  else if startsWith tagRaw (lit "!") then Continue (gt + 1) tokens
  else if startsWith tagRaw [slash] then
    let tagName := toLowerCase (trim (sliceFrom tagRaw 1)) in
    match tagName with
    | [] => Continue (gt + 1) tokens
    | _ => Continue (gt + 1) (push tokens (close_token tagName))
    end
  else
    match match_name tagRaw with
    | None => Continue (gt + 1) tokens
    | Some nm =>
      let tag := toLowerCase nm in
      if str_eqb tag (lit "script") || str_eqb tag (lit "style") then
        match indexOf html (lit "</" ++ tag ++ lit ">") (gt + 1) with
        | None => Continue (gt + 1) tokens
        | Some closeIdx => Continue (closeIdx + length tag + 3) tokens
        end
      else
        let attrPart :=
          replace_slash_end (trim (sliceFrom tagRaw (length tag))) in
        let attrs := parseAttrs attrPart in
        let isSelfClosing :=
          test_slash_end tagRaw || includes selfClosingTags tag in
        Continue (gt + 1) (push tokens (tag_token isSelfClosing tag attrs))
    end.

(** The body of [while (i < length)]: the text up to the next [<], then
    the tag up to the next [>]. *)
Definition tokenize_body (html : str) (i : nat) (tokens : list Token)
  : Step :=
  match indexOf html [lt_char] i with
  | None => Break (push_text tokens (sliceFrom html i))
  | Some lt =>
    let tokens :=
      if i <? lt then push_text tokens (slice html i lt) else tokens in
    match indexOf html [gt_char] (lt + 1) with
    | None => Break tokens
    | Some gt =>
      let tagRaw := trim (slice html (lt + 1) gt) in
      tokenize_tag html lt gt tagRaw tokens
    end
  end.

(** The loop [while (i < length)] of [tokenize]; [None] when [fuel]
    iterations do not finish it. *)
Fixpoint tokenize_loop (fuel : nat) (html : str) (i : nat)
    (tokens : list Token) : option (list Token) :=
  if length html <=? i then Some tokens else
  match fuel with
  | 0 => None
  | S fuel' =>
      match tokenize_body html i tokens with
      | Break tokens => Some tokens
      | Continue i' tokens => tokenize_loop fuel' html i' tokens
      end
  end.

(** [tokenize(html)].  Every iteration moves [i] forward, so
    [length html] iterations finish the loop ([tokenize_loop_total]
    below); the fallback is never taken. *)
Definition tokenize (html : str) : list Token :=
  default [] (tokenize_loop (length html) html 0 []).

(** The loop from index [i] on, with the iterations that are left. *)
Definition tokenize_from (html : str) (i : nat) (tokens : list Token)
  : option (list Token) :=
  tokenize_loop (length html - i) html i tokens.

End Tokenizer.

(** ** dom.ts *)

Module Dom.
Import Js.

(** *** The node objects while the tree is built

    [buildTree] allocates [Node] objects and keeps mutating the
    [children] array of objects it has already linked into the tree.  The
    store lists the objects by address (the index in the list); an array of
    nodes is a list of addresses. *)
Module Store.

Record Node := mkNode {
  tag : str;
  attrs : JsMap.t;
  children : list nat;
  text : str;
  parent : option nat
}.

Abbreviation t := (list Node).

(** [new Node(tag, attrs, text, parent)]: the constructor starts with no
    children.  The new object gets the next free address. *)
Definition alloc (h : t) (tag : str) (attrs : JsMap.t) (text : str)
    (parent : option nat) : t * nat :=
  (h ++ [mkNode tag attrs [] text parent], length h).

(** [h[a].children.push(c)] *)
Definition push_child (h : t) (a c : nat) : t :=
  match h !! a with
  | Some o =>
      <[a := mkNode (tag o) (attrs o) (children o ++ [c]) (text o) (parent o)]> h
  | None => h
  end.

End Store.

(** *** The finished tree

    Once [buildTree] has returned nothing writes to a node any more, and a
    node is the value below.  [ref] is the identity of the object (its
    address in the store it was built in): the [WeakMap] caches of the
    selector engine are keyed by it.  [parent] is the [ref] of the parent
    object. *)
#[local] Unset Elimination Schemes.
Inductive Node := mkNode {
  ref : nat;
  tag : str;
  attrs : JsMap.t;
  children : list Node;
  text : str;
  parent : option nat
}.
#[local] Set Elimination Schemes.

(** [getText()] *)
Fixpoint getText (n : Node) : str :=
  match text n with
  | [] => join (map getText (children n))
  | t => t
  end.

(** [`${k}="${v}"`] *)
Definition attr_to_string (kv : str * str) : str :=
  fst kv ++ [Tokenizer.equals; Tokenizer.dquote] ++ snd kv ++ [Tokenizer.dquote].

(** [arr.join(' ')] *)
Fixpoint join_space (l : list str) : str :=
  match l with
  | [] => []
  | [x] => x
  | x :: l' => x ++ " "%char :: join_space l'
  end.

Definition attrs_to_string (m : JsMap.t) : str :=
  let attrs := join_space (map attr_to_string m) in
  match attrs with
  | [] => []
  | _ => " "%char :: attrs
  end.

(** [toString()]; [getInnerHTML()] is the joined [toString] of the
    children. *)
Fixpoint toString (n : Node) : str :=
  match text n with
  | [] =>
      lit "<" ++ tag n ++ attrs_to_string (attrs n) ++ lit ">"
      ++ join (map toString (children n))
      ++ lit "</" ++ tag n ++ lit ">"
  | t => t
  end.

Definition getInnerHTML (n : Node) : str := join (map toString (children n)).

(** *** [buildTree] *)

(** The state of the loop: the store and the stack of open elements, the
    top first. *)
Abbreviation State := (list Store.Node * list nat)%type.

Definition root_addr : nat := 0.

Definition init : State :=
  ([Store.mkNode (lit "document") JsMap.empty [] [] None], [root_addr]).

(** [stack[stack.length - 1]?.tag === token.tag] *)
Definition top_tag_is (h : Store.t) (stack : list nat) (tag : option str)
  : bool :=
  match stack, tag with
  | top :: _, Some t =>
      match h !! top with
      | Some o => str_eqb (Store.tag o) t
      | None => false
      end
  | _, _ => false
  end.

(** The body of [for (const token of tokens)]. *)
Definition step (st : State) (token : Tokenizer.Token) : State :=
  let '(h, stack) := st in
  match stack with
  | [] => st
  | current :: _ =>
      match Tokenizer.type token with
      | Tokenizer.TText =>
          match Tokenizer.content token with
          | None | Some [] => st
          | Some content =>
              let '(h1, a) :=
                Store.alloc h [] JsMap.empty content (Some current) in
              (Store.push_child h1 current a, stack)
          end
      | Tokenizer.TOpen | Tokenizer.TSelfClosing =>
          let '(h1, node) :=
            Store.alloc h (default [] (Tokenizer.tag token))
                        (default JsMap.empty (Tokenizer.attrs token))
                        [] (Some current) in
          let h2 := Store.push_child h1 current node in
          match Tokenizer.type token with
          | Tokenizer.TOpen => (h2, node :: stack)
          | _ => (h2, stack)
          end
      | Tokenizer.TClose =>
          if (1 <? length stack) && top_tag_is h stack (Tokenizer.tag token)
          then (h, tail stack)
          else st
      end
  end.

Definition run (tokens : list Tokenizer.Token) (st : State) : State :=
  foldl step st tokens.

(** The object graph below address [a] as a value.  The addresses of
    children exceed the one of their parent, so a depth of [length h]
    reaches every node; [None] when [fuel] levels do not. *)
Fixpoint freeze (fuel : nat) (h : Store.t) (a : nat) : option Node :=
  match fuel with
  | 0 => None
  | S fuel' =>
      o ← h !! a;
      kids ← mapM (freeze fuel' h) (Store.children o);
      Some (mkNode a (Store.tag o) (Store.attrs o) kids (Store.text o)
                   (Store.parent o))
  end.

Definition dummy : Node := mkNode 0 [] JsMap.empty [] [] None.

(** [buildTree(tokens)]: the root object, after the loop. *)
Definition buildTree (tokens : list Tokenizer.Token) : Node :=
  let '(h, _) := run tokens init in
  default dummy (freeze (length h) h root_addr).

End Dom.

(** ** query.ts *)

Module Query.
Import Js Dom.

(** [classListCache] and [tagLowerCache]: the [WeakMap]s, keyed by the
    identity of the node. *)
Record Caches := mkCaches {
  classListCache : gmap nat (list str);
  tagLowerCache : gmap nat str
}.

Definition no_caches : Caches := mkCaches ∅ ∅.

(** A compiled matcher reads and fills the caches. *)
Definition Matcher := Node -> Caches -> bool * Caches.

(** [a === b] for [a : string | undefined] and a string [b]. *)
Definition opt_is (a : option str) (b : str) : bool :=
  match a with Some x => str_eqb x b | None => false end.

(** The class [[a-zA-Z0-9_-]] of the attribute-selector expression. *)
Definition is_sel_name_char (c : ascii) : bool :=
  in_range 97 122 c || in_range 65 90 c || in_range 48 57 c
  || ch_eqb c "_" || ch_eqb c "-".

Definition is_quote (c : ascii) : bool :=
  ch_eqb c Tokenizer.dquote || ch_eqb c Tokenizer.squote.

(** The class of the expected value: no quote of either kind, no
    closing bracket. *)
Definition is_sel_value_char (c : ascii) : bool :=
  negb (is_quote c) && negb (ch_eqb c "]").

(** An optional quote. *)
Definition skip_quote (s : str) : str :=
  match s with
  | c :: s' => if is_quote c then s' else s
  | [] => []
  end.

(** [selector.match(...)] with the attribute-selector expression: an
    opening bracket, a name, optionally [=] and a value between optional
    quotes, a closing bracket, and the end of the string.  The result is
    the name and the value group ([None] for [undefined]), or [None] for
    no match. *)
Definition match_attr_selector (selector : str)
  : option (str * option str) :=
  match selector with
  | c :: s1 =>
      if ch_eqb c "[" then
        let '(name, r) := span is_sel_name_char s1 in
        match name, r with
        | [], _ => None
        | _, [d] => if ch_eqb d "]" then Some (name, None) else None
        | _, d :: r1 =>
            if ch_eqb d "=" then
              let '(v, r3) := span is_sel_value_char (skip_quote r1) in
              match v, skip_quote r3 with
              | _ :: _, [e] =>
                  if ch_eqb e "]" then Some (name, Some v) else None
              | _, _ => None
              end
            else None
        | _, [] => None
        end
      else None
  | [] => None
  end.

(** [raw.split(/\s+/).filter(Boolean)] of the [class] attribute. *)
Definition class_list (node : Node) : list str :=
  let raw := default [] (JsMap.get (attrs node) (lit "class")) in
  filter_nonempty (split_ws raw).

(** [compileMatcher(selector)] *)
Definition compileMatcher (selector : str) : Matcher :=
  if startsWith selector (lit "#") then
    let id := sliceFrom selector 1 in
    fun node c => (opt_is (JsMap.get (attrs node) (lit "id")) id, c)
  else if startsWith selector (lit ".") then
    let cls := sliceFrom selector 1 in
    fun node c =>
      match classListCache c !! ref node with
      | Some list => (includes list cls, c)
      | None =>
          let list := class_list node in
          (includes list cls,
           mkCaches (<[ref node := list]> (classListCache c))
                    (tagLowerCache c))
      end
  else
    match match_attr_selector selector with
    | Some (name, None) =>
        fun node c => (JsMap.has (attrs node) name, c)
    | Some (name, Some expected) =>
        fun node c => (opt_is (JsMap.get (attrs node) name) expected, c)
    | None =>
        let tag := toLowerCase selector in
        fun node c =>
          match tagLowerCache c !! ref node with
          | Some (x :: cached) => (str_eqb (x :: cached) tag, c)
          | _ =>
              (* no entry, or the empty string, which [!cached] takes for
                 no entry *)
              let cached := toLowerCase (Dom.tag node) in
              (str_eqb cached tag,
               mkCaches (classListCache c)
                        (<[ref node := cached]> (tagLowerCache c)))
          end
    end.

(** The loop state: the work stack (top first), the results, the caches. *)
Abbreviation Work := (list (Node * nat)).

(** The body of [for (const child of node.children)]. *)
Definition visit_child (matcher : Matcher) (isLast : bool)
    (index nextIndex : nat)
    (st : list Node * Work * Caches) (child : Node)
  : list Node * Work * Caches :=
  let '(results, stack, c) := st in
  let '(matched, c) := matcher child c in
  let '(results, stack) :=
    if matched then
      if isLast then (results ++ [child], stack)
      else (results, (child, nextIndex) :: stack)
    else (results, stack) in
  (results, (child, index) :: stack, c).

(** The loop [while (stack.length > 0)]; [None] when [fuel] iterations do
    not finish it. *)
Fixpoint query_loop (fuel : nat) (matchers : list Matcher)
    (stack : Work) (results : list Node) (c : Caches)
  : option (list Node * Caches) :=
  match stack with
  | [] => Some (results, c)
  | (node, index) :: stack =>
      match fuel with
      | 0 => None
      | S fuel' =>
          match matchers !! index with
          | None => query_loop fuel' matchers stack results c
          | Some matcher =>
              let nextIndex := index + 1 in
              let isLast := nextIndex =? length matchers in
              let '(results, stack, c) :=
                foldl (visit_child matcher isLast index nextIndex)
                      (results, stack, c) (children node) in
              query_loop fuel' matchers stack results c
          end
      end
  end.

(** How many iterations a stack entry for [node] with [k] fragments still
    to match can cause, itself included. *)
Fixpoint visits (node : Node) (k : nat) : nat :=
  match k with
  | 0 => 1
  | S k' =>
      S (sum_list (map (fun child =>
                          visits child k
                          + match k' with 0 => 0 | _ => visits child k' end)
                       (children node)))
  end.

Definition compileSelector (selector : str) : list Matcher :=
  map compileMatcher (split_ws (trim selector)).

(** [querySelectorAll(root, selector)], run on given caches; it returns
    the caches it leaves behind as well. *)
Definition querySelectorAll_st (root : Node) (selector : str) (c : Caches)
  : option (list Node * Caches) :=
  let matchers := compileSelector selector in
  query_loop (visits root (length matchers)) matchers [(root, 0)] [] c.

(** [querySelectorAll(root, selector)] on fresh caches.  The result does
    not depend on what the caches hold, as long as it was put there for
    the same tree ([query_any_caches] below). *)
Definition querySelectorAll (root : Node) (selector : str) : list Node :=
  match querySelectorAll_st root selector no_caches with
  | Some (results, _) => results
  | None => []
  end.

End Query.

(** ** parser.ts *)

Module Parser.
Import Js Dom.

(** [interface QueryElement] ([exists] left out: nothing calls it). *)
Class QueryElement (E : Type) := {
  text : E -> str;
  html : E -> str;
  attr : E -> str -> option str;
  attrs : E -> list (str * str);
  select : E -> str -> list E;
  selectOne : E -> str -> option E
}.

(** [interface DocumentQuery], over the elements [E] it hands out. *)
Class DocumentQuery (D E : Type) := {
  doc_select : D -> str -> list E;
  doc_selectOne : D -> str -> option E;
  title : D -> str;
  doc_html : D -> str
}.

(** [class ElementWrapper] *)
Record ElementWrapper := mkElementWrapper { node : Node }.

(** [class DocumentWrapper] *)
Record DocumentWrapper := mkDocumentWrapper { root : Node }.

(** [nodes.length === 0 ? null : new ElementWrapper(nodes[0])] *)
Definition first_wrapped (nodes : list Node) : option ElementWrapper :=
  match nodes with
  | [] => None
  | first :: _ => Some (mkElementWrapper first)
  end.

#[export] Instance ElementWrapper_QueryElement : QueryElement ElementWrapper := {
  text w := trim (getText (node w));
  html w := getInnerHTML (node w);
  attr w name := JsMap.get (Dom.attrs (node w)) name;
  attrs w := Dom.attrs (node w);
  select w selector :=
    map mkElementWrapper (Query.querySelectorAll (node w) selector);
  selectOne w selector :=
    first_wrapped (Query.querySelectorAll (node w) selector)
}.

#[export] Instance DocumentWrapper_DocumentQuery
  : DocumentQuery DocumentWrapper ElementWrapper := {
  doc_select d selector :=
    map mkElementWrapper (Query.querySelectorAll (root d) selector);
  doc_selectOne d selector :=
    first_wrapped (Query.querySelectorAll (root d) selector);
  title d :=
    match Query.querySelectorAll (root d) (lit "title") with
    | titleNode :: _ => trim (getText titleNode)
    | [] => []
    end;
  doc_html d := getInnerHTML (root d)
}.

(** [parseHTML(html)] *)
Definition parseHTML (html : str) : DocumentWrapper :=
  let tokens := Tokenizer.tokenize html in
  let tree := buildTree tokens in
  mkDocumentWrapper tree.

End Parser.

(** ** extractor.ts *)

Module Extractor.
Import Js Parser.

(** The values of type [unknown] that extraction handles. *)
#[local] Unset Elimination Schemes.
Inductive Value :=
  | VNull
  | VBool (b : bool)
  | VNumber (n : Z)
  | VString (s : str)
  | VArray (items : list Value)
  | VObject (props : list (str * Value)).
#[local] Set Elimination Schemes.

(** A call either returns or throws; what is thrown is kept as the
    message the [catch] clauses read off it ([err.message], or
    [String(err)]). *)
Inductive Result (A : Type) :=
  | Ok (a : A)
  | Throw (message : str).
Arguments Ok {A} a.
Arguments Throw {A} message.

Definition bind {A B} (r : Result A) (k : A -> Result B) : Result B :=
  match r with
  | Ok a => k a
  | Throw m => Throw m
  end.

Notation "x <~ r ;; k" := (bind r (fun x => k))
  (at level 100, r at next level, right associativity).

(** [try { body } catch (err) { throw new Error(prefix + message) }] *)
Definition rethrow {A} (prefix : str) (body : Result A) : Result A :=
  match body with
  | Ok a => Ok a
  | Throw m => Throw (prefix ++ m)
  end.

(** [arr.map(f)] where [f] may throw: the first throw ends the loop. *)
Fixpoint map_result {A B} (f : A -> Result B) (l : list A)
  : Result (list B) :=
  match l with
  | [] => Ok []
  | x :: l' => y <~ f x ;; ys <~ map_result f l' ;; Ok (y :: ys)
  end.

Definition TransformFn := Value -> Result Value.

(** [type FieldSchema]: the three shapes.  A schema lists its fields in
    the order [for (const key in schema)] enumerates them.  [limit] is an
    integer. *)
#[local] Unset Elimination Schemes.
Inductive FieldSchema :=
  | SingleField (selector : str) (attr : option str)
      (default : option Value) (transform : option TransformFn)
  | MultipleField (selector : str) (attr : option str)
      (default : option (list Value)) (transform : option TransformFn)
      (limit : option Z)
  | NestedField (selector : str) (fields : list (str * FieldSchema))
      (multiple : option bool) (limit : option Z).
#[local] Set Elimination Schemes.

Definition Schema := list (str * FieldSchema).

(** The key that [Object.prototype] answers with an accessor. *)
Definition proto_key : str := lit "__proto__".

(** The own property [key] of [obj] becomes [v]: it keeps its place when
    it is there, and is added behind the others when it is not. *)
Fixpoint set_own (obj : list (str * Value)) (key : str) (v : Value)
  : list (str * Value) :=
  match obj with
  | [] => [(key, v)]
  | (k, v') :: obj' =>
      if str_eqb k key then (k, v) :: obj' else (k, v') :: set_own obj' key v
  end.

(** [obj[key] = v] on an object that was created as the literal [{}].
    The key [__proto__] reaches the setter that the object inherits from
    [Object.prototype]: the assignment creates no own property, the own
    properties stay as they are. *)
Definition set_prop (obj : list (str * Value)) (key : str) (v : Value)
  : list (str * Value) :=
  if str_eqb key proto_key then obj else set_own obj key v.

(** [els.slice(0, limit)]: a negative [limit] counts from the end. *)
Definition slice0 {A} (els : list A) (limit : Z) : list A :=
  if (limit <? 0)%Z then take (length els - Z.to_nat (- limit)) els
  else take (Z.to_nat limit) els.

(** [f.limit ? els.slice(0, f.limit) : els]: [undefined] and [0] are
    falsy. *)
Definition limited {A} (limit : option Z) (els : list A) : list A :=
  match limit with
  | Some l => if (l =? 0)%Z then els else slice0 els l
  | None => els
  end.

Definition of_nullable (v : option str) : Value :=
  match v with Some s => VString s | None => VNull end.

(** [v != null] *)
Definition not_nullish (v : Value) : bool :=
  match v with VNull => false | _ => true end.

Section WithQuery.
Context {E D : Type} `{QueryElement E} `{DocumentQuery D E}.

(** [ctx: DocumentQuery | QueryElement] *)
Inductive Ctx :=
  | OfDocument (doc : D)
  | OfElement (el : E).

Definition ctx_select (ctx : Ctx) (selector : str) : list E :=
  match ctx with
  | OfDocument d => doc_select d selector
  | OfElement e => select e selector
  end.

Definition ctx_selectOne (ctx : Ctx) (selector : str) : option E :=
  match ctx with
  | OfDocument d => doc_selectOne d selector
  | OfElement e => selectOne e selector
  end.

(** [extractValue(el, attr)] *)
Definition extractValue (el : E) (attr_name : str) : option str :=
  if str_eqb attr_name (lit "text") then Some (text el)
  else if str_eqb attr_name (lit "html") then Some (html el)
  else attr el attr_name.

(** [safeTransform(fn, val)] *)
Definition safeTransform (fn : TransformFn) (val : Value) : Result Value :=
  rethrow (lit "Transform failed: ") (fn val).

(** [f.transform ? this.safeTransform(f.transform, raw) : raw] *)
Definition apply_transform (transform : option TransformFn) (raw : Value)
  : Result Value :=
  match transform with
  | Some fn => safeTransform fn raw
  | None => Ok raw
  end.

(** [extractSingleSimple(f, ctx)] *)
Definition extractSingleSimple (selector : str) (attr_name : option str)
    (dflt : option Value) (transform : option TransformFn) (ctx : Ctx)
  : Result Value :=
  let el := ctx_selectOne ctx selector in
  let raw :=
    match el with
    | Some el => of_nullable (extractValue el (default (lit "text") attr_name))
    | None => default VNull dflt
    end in
  apply_transform transform raw.

(** [extractMultipleSimple(f, ctx)] *)
Definition extractMultipleSimple (selector : str) (attr_name : option str)
    (dflt : option (list Value)) (transform : option TransformFn)
    (limit : option Z) (ctx : Ctx) : Result Value :=
  let els := ctx_select ctx selector in
  let limited := limited limit els in
  let raw :=
    if 0 <? length limited then
      List.filter not_nullish
        (map (fun el =>
                of_nullable (extractValue el (default (lit "text") attr_name)))
             limited)
    else default [] dflt in
  apply_transform transform (VArray raw).

(** [extractField(field, ctx)], with [buildNestedObject] as the inner
    loop over the sub-schema. *)
Fixpoint extractField (field : FieldSchema) (ctx : Ctx) : Result Value :=
  match field with
  | NestedField selector fields multiple limit =>
      let buildNestedObject (el : E) : Result Value :=
        (fix loop (fields : list (str * FieldSchema))
                  (obj : list (str * Value)) : Result Value :=
           match fields with
           | [] => Ok (VObject obj)
           | (key, sub) :: fields' =>
               v <~ extractField sub (OfElement el) ;;
               loop fields' (set_prop obj key v)
           end) fields [] in
      if default false multiple then
        (* extractMultipleNested *)
        let els := ctx_select ctx selector in
        objs <~ map_result buildNestedObject (limited limit els) ;;
        Ok (VArray objs)
      else
        (* extractSingleNested *)
        match ctx_selectOne ctx selector with
        | Some el => buildNestedObject el
        | None => Ok VNull
        end
  | MultipleField selector attr_name dflt transform limit =>
      extractMultipleSimple selector attr_name dflt transform limit ctx
  | SingleField selector attr_name dflt transform =>
      extractSingleSimple selector attr_name dflt transform ctx
  end.

(** [buildNestedObject(fields, el)] *)
Fixpoint buildNestedObject_loop (el : E) (fields : Schema)
    (obj : list (str * Value)) : Result Value :=
  match fields with
  | [] => Ok (VObject obj)
  | (key, sub) :: fields' =>
      v <~ extractField sub (OfElement el) ;;
      buildNestedObject_loop el fields' (set_prop obj key v)
  end.

Definition buildNestedObject (fields : Schema) (el : E) : Result Value :=
  buildNestedObject_loop el fields [].

(** [extractMultipleNested(f, ctx)] *)
Definition extractMultipleNested (selector : str) (fields : Schema)
    (limit : option Z) (ctx : Ctx) : Result Value :=
  let els := ctx_select ctx selector in
  objs <~ map_result (buildNestedObject fields) (limited limit els) ;;
  Ok (VArray objs).

(** [extractSingleNested(f, ctx)] *)
Definition extractSingleNested (selector : str) (fields : Schema)
    (ctx : Ctx) : Result Value :=
  match ctx_selectOne ctx selector with
  | Some el => buildNestedObject fields el
  | None => Ok VNull
  end.

(** [`Field "${String(key)}": `] *)
Definition field_prefix (key : str) : str :=
  lit "Field " ++ [Tokenizer.dquote] ++ key ++ [Tokenizer.dquote] ++ lit ": ".

(** The loop of [Extractor.extract(schema)] on the document [doc]. *)
Fixpoint extract_loop (doc : D) (schema : Schema)
    (result : list (str * Value)) : Result Value :=
  match schema with
  | [] => Ok (VObject result)
  | (key, field) :: schema' =>
      v <~ rethrow (field_prefix key) (extractField field (OfDocument doc)) ;;
      extract_loop doc schema' (set_prop result key v)
  end.

(** [extract(doc, schema)] *)
Definition extract (doc : D) (schema : Schema) : Result Value :=
  extract_loop doc schema [].

End WithQuery.

End Extractor.

(** ** Notions the properties are stated with *)

Module Spec.
Import Js Dom Query.

(** The proper descendants of a node, in document order (depth first,
    a node before its children). *)
Fixpoint descendants (n : Node) : list Node :=
  concat (map (fun child => child :: descendants child) (children n)).

(** A node and its descendants. *)
Definition subnodes (n : Node) : list Node := n :: descendants n.

(** Every object of the tree has an identity of its own. *)
Definition unique_refs (n : Node) : Prop := NoDup (map ref (subnodes n)).

(** The caches hold for [n] nothing but what the matchers would compute
    from [n]. *)
Definition agrees (c : Caches) (n : Node) : Prop :=
  (forall l, classListCache c !! ref n = Some l -> l = class_list n)
  /\ (forall t, tagLowerCache c !! ref n = Some t -> t = toLowerCase (tag n)).

Definition caches_agree (nodes : list Node) (c : Caches) : Prop :=
  forall n, n ∈ nodes -> agrees c n.

(** What the matcher compiled from one fragment answers for a node,
    without the caches. *)
Definition selects (selector : str) (node : Node) : bool :=
  if startsWith selector (lit "#") then
    opt_is (JsMap.get (attrs node) (lit "id")) (sliceFrom selector 1)
  else if startsWith selector (lit ".") then
    includes (class_list node) (sliceFrom selector 1)
  else
    match match_attr_selector selector with
    | Some (name, None) => JsMap.has (attrs node) name
    | Some (name, Some expected) =>
        opt_is (JsMap.get (attrs node) name) expected
    | None => str_eqb (toLowerCase (tag node)) (toLowerCase selector)
    end.

(** The visit order of the engine.  A stack entry for [node] at fragment
    [index] records the matching children of [node] (when the fragment is
    the last one), and then works off the children from the last one to
    the first: for each child first the entry at the same fragment, then,
    when the child matched and fragments remain, the entry at the next
    fragment. *)
Fixpoint found (parts : list str) (node : Node) (index : nat) : list Node :=
  match parts !! index with
  | None => []
  | Some part =>
      let isLast := index + 1 =? length parts in
      (if isLast then List.filter (selects part) (children node) else [])
      ++ concat (rev (map (fun child =>
                             found parts child index
                             ++ (if selects part child && negb isLast
                                 then found parts child (index + 1)
                                 else []))
                          (children node)))
  end.

(** The stack entries that the loop over the children of a node leaves
    for one child, the top first. *)
Definition entries (part : str) (isLast : bool) (index : nat) (child : Node)
  : Work :=
  (child, index)
  :: (if selects part child && negb isLast then [(child, index + 1)] else []).

(** The iterations that the entries of a stack can cause. *)
Definition work_cost (k : nat) (stack : Work) : nat :=
  sum_list (map (fun e => visits (fst e) (k - snd e)) stack).

Fixpoint node_size (n : Node) : nat :=
  S (sum_list (map node_size (children n))).

(** A set of nodes that holds the children of its members. *)
Definition closed (U : list Node) : Prop :=
  forall n c, n ∈ U -> c ∈ children n -> c ∈ U.

(** How often the object with identity [r] occurs in a sequence. *)
Definition occurrences (r : nat) (l : list Node) : nat :=
  length (List.filter (fun n => ref n =? r) l).

(** Induction over a tree: a property holds of a node when it holds of
    all its children. *)
Section NodeInduction.
Variable P : Node -> Prop.
Hypothesis step : forall r t a ch tx p, Forall P ch -> P (mkNode r t a ch tx p).

Fixpoint Node_ind (n : Node) : P n :=
  match n with
  | mkNode r t a ch tx p =>
      step r t a ch tx p
        ((fix all (l : list Node) : Forall P l :=
            match l with
            | [] => Forall_nil_2 P
            | x :: l' => Forall_cons_2 P x l' (Node_ind x) (all l')
            end) ch)
  end.
End NodeInduction.

End Spec.

Module ExtractorSpec.
Import Js Parser Extractor.

(** Induction over a field descriptor: a property holds of a nested
    field when it holds of the fields of its sub-schema. *)
Section FieldInduction.
Variable P : FieldSchema -> Prop.
Hypothesis single : forall s a d t, P (SingleField s a d t).
Hypothesis multiple : forall s a d t l, P (MultipleField s a d t l).
Hypothesis nested :
  forall s fields m l,
    Forall (fun kf => P (snd kf)) fields -> P (NestedField s fields m l).

Fixpoint FieldSchema_ind (f : FieldSchema) : P f :=
  match f with
  | SingleField s a d t => single s a d t
  | MultipleField s a d t l => multiple s a d t l
  | NestedField s fields m l =>
      nested s fields m l
        ((fix all (fs : list (str * FieldSchema))
            : Forall (fun kf => P (snd kf)) fs :=
            match fs with
            | [] => Forall_nil_2 _
            | kf :: fs' => Forall_cons_2 _ kf fs' (FieldSchema_ind (snd kf)) (all fs')
            end) fields)
  end.
End FieldInduction.

Section Claimed.
Context {E D : Type} `{QueryElement E} `{DocumentQuery D E}.

(** The raw sequence of a non-nested multiple field as C4 words it: the
    matches, truncated, their values, the nulls dropped, and the default
    in place of an empty outcome. *)
Definition claimed_multiple_raw (selector : str) (attr_name : option str)
    (dflt : option (list Value)) (limit : option Z) (ctx : Ctx)
  : list Value :=
  let els := ctx_select ctx selector in
  let kept := limited limit els in
  let values :=
    List.filter not_nullish
      (map (fun el =>
              of_nullable (extractValue el (default (lit "text") attr_name)))
           kept) in
  match values with
  | [] => default [] dflt
  | _ => values
  end.

End Claimed.

(** The first of the answers [f] gives along a list. *)
Section FirstSome.
Context {A B : Type}.
Variable f : A -> option B.

Fixpoint first_some (l : list A) : option B :=
  match l with
  | [] => None
  | x :: l' =>
      match f x with
      | Some y => Some y
      | None => first_some l'
      end
  end.
End FirstSome.

Section Failure.
Context {E D : Type} `{QueryElement E} `{DocumentQuery D E}.

(** The value a single field hands to its transform: what [attr] names
    ([text] when it names nothing) of the element [selectOne] returns;
    without such an element the default of the field, and [null] without
    a default. *)
Definition single_raw (selector : str) (attr_name : option str)
    (dflt : option Value) (ctx : Ctx) : Value :=
  match ctx_selectOne ctx selector with
  | Some el => of_nullable (extractValue el (default (lit "text") attr_name))
  | None => default VNull dflt
  end.

(** The array a multiple field hands to its transform: the values of the
    matches the limit keeps, without the nulls; when the limit keeps no
    match, the default of the field, and the empty array without a
    default. *)
Definition multiple_raw (selector : str) (attr_name : option str)
    (dflt : option (list Value)) (limit : option Z) (ctx : Ctx)
  : list Value :=
  match limited limit (ctx_select ctx selector) with
  | [] => default [] dflt
  | kept =>
      List.filter not_nullish
        (map (fun el =>
                of_nullable (extractValue el (default (lit "text") attr_name)))
             kept)
  end.

(** The message a call throws, if it throws. *)
Definition thrown (r : Result Value) : option str :=
  match r with
  | Throw C => Some C
  | Ok _ => None
  end.

(** The message of the first transform that throws on the value
    extracted for its field, when [field] is extracted in [ctx]: the
    transform of the field itself, or, for a field with a sub-schema, the
    transform of a field of the sub-schema (at any depth), the matches
    taken in their order and the fields of the sub-schema in theirs. *)
Fixpoint failure (field : FieldSchema) (ctx : Ctx) : option str :=
  match field with
  | SingleField selector attr_name dflt transform =>
      match transform with
      | Some fn => thrown (fn (single_raw selector attr_name dflt ctx))
      | None => None
      end
  | MultipleField selector attr_name dflt transform limit =>
      match transform with
      | Some fn =>
          thrown (fn (VArray (multiple_raw selector attr_name dflt limit ctx)))
      | None => None
      end
  | NestedField selector fields multiple limit =>
      let in_element (el : E) :=
        first_some (fun kf => failure (snd kf) (OfElement el)) fields in
      if default false multiple then
        first_some in_element (limited limit (ctx_select ctx selector))
      else
        match ctx_selectOne ctx selector with
        | Some el => in_element el
        | None => None
        end
  end.

(** The first field of the schema, by its key, during whose extraction on
    the document a transform throws, and the message of that
    transform. *)
Fixpoint first_failure (doc : D) (schema : Schema) : option (str * str) :=
  match schema with
  | [] => None
  | (key, field) :: schema' =>
      match failure field (OfDocument doc) with
      | Some C => Some (key, C)
      | None => first_failure doc schema'
      end
  end.

(** The selector of a field. *)
Definition selector_of (field : FieldSchema) : str :=
  match field with
  | SingleField selector _ _ _ => selector
  | MultipleField selector _ _ _ _ => selector
  | NestedField selector _ _ _ => selector
  end.

(** The selector of the field matches nothing in [ctx]. *)
Definition unmatched (field : FieldSchema) (ctx : Ctx) : Prop :=
  ctx_select ctx (selector_of field) = []
  /\ ctx_selectOne ctx (selector_of field) = None.

End Failure.

(** The fields of a schema that make a property of the result: all but
    one under the key [__proto__]. *)
Definition own_fields (schema : Schema) : Schema :=
  List.filter (fun kf => negb (str_eqb (fst kf) proto_key)) schema.

End ExtractorSpec.

Module BuildSpec.
Import Js Dom.

(** The children of an object were allocated after it, and exist. *)
Definition wf_store (h : Store.t) : Prop :=
  forall a o c, h !! a = Some o -> c ∈ Store.children o -> a < c < length h.

(** [c] is in the [children] array of the object at [p]. *)
Definition child_of (h : Store.t) (p c : nat) : Prop :=
  exists o, h !! p = Some o /\ c ∈ Store.children o.

(** [b] is [a] or below it. *)
Inductive reachable (h : Store.t) (a : nat) : nat -> Prop :=
  | reach_here : reachable h a a
  | reach_child b c : reachable h a b -> child_of h b c -> reachable h a c.

(** The stack of open elements is a path of the tree: the bottom is the
    root, and every other entry is the last child of the entry below it,
    which its [parent] names. *)
Fixpoint attached (h : Store.t) (stack : list nat) : Prop :=
  match stack with
  | [] => False
  | c :: below =>
      match below with
      | [] => c = root_addr
      | p :: _ =>
          (exists o, h !! p = Some o /\ last (Store.children o) = Some c)
          /\ (exists oc, h !! c = Some oc /\ Store.parent oc = Some p)
          /\ attached h below
      end
  end.

(** The object [o] with [cs] pushed to its [children]. *)
Definition with_child (o : Store.Node) (cs : list nat) : Store.Node :=
  Store.mkNode (Store.tag o) (Store.attrs o) (Store.children o ++ cs)
               (Store.text o) (Store.parent o).

(** [closed h a hi]: the object at [a] and the objects below it occupy
    exactly the addresses from [a] up to [hi], each subtree a range of its
    own, in the order of the [children] arrays.  [chain h lo cs hi]: the
    subtrees at [cs] occupy the ranges that follow one another from [lo]
    up to [hi]. *)
Inductive closed (h : Store.t) : nat -> nat -> Prop :=
  | closed_node a o hi :
      h !! a = Some o -> chain h (S a) (Store.children o) hi ->
      closed h a hi
with chain (h : Store.t) : nat -> list nat -> nat -> Prop :=
  | chain_nil lo : chain h lo [] lo
  | chain_cons c mid cs hi :
      closed h c mid -> chain h mid cs hi -> chain h c (c :: cs) hi.

Scheme closed_chain_ind := Induction for closed Sort Prop
  with chain_closed_ind := Induction for chain Sort Prop.

(** The open elements below [child] on the stack: each has its closed
    children first and the next open element as its last child; the
    bottom one is the root. *)
Fixpoint open_below (h : Store.t) (child : nat) (below : list nat) : Prop :=
  match below with
  | [] => child = root_addr
  | p :: rest =>
      (exists o cs,
         h !! p = Some o /\ Store.children o = cs ++ [child]
         /\ chain h (S p) cs child)
      /\ open_below h p rest
  end.

(** The store is laid out in document order: what is below the top of
    the stack reaches up to the end of the store. *)
Definition layout (st : State) : Prop :=
  let '(h, stack) := st in
  match stack with
  | [] => False
  | top :: below =>
      (exists o, h !! top = Some o
                 /\ chain h (S top) (Store.children o) (length h))
      /\ open_below h top below
  end.

(** The invariant of the loop of [buildTree]. *)
Definition build_inv (st : State) : Prop :=
  let '(h, stack) := st in
  wf_store h /\ Forall (fun a => a < length h) stack /\ attached h stack.

(** The close token for [tag] finds its element on top of the stack, and
    the stack holds more than the root. *)
Definition close_matches (h : Store.t) (stack : list nat) (tag : option str)
  : Prop :=
  1 < length stack
  /\ exists top o, head stack = Some top /\ h !! top = Some o
                   /\ tag = Some (Store.tag o).

(** The string has a capital letter. *)
Definition has_upper (s : str) : bool := existsb is_upper s.

(** The keys of a map are free of capital letters. *)
Definition lower_keys (m : JsMap.t) : Prop :=
  Forall (fun k => has_upper k = false) (JsMap.keys m).

Definition token_lower (t : Tokenizer.Token) : Prop :=
  forall m, Tokenizer.attrs t = Some m -> lower_keys m.

Definition store_lower (h : Store.t) : Prop :=
  Forall (fun o => lower_keys (Store.attrs o)) h.

End BuildSpec.

Module RoundTrip.
Import Js Dom BuildSpec.

(** The tag, attribute and text structure of a node: the node without
    the identities ([ref], [parent]). *)
#[local] Unset Elimination Schemes.
Inductive Shape := mkShape {
  s_tag : str;
  s_attrs : JsMap.t;
  s_children : list Shape;
  s_text : str
}.
#[local] Set Elimination Schemes.

Fixpoint shape (n : Node) : Shape :=
  mkShape (tag n) (attrs n) (map shape (children n)) (text n).

(** Serializing a node, tokenizing the markup and building the tree. *)
Definition reparse (n : Node) : Node :=
  buildTree (Tokenizer.tokenize (toString n)).

Definition is_text (n : Node) : bool :=
  match text n with [] => false | _ => true end.

Definition is_void (tag : str) : bool :=
  includes Tokenizer.selfClosingTags tag.

Definition is_nil {A} (l : list A) : bool :=
  match l with [] => true | _ => false end.

(** A tag name the tokenizer reads back as it is: not empty, of lower-case
    name characters, and neither [script] nor [style]. *)
Definition good_tag (t : str) : bool :=
  negb (is_nil t)
  && forallb (fun c => Tokenizer.is_name_char c && negb (is_upper c)) t
  && negb (str_eqb t (lit "script")) && negb (str_eqb t (lit "style")).

(** An attribute name the tokenizer reads back as it is. *)
Definition good_attr_name (k : str) : bool :=
  negb (is_nil k)
  && forallb (fun c => Tokenizer.is_attr_name_char c && negb (is_upper c)
                       && negb (ch_eqb c Tokenizer.gt_char)) k.

(** An attribute value that can stand between double quotes in a tag. *)
Definition good_attr_value (v : str) : bool :=
  forallb (fun c => negb (ch_eqb c Tokenizer.dquote)
                    && negb (ch_eqb c Tokenizer.gt_char)) v.

Fixpoint distinct (l : list str) : bool :=
  match l with
  | [] => true
  | x :: l' => negb (includes l' x) && distinct l'
  end.

Definition good_attrs (m : JsMap.t) : bool :=
  distinct (JsMap.keys m)
  && forallb (fun kv => good_attr_name (fst kv) && good_attr_value (snd kv)) m.

(** A text the tokenizer reads back as one text token. *)
Definition good_text (s : str) : bool :=
  negb (is_nil s) && forallb (fun c => negb (ch_eqb c Tokenizer.lt_char)) s.

(** No text leaf is followed by a text leaf. *)
Fixpoint no_adjacent_text (kids : list Node) : bool :=
  match kids with
  | a :: rest =>
      match rest with
      | b :: _ => negb (is_text a && is_text b) && no_adjacent_text rest
      | [] => true
      end
  | [] => true
  end.

(** The subtrees that survive the round trip: text leaves with a good text
    and nothing else; elements with a good tag, good attributes, no text
    of their own, children of the same kind with no two text leaves in a
    row, and no children at all under a void tag. *)
Fixpoint plain (n : Node) : bool :=
  match text n with
  | _ :: _ =>
      good_text (text n) && is_nil (tag n) && is_nil (attrs n)
      && is_nil (children n)
  | [] =>
      good_tag (tag n) && good_attrs (attrs n)
      && (negb (is_void (tag n)) || is_nil (children n))
      && forallb plain (children n)
      && no_adjacent_text (children n)
  end.

(** The tokens of the markup of a plain subtree. *)
Fixpoint tokens_of (n : Node) : list Tokenizer.Token :=
  match text n with
  | _ :: _ => [Tokenizer.text_token (text n)]
  | [] =>
      Tokenizer.tag_token (is_void (tag n)) (tag n) (attrs n)
      :: concat (map tokens_of (children n))
      ++ [Tokenizer.close_token (tag n)]
  end.

(** The addresses [cs] are above [a] and stand in [R] to the structures
    [kids], one to one. *)
Fixpoint repr_all (R : Shape -> nat -> Prop) (a : nat)
    (kids : list Shape) (cs : list nat) : Prop :=
  match kids, cs with
  | [], [] => True
  | k :: kids', c :: cs' => a < c /\ R k c /\ repr_all R a kids' cs'
  | _, _ => False
  end.

(** The object at [a] and the objects below it have the structure [s],
    and their addresses lie from [a] up to [hi]. *)
Fixpoint repr (h : Store.t) (hi : nat) (s : Shape) (a : nat) : Prop :=
  exists o,
    h !! a = Some o /\ a < hi
    /\ Store.tag o = s_tag s /\ Store.attrs o = s_attrs s
    /\ Store.text o = s_text s
    /\ repr_all (repr h hi) a (s_children s) (Store.children o).

(** What the tokens of [t] do to a state whose top of stack is a
    non-void element: they hang the structure of [t] under the top, above
    everything that was allocated before, and leave the stack and the other
    objects as they were. *)
Definition builds (t : Node) : Prop :=
  forall h top rest o,
    h !! top = Some o -> is_void (Store.tag o) = false ->
    exists h',
      run (tokens_of t) (h, top :: rest) = (h', top :: rest)
      /\ length h < length h'
      /\ h' !! top = Some (with_child o [length h])
      /\ (forall b, b < length h -> b <> top -> h' !! b = h !! b)
      /\ repr h' (length h') (shape t) (length h).

(** The attributes as [toString] prints them, without the leading
    space. *)
Definition render (m : JsMap.t) : str := join_space (map attr_to_string m).

(** The loop of [tokenize] on the markup [pre ++ rest], from the end of
    [pre] on. *)
Definition tokenize_split (pre rest : str) (tokens : list Tokenizer.Token)
  : option (list Tokenizer.Token) :=
  Tokenizer.tokenize_from (pre ++ rest) (length pre) tokens.

(** The markup of an element tokenizes to its tokens, wherever it stands
    and whatever text (with no [<] in it) stands right before it. *)
Definition tokenizes (t : Node) : Prop :=
  forall pre txt post tokens,
    forallb (fun c => negb (ch_eqb c Tokenizer.lt_char)) txt = true ->
    tokenize_split pre (txt ++ toString t ++ post) tokens
    = tokenize_split (pre ++ txt ++ toString t) post
        (Tokenizer.push_text tokens txt ++ tokens_of t).

(** Induction over a structure. *)
Section ShapeInduction.
Variable P : Shape -> Prop.
Hypothesis step : forall t a ch tx, Forall P ch -> P (mkShape t a ch tx).

Fixpoint Shape_ind (s : Shape) : P s :=
  match s with
  | mkShape t a ch tx =>
      step t a ch tx
        ((fix all (l : list Shape) : Forall P l :=
            match l with
            | [] => Forall_nil_2 P
            | x :: l' => Forall_cons_2 P x l' (Shape_ind x) (all l')
            end) ch)
  end.
End ShapeInduction.

End RoundTrip.

(** ** Tactics *)

(** Refutes a hypothesis that one explicit list is a subsequence of
    another. *)
Ltac refute_sublist :=
  repeat match goal with
         | H : sublist _ _ |- _ => inversion H; clear H; subst
         end.

(** Brings nested appends into right-nested form. *)
Ltac list_norm :=
  repeat first [rewrite <- app_assoc | progress cbn [app]].

(** Proves a decidable closed proposition by evaluation. *)
Ltac by_evaluation := apply (bool_decide_unpack _); vm_compute; exact I.

(** ** What a selector means *)

Module QuerySpec.
Import Js Dom Query Spec.

(** The chain of fragments [parts] leads from [root] to [n]: the first
    fragment selects a proper descendant of [root], the next one a proper
    descendant of that node, and so on, and the last one selects [n]. *)
Fixpoint reaches (parts : list str) (root n : Node) : Prop :=
  match parts with
  | [] => False
  | part :: rest =>
      match rest with
      | [] => n ∈ descendants root /\ selects part n = true
      | _ :: _ =>
          exists m, m ∈ descendants root /\ selects part m = true
                    /\ reaches rest m n
      end
  end.

End QuerySpec.

(** ** extractor.ts: the transform helpers *)

(** [export const transform].  Of its members, [uppercase], [number],
    [date], [url], [match] and [replace] are left out: [toUpperCase]
    leaves the code units 0..255, and the others rest on floating point
    numbers, [Date], [URL] and regular expressions that the caller
    passes. *)
Module Transform.
Import Js Extractor.

(** [transform.trim] *)
Definition trim (val : Value) : Result Value :=
  Ok (VString (match val with VString s => Js.trim s | _ => [] end)).

(** [transform.lowercase] *)
Definition lowercase (val : Value) : Result Value :=
  Ok (VString (match val with VString s => toLowerCase s | _ => [] end)).

(** [transform.boolean] *)
Definition boolean (val : Value) : Result Value :=
  match val with
  | VString s =>
      let v := Js.trim (toLowerCase s) in
      Ok (VBool (str_eqb v (lit "true") || str_eqb v (lit "1")
                 || str_eqb v (lit "yes")))
  | _ => Ok (VBool false)
  end.

Definition is_digit (c : ascii) : bool := in_range 48 57 c.

(** The class [[^0-9-]] of [transform.int], negated: what
    [val.replace(/[^0-9-]/g, '')] keeps. *)
Definition is_int_char (c : ascii) : bool := is_digit c || ch_eqb c "-".

(** The number that a run of decimal digits denotes. *)
Definition decimal (digits : str) : Z :=
  foldl (fun acc c => (10 * acc + Z.of_nat (code c - 48))%Z) 0%Z digits.

(** [parseInt(s, 10)]: white space, an optional sign, and the longest run
    of digits; [None] is [NaN].  The result is the mathematical integer,
    which is the number JavaScript computes as long as the run has at most
    15 digits; the sign of a zero is not kept. *)
Definition parseInt10 (s : str) : option Z :=
  let s := trimStart s in
  let '(negative, body) :=
    match s with
    | c :: r =>
        if ch_eqb c "-" then (true, r)
        else if ch_eqb c "+" then (false, r)
        else (false, s)
    | [] => (false, [])
    end in
  match fst (span is_digit body) with
  | [] => None
  | digits => Some (if negative then (- decimal digits)%Z else decimal digits)
  end.

(** [transform.int] *)
Definition int (val : Value) : Result Value :=
  match val with
  | VString s =>
      match parseInt10 (List.filter is_int_char s) with
      | Some n => Ok (VNumber n)
      | None => Ok VNull
      end
  | _ => Ok VNull
  end.

(** [s.split(d)] for a non-empty separator [d]: [cur] is the piece read
    so far, reversed, and [skip] the number of characters of a separator
    still to pass. *)
Fixpoint split_aux (d s cur : str) (skip : nat) : list str :=
  match s with
  | [] => [rev cur]
  | c :: s' =>
      match skip with
      | S k => split_aux d s' cur k
      | 0 =>
          if startsWith s d then rev cur :: split_aux d s' [] (length d - 1)
          else split_aux d s' (c :: cur) 0
      end
  end.

(** [String.prototype.split] with a string separator: the empty
    separator splits into the code units. *)
Definition js_split (s d : str) : list str :=
  match d with
  | [] => map (fun c => [c]) s
  | _ :: _ => split_aux d s [] 0
  end.

(** [transform.split(delimiter)] *)
Definition split (delimiter : str) (val : Value) : Result Value :=
  match val with
  | VString s =>
      Ok (VArray (map VString
                    (filter_nonempty (map Js.trim (js_split s delimiter)))))
  | _ => Ok (VArray [])
  end.

(** [transform.chain(...fns)]: [fns.reduce((acc, fn) => fn(acc), val)];
    a function that throws ends the reduction. *)
Definition chain (fns : list TransformFn) (val : Value) : Result Value :=
  foldl (fun acc fn => bind acc fn) (Ok val) fns.

End Transform.

Module TransformSpec.
Import Js.

(** [fields.join(d)] *)
Fixpoint join_with (d : str) (fields : list str) : str :=
  match fields with
  | [] => []
  | x :: rest =>
      match rest with
      | [] => x
      | _ :: _ => x ++ d ++ join_with d rest
      end
  end.

(** The string does not hold the character. *)
Definition lacks (c : ascii) (s : str) : bool :=
  forallb (fun x => negb (ch_eqb x c)) s.

End TransformSpec.

(** ** fetcher.ts *)

From Stdlib Require DecimalString.

(** [class RequestManager], for requests without a proxy: the option
    [proxy] and the proxy agent are left out, and the dispatcher of every
    request is the agent of the manager.  The network and [Math.random]
    are the environment [Env]; what the manager does to the outside is
    recorded in the [World]. *)
Module Fetcher.
Import Js Extractor.

Inductive Method := GET | POST.

(** [string | string[]] *)
Inductive HeaderValue :=
  | One (value : str)
  | Many (values : list str).

(** [Record<string, string | string[]>], in the order of the keys. *)
Definition Headers := list (str * HeaderValue).

(** [interface RequestOptions]; an absent property is [None]; [timeout]
    and [retries] are integers. *)
Record RequestOptions := mkRequestOptions {
  method : option Method;
  headers : option Headers;
  body : option str;
  timeout : option Z;
  retries : option Z
}.

(** [interface RequestResult]: the status, the headers, and the body as
    [text()] decodes it. *)
Record RequestResult := mkRequestResult {
  status : Z;
  result_headers : Headers;
  text : str
}.

(** The arguments of one call of [request]. *)
Record Request := mkRequest {
  request_url : str;
  request_method : Method;
  request_headers : Headers;
  request_body : option str;
  headersTimeout : Z;
  bodyTimeout : Z
}.

(** The environment.  [respond k r] is what the request [r] comes to when
    [k] requests have been made before it: the response with its body
    read, or the error that [request] or reading the body throws.
    [random k] is the value of the [k]-th evaluation of
    [Math.floor(Math.random() * USER_AGENTS.length)], taken modulo the
    length. *)
Record Env := mkEnv {
  respond : nat -> Request -> Result RequestResult;
  random : nat -> nat
}.

Inductive Event :=
  | Requested (r : Request)
  | Slept (ms : Z)
  | Closed.

(** What has happened so far, the oldest event first, with the numbers of
    requests made and of random numbers drawn. *)
Record World := mkWorld {
  events : list Event;
  sent : nat;
  drawn : nat
}.

Definition new_world : World := mkWorld [] 0 0.

Definition record (e : Event) (w : World) : World :=
  mkWorld (events w ++ [e]) (sent w) (drawn w).

Definition USER_AGENTS : list str :=
  map lit
    ["Mozilla/5.0 (Windows NT 10.0; Win64; x64) AppleWebKit/537.36 (KHTML, like Gecko) Chrome/120.0.0.0 Safari/537.36";
     "Mozilla/5.0 (Macintosh; Intel Mac OS X 10_15_7) AppleWebKit/537.36 (KHTML, like Gecko) Chrome/120.0.0.0 Safari/537.36";
     "Mozilla/5.0 (X11; Linux x86_64) AppleWebKit/537.36 (KHTML, like Gecko) Chrome/120.0.0.0 Safari/537.36"]%string.

Fixpoint header_get (h : Headers) (k : str) : option HeaderValue :=
  match h with
  | [] => None
  | (k', v) :: h' => if str_eqb k' k then Some v else header_get h' k
  end.

(** [h[k] = v]: a present key keeps its place, a new key goes last. *)
Fixpoint header_set (h : Headers) (k : str) (v : HeaderValue) : Headers :=
  match h with
  | [] => [(k, v)]
  | (k', v') :: h' =>
      if str_eqb k' k then (k', v) :: h' else (k', v') :: header_set h' k v
  end.

(** [{ ...base, ...extra }] *)
Definition spread (base extra : Headers) : Headers :=
  foldl (fun h kv => header_set h (fst kv) (snd kv)) base extra.

(** The headers of [fetch] before the caller's are spread over them. *)
Definition default_headers (userAgent : str) : Headers :=
  [(lit "User-Agent", One userAgent);
   (lit "Accept",
    One (lit "text/html,application/xhtml+xml,application/xml;q=0.9,*/*;q=0.8"));
   (lit "Accept-Language", One (lit "en-US,en;q=0.9"));
   (lit "Accept-Encoding", One (lit "gzip, deflate, br"))].

(** [String(n)] for an integer. *)
Definition show_Z (n : Z) : str :=
  list_ascii_of_string (DecimalString.NilZero.string_of_int (Z.to_int n)).

(** [Math.min(1000 * 2 ** attempt, 10000)] *)
Definition delay (attempt : Z) : Z := Z.min (1000 * 2 ^ attempt) 10000.

(** [`Request failed after ${retries + 1} attempts: ${lastError?.message}`] *)
Definition failure_message (retries : Z) (lastError : option str) : str :=
  lit "Request failed after " ++ show_Z (retries + 1) ++ lit " attempts: "
  ++ default (lit "undefined") lastError.

Section WithEnv.
Variable env : Env.

(** [await request(url, ...)] and reading the body. *)
Definition send (r : Request) (w : World) : Result RequestResult * World :=
  (respond env (sent w) r,
   mkWorld (events w ++ [Requested r]) (S (sent w)) (drawn w)).

(** The loop [for (let attempt = 0; attempt <= retries; attempt++)] with
    what follows it; [None] when [fuel] iterations do not finish it. *)
Fixpoint fetch_loop (fuel : nat) (r : Request) (attempt retries : Z)
    (lastError : option str) (w : World)
  : option (Result RequestResult * World) :=
  if (attempt <=? retries)%Z then
    match fuel with
    | 0 => None
    | S fuel' =>
        match send r w with
        | (Ok response, w) => Some (Ok response, w)
        | (Throw message, w) =>
            let w :=
              if (attempt <? retries)%Z then record (Slept (delay attempt)) w
              else w in
            fetch_loop fuel' r (attempt + 1) retries (Some message) w
        end
    end
  else Some (Throw (failure_message retries lastError), w).

(** The request that [fetch] makes, given the user agent drawn. *)
Definition build_request (url : str) (options : RequestOptions)
    (userAgent : str) : Request :=
  let timeout := default 30000%Z (timeout options) in
  mkRequest url
            (default GET (method options))
            (spread (default_headers userAgent) (default [] (headers options)))
            (body options)
            timeout timeout.

(** [USER_AGENTS[Math.floor(Math.random() * USER_AGENTS.length)]] *)
Definition pick_user_agent (w : World) : str :=
  default [] (USER_AGENTS !! (random env (drawn w) mod length USER_AGENTS)).

(** [fetch(url, options)].  The loop takes at most [retries + 1]
    iterations ([fetch_loop_total] below); the fallback is never
    taken. *)
Definition fetch (url : str) (options : RequestOptions) (w : World)
  : Result RequestResult * World :=
  let retries := default 3%Z (retries options) in
  let r := build_request url options (pick_user_agent w) in
  let w := mkWorld (events w) (sent w) (S (drawn w)) in
  default (Throw [], w)
          (fetch_loop (Z.to_nat (retries + 1)) r 0 retries None w).

(** [{ ...options, method }] for an [options] that may be absent. *)
Definition with_method (options : option RequestOptions) (m : Method)
  : RequestOptions :=
  match options with
  | Some o => mkRequestOptions (Some m) (headers o) (body o) (timeout o) (retries o)
  | None => mkRequestOptions (Some m) None None None None
  end.

(** [get(url, options)] and [post(url, options)] *)
Definition get (url : str) (options : option RequestOptions) (w : World)
  : Result RequestResult * World :=
  fetch url (with_method options GET) w.

Definition post (url : str) (options : option RequestOptions) (w : World)
  : Result RequestResult * World :=
  fetch url (with_method options POST) w.

(** [destroy()] *)
Definition destroy (w : World) : World := record Closed w.

End WithEnv.

(** The events of [n] attempts that fail and are followed by a pause,
    the first of them being attempt number [attempt]. *)
Fixpoint failed_attempts (r : Request) (attempt : Z) (n : nat) : list Event :=
  match n with
  | 0 => []
  | S n' =>
      Requested r :: Slept (delay attempt)
      :: failed_attempts r (attempt + 1) n'
  end.

End Fetcher.

(** ** index.ts *)

(** [class Scraper] and the two convenience wrappers.  An [await] is the
    call itself; the request manager of a scraper is the one of
    [Fetcher], on the world that all scrapers share. *)
Module Scraper.
Import Js Parser Extractor.

(** [interface ScraperState]; an absent property is [None]. *)
Module State.
Record t := mk {
  url : option str;
  html : option str;
  doc : option DocumentWrapper;
  data : option Value;
  requestOptions : option Fetcher.RequestOptions;
  schema : option Schema
}.
End State.

(** [{}] *)
Definition empty : State.t := State.mk None None None None None None.

(** Whether a string that may be absent is truthy: present and not
    empty. *)
Definition truthy_string (s : option str) : bool :=
  match s with
  | Some (_ :: _) => true
  | _ => false
  end.

(** Whether a value is truthy. *)
Definition truthy (v : Value) : bool :=
  match v with
  | VNull => false
  | VBool b => b
  | VNumber n => negb (n =? 0)%Z
  | VString s => match s with [] => false | _ => true end
  | VArray _ | VObject _ => true
  end.

Definition truthy_value (v : option Value) : bool :=
  match v with
  | Some v => truthy v
  | None => false
  end.

(** [fetch(url, options)] *)
Definition fetch (url : str) (options : option Fetcher.RequestOptions)
    (st : State.t) : State.t :=
  State.mk (Some url) (State.html st) (State.doc st) (State.data st)
           options (State.schema st).

(** [html(html)] *)
Definition html (html : str) (st : State.t) : State.t :=
  State.mk (State.url st) (Some html) (State.doc st) (State.data st)
           (State.requestOptions st) (State.schema st).

Definition set_doc (doc : DocumentWrapper) (st : State.t) : State.t :=
  State.mk (State.url st) (State.html st) (Some doc) (State.data st)
           (State.requestOptions st) (State.schema st).

Definition set_data (data : Value) (st : State.t) : State.t :=
  State.mk (State.url st) (State.html st) (State.doc st) (Some data)
           (State.requestOptions st) (State.schema st).

(** [parse()] *)
Definition parse (st : State.t) : Result State.t :=
  if truthy_string (State.html st)
  then Ok (set_doc (parseHTML (default [] (State.html st))) st)
  else Throw (lit "No HTML to parse.").

(** [extract(schema)] *)
Definition extract (schema : Schema) (st : State.t) : State.t :=
  State.mk (State.url st) (State.html st) (State.doc st) (State.data st)
           (State.requestOptions st) (Some schema).

(** The result of [run()]: [ExtractResult<T> | DocumentQuery]. *)
Inductive Outcome :=
  | Data (data : Value)
  | Document (doc : DocumentWrapper).

Section WithEnv.
Variable env : Fetcher.Env.

(** The first statement of [run()]: the page is fetched when there is a
    URL and no markup. *)
Definition run_fetch (st : State.t) (w : Fetcher.World)
  : Result State.t * Fetcher.World :=
  if truthy_string (State.url st) && negb (truthy_string (State.html st)) then
    match Fetcher.get env (default [] (State.url st)) (State.requestOptions st) w with
    | (Ok res, w) => (Ok (html (Fetcher.text res) st), w)
    | (Throw m, w) => (Throw m, w)
    end
  else (Ok st, w).

(** The second statement: the markup is parsed when there is no document
    yet. *)
Definition run_parse (st : State.t) : State.t :=
  if truthy_string (State.html st) then
    match State.doc st with
    | None => set_doc (parseHTML (default [] (State.html st))) st
    | Some _ => st
    end
  else st.

(** The third statement: the schema is applied when there are no data
    yet. *)
Definition run_extract (st : State.t) : Result State.t :=
  match State.doc st, State.schema st with
  | Some doc, Some schema =>
      if truthy_value (State.data st) then Ok st
      else
        data <~ Extractor.extract doc schema ;;
        Ok (set_data data st)
  | _, _ => Ok st
  end.

(** The end of [run()]. *)
Definition run_result (st : State.t) : Result Outcome :=
  if truthy_value (State.data st) then Ok (Data (default VNull (State.data st)))
  else
    match State.doc st with
    | Some doc => Ok (Document doc)
    | None => Throw (lit "Scraper has neither document nor extracted data.")
    end.

(** [run()]: what it returns or throws, the state and the world it
    leaves. *)
Definition run (st : State.t) (w : Fetcher.World)
  : Result Outcome * State.t * Fetcher.World :=
  match run_fetch st w with
  | (Throw m, w) => (Throw m, st, w)
  | (Ok st, w) =>
      let st := run_parse st in
      match run_extract st with
      | Throw m => (Throw m, st, w)
      | Ok st => (run_result st, st, w)
      end
  end.

(** [getData()] and [getDoc()] *)
Definition getData (st : State.t) : option Value := State.data st.

Definition getDoc (st : State.t) : option DocumentWrapper := State.doc st.

(** [destroy()] *)
Definition destroy (st : State.t) (w : Fetcher.World)
  : State.t * Fetcher.World :=
  (empty, Fetcher.destroy w).

(** The body of both wrappers, on the scraper set up: [run()],
    [getData()], and [destroy()] whatever happens. *)
Definition run_and_get (scraper : State.t) (w : Fetcher.World)
  : Result Value * Fetcher.World :=
  let '(r, scraper, w) := run scraper w in
  let result :=
    _ <~ r ;;
    if truthy_value (getData scraper)
    then Ok (default VNull (getData scraper))
    else Throw (lit "No data extracted.") in
  (result, snd (destroy scraper w)).

(** [scrape(url, schema, options)] *)
Definition scrape (url : str) (schema : Schema)
    (options : option Fetcher.RequestOptions) (w : Fetcher.World)
  : Result Value * Fetcher.World :=
  run_and_get (extract schema (fetch url options empty)) w.

(** [scrapeHTML(html, schema)] *)
Definition scrapeHTML (markup : str) (schema : Schema) (w : Fetcher.World)
  : Result Value * Fetcher.World :=
  run_and_get (extract schema (html markup empty)) w.

End WithEnv.

End Scraper.

Module ScraperSpec.
Import Js Parser Extractor.

(** What is left of [run_and_get] once the markup is there. *)
Definition after_fetch (st : Scraper.State.t) (w : Fetcher.World)
  : Result Value * Fetcher.World :=
  let '(r, scraper, w) :=
    match Scraper.run_extract (Scraper.run_parse st) with
    | Ok st0 => (Scraper.run_result st0, st0, w)
    | Throw m => (Throw m, Scraper.run_parse st, w)
    end in
  (_ <~ r ;;
   if Scraper.truthy_value (Scraper.getData scraper)
   then Ok (default VNull (Scraper.getData scraper))
   else Throw (lit "No data extracted."),
   snd (Scraper.destroy scraper w)).

End ScraperSpec.

(** Proves that the strings of an explicit list differ from one
    another. *)
Ltac distinct_strings :=
  vm_compute;
  repeat (apply NoDup_cons_2;
          [ let Hin := fresh "Hin" in
            intros Hin;
            repeat (apply elem_of_cons in Hin as [Hin | Hin]; [discriminate Hin|]);
            inversion Hin
          | ]);
  apply NoDup_nil_2.

(** ** Well-formed tokens and trees *)

Module TokenSpec.
Import Js Tokenizer.

Definition is_empty {A} (l : list A) : bool :=
  match l with [] => true | _ :: _ => false end.

Definition absent {A} (o : option A) : bool :=
  match o with None => true | Some _ => false end.

(** The text holds no [<]. *)
Definition no_lt (s : str) : bool :=
  forallb (fun c => negb (ch_eqb c lt_char)) s.

(** A tag name as the tokenizer emits it: not empty, of the characters
    [a-z], [0-9], [-], [_] and [:]. *)
Definition lower_name (t : str) : bool :=
  negb (is_empty t)
  && forallb (fun c => is_name_char c && negb (is_upper c)) t.

(** The tags whose content the tokenizer skips. *)
Definition skipped (t : str) : bool :=
  str_eqb t (lit "script") || str_eqb t (lit "style").

Definition void (t : str) : bool := includes selfClosingTags t.

(** An attribute name as the tokenizer stores it: not empty, without
    white space, [=] and capital letters. *)
Definition attr_key (k : str) : bool :=
  negb (is_empty k)
  && forallb (fun c => is_attr_name_char c && negb (is_upper c)) k.

Fixpoint distinct_keys (l : list str) : bool :=
  match l with
  | [] => true
  | k :: l' => negb (includes l' k) && distinct_keys l'
  end.

(** The attributes of a token: absent, or a map that is not empty, with
    keys that differ from one another. *)
Definition wf_attrs (a : option JsMap.t) : bool :=
  match a with
  | None => true
  | Some m =>
      negb (is_empty m) && forallb (fun kv => attr_key (fst kv)) m
      && distinct_keys (JsMap.keys m)
  end.

(** A token as [tokenize] emits it.  A text token has a content that is
    not empty and holds no [<], and nothing else.  A close token has a tag
    that is not empty and has no capital letter.  An open or self-closing
    token has a lower-case tag name other than [script] and [style], and
    well-formed attributes; a void tag is always self-closing. *)
Definition wf_token (t : Token) : bool :=
  match type t with
  | TText =>
      match content t with
      | Some s => negb (is_empty s) && no_lt s
      | None => false
      end
      && absent (tag t) && absent (attrs t)
  | TClose =>
      match tag t with
      | Some n => negb (is_empty n) && negb (existsb is_upper n)
      | None => false
      end
      && absent (attrs t) && absent (content t)
  | TOpen =>
      match tag t with
      | Some n => lower_name n && negb (skipped n) && negb (void n)
      | None => false
      end
      && wf_attrs (attrs t) && absent (content t)
  | TSelfClosing =>
      match tag t with
      | Some n => lower_name n && negb (skipped n)
      | None => false
      end
      && wf_attrs (attrs t) && absent (content t)
  end.

(** The outcome of an iteration on a tail of the input, seen from the
    whole input: the index moves by the length of what is before the tail,
    and the tokens come after the ones found before. *)
Definition shift_step (n : nat) (tokens : list Token) (st : Step) : Step :=
  match st with
  | Break t => Break (tokens ++ t)
  | Continue i t => Continue (n + i) (tokens ++ t)
  end.

(** The string holds no occurrence of [pat]. *)
Definition free_of (pat s : str) : Prop := indexOf s pat 0 = None.

End TokenSpec.

Module TreeSpec.
Import Js Dom TokenSpec.

(** What a node is made of, without its place in the tree: the tag, the
    attributes and the text. *)
Definition summary (n : Node) : str * JsMap.t * str := (tag n, attrs n, text n).

Definition store_summary (o : Store.Node) : str * JsMap.t * str :=
  (Store.tag o, Store.attrs o, Store.text o).

(** The object that [buildTree] allocates for a token under the element
    [current], if it allocates one: a text leaf for a text token with a
    content that is not empty, an element for an open or self-closing
    token, and nothing for a close token. *)
Definition new_node (current : nat) (t : Tokenizer.Token) : option Store.Node :=
  match Tokenizer.type t with
  | Tokenizer.TText =>
      match Tokenizer.content t with
      | Some (c :: s) =>
          Some (Store.mkNode [] JsMap.empty [] (c :: s) (Some current))
      | _ => None
      end
  | Tokenizer.TOpen | Tokenizer.TSelfClosing =>
      Some (Store.mkNode (default [] (Tokenizer.tag t))
                         (default JsMap.empty (Tokenizer.attrs t))
                         [] [] (Some current))
  | Tokenizer.TClose => None
  end.

(** The tag, attributes and text of the node that a token creates. *)
Definition created (t : Tokenizer.Token) : option (str * JsMap.t * str) :=
  store_summary <$> new_node 0 t.

(** The text that a token adds to the document. *)
Definition token_text (t : Tokenizer.Token) : str :=
  match Tokenizer.type t, Tokenizer.content t with
  | Tokenizer.TText, Some s => s
  | _, _ => []
  end.

(** The attributes of an element of a parsed document: lower-case keys
    that differ from one another. *)
Definition wf_node_attrs (m : JsMap.t) : bool :=
  forallb (fun kv => attr_key (fst kv)) m && distinct_keys (JsMap.keys m).

(** A node of a parsed document below the root: a text leaf, with a text
    free of [<] and nothing else, or an element, with a lower-case tag
    name other than [script] and [style], no text of its own, and no
    children when its tag is void. *)
Definition wf_node (n : Node) : bool :=
  match text n with
  | _ :: _ =>
      no_lt (text n) && is_empty (tag n) && is_empty (attrs n)
      && is_empty (children n)
  | [] =>
      lower_name (tag n) && negb (skipped (tag n)) && wf_node_attrs (attrs n)
      && (negb (void (tag n)) || is_empty (children n))
  end.

(** The objects that [leafy] singles out have no children, and none of
    them is an open element. *)
Definition leaf_inv (leafy : str * JsMap.t * str -> bool) (st : State) : Prop :=
  let '(h, stack) := st in
  (forall a o, h !! a = Some o -> leafy (store_summary o) = true ->
               Store.children o = [])
  /\ (forall a, a ∈ stack ->
        exists o, h !! a = Some o /\ leafy (store_summary o) = false).

(** The [parent] of every object in a [children] array is the owner of
    the array, and the root has no parent. *)
Definition parent_inv (h : Store.t) : Prop :=
  (forall a o c, h !! a = Some o -> c ∈ Store.children o ->
                 exists oc, h !! c = Some oc /\ Store.parent oc = Some a)
  /\ (exists o, h !! root_addr = Some o /\ Store.parent o = None).

(** The nodes with a text of their own. *)
Definition has_text (p : str * JsMap.t * str) : bool := negb (is_empty (snd p)).

(** The nodes that a parsed document keeps without children: the text
    leaves and the elements with a void tag. *)
Definition text_or_void (p : str * JsMap.t * str) : bool :=
  has_text p || void (fst (fst p)).

End TreeSpec.

(** * Properties *)

Import Js Dom Query Spec.

(** ** Strings *)

Lemma str_eqb_eq a b : str_eqb a b = true <-> a = b.
Proof.
  revert b; induction a as [|x a IH]; intros [|y b]; simpl; try (split; congruence).
  rewrite andb_true_iff, IH. unfold ch_eqb. rewrite Ascii.eqb_eq.
  split; [intros [-> ->]; reflexivity | intros [= -> ->]; auto].
Qed.

Lemma str_eqb_refl a : str_eqb a a = true.
Proof. apply str_eqb_eq; reflexivity. Qed.

Lemma descendants_unfold n :
  descendants n = concat (map subnodes (children n)).
Proof. destruct n; reflexivity. Qed.

Lemma elem_of_descendants n m :
  m ∈ descendants n <-> exists c, c ∈ children n /\ m ∈ subnodes c.
Proof.
  rewrite descendants_unfold, !list_elem_of_In, in_concat.
  split.
  - intros (l & Hl & Hm). apply in_map_iff in Hl as (c & <- & Hc).
    exists c. rewrite !list_elem_of_In. auto.
  - intros (c & Hc & Hm). exists (subnodes c).
    rewrite !list_elem_of_In in *. split; auto. apply in_map; auto.
Qed.

Lemma descendants_trans n m k :
  m ∈ descendants n -> k ∈ descendants m -> k ∈ descendants n.
Proof.
  revert m k. induction n as [r t a ch tx p IH] using Node_ind.
  intros m k Hm Hk. apply elem_of_descendants in Hm as (c & Hc & Hm).
  apply elem_of_descendants. exists c. split; auto.
  simpl in Hc. unfold subnodes in *.
  apply elem_of_cons in Hm as [-> | Hm].
  - right; auto.
  - right. rewrite Forall_forall in IH. eapply IH; eauto.
Qed.

Lemma child_descendant n c : c ∈ children n -> c ∈ descendants n.
Proof.
  intros. apply elem_of_descendants. exists c. split; auto. left.
Qed.

Lemma NoDup_map_inj {A B} (f : A -> B) (l : list A) x y :
  NoDup (map f l) -> x ∈ l -> y ∈ l -> f x = f y -> x = y.
Proof.
  induction l as [|a l IH]; simpl; intros Hnd Hx Hy Hf.
  - inversion Hx.
  - apply NoDup_cons in Hnd as [Hna Hnd].
    apply elem_of_cons in Hx as [-> | Hx]; apply elem_of_cons in Hy as [-> | Hy]; auto.
    + exfalso. apply Hna. rewrite Hf. apply list_elem_of_In, in_map, list_elem_of_In; auto.
    + exfalso. apply Hna. rewrite <- Hf. apply list_elem_of_In, in_map, list_elem_of_In; auto.
Qed.

Lemma compileMatcher_agrees U part n c :
  NoDup (map ref U) -> n ∈ U -> caches_agree U c ->
  exists c', compileMatcher part n c = (selects part n, c') /\ caches_agree U c'.
Proof.
  intros Hnd Hn Hc. unfold compileMatcher, selects.
  destruct (startsWith part (lit "#")); [eauto|].
  destruct (startsWith part (lit ".")).
  { destruct (classListCache c !! ref n) as [l|] eqn:Hl.
    - destruct (Hc n Hn) as [Hcl _]. rewrite (Hcl l Hl). eauto.
    - eexists; split; [reflexivity|].
      intros m Hm. destruct (Hc m Hm) as [H1 H2]. split; simpl; auto.
      intros l. destruct (decide (ref n = ref m)) as [e|ne].
      + rewrite e, lookup_insert_eq. intros [= <-].
        rewrite (NoDup_map_inj ref U n m); auto.
      + rewrite lookup_insert_ne; auto. }
  destruct (match_attr_selector part) as [[name [expected|]]|]; [eauto|eauto|].
  destruct (tagLowerCache c !! ref n) as [[|x t]|] eqn:Ht.
  - eexists; split; [reflexivity|].
    intros m Hm. destruct (Hc m Hm) as [H1 H2]. split; simpl; auto.
    intros l. destruct (decide (ref n = ref m)) as [e|ne].
    + rewrite e, lookup_insert_eq. intros [= <-].
      rewrite (NoDup_map_inj ref U n m); auto.
    + rewrite lookup_insert_ne; auto.
  - destruct (Hc n Hn) as [_ Hcl]. rewrite <- (Hcl _ Ht). eauto.
  - eexists; split; [reflexivity|].
    intros m Hm. destruct (Hc m Hm) as [H1 H2]. split; simpl; auto.
    intros l. destruct (decide (ref n = ref m)) as [e|ne].
    + rewrite e, lookup_insert_eq. intros [= <-].
      rewrite (NoDup_map_inj ref U n m); auto.
    + rewrite lookup_insert_ne; auto.
Qed.

Lemma visit_child_eq (m : Matcher) isLast index next results stack c k b c1 :
  m k c = (b, c1) ->
  visit_child m isLast index next (results, stack, c) k
  = (results ++ (if b && isLast then [k] else []),
     (k, index) :: (if b && negb isLast then [(k, next)] else []) ++ stack, c1).
Proof.
  intros E. unfold visit_child. rewrite E.
  destruct b, isLast; simpl; rewrite ?app_nil_r; reflexivity.
Qed.

Lemma visit_children U part isLast index kids :
  NoDup (map ref U) -> (forall k, k ∈ kids -> k ∈ U) ->
  forall results stack c, caches_agree U c ->
  exists c',
    foldl (visit_child (compileMatcher part) isLast index (index + 1))
          (results, stack, c) kids
    = (results ++ (if isLast then List.filter (selects part) kids else []),
       concat (rev (map (entries part isLast index) kids)) ++ stack, c')
    /\ caches_agree U c'.
Proof.
  intros Hnd. induction kids as [|k kids IH]; intros Hk results stack c Hc.
  - exists c. simpl. destruct isLast; rewrite app_nil_r; auto.
  - destruct (compileMatcher_agrees U part k c Hnd) as (c1 & E1 & Hc1);
      [apply Hk; left | assumption |].
    assert (Hk' : forall k0, k0 ∈ kids -> k0 ∈ U) by (intros; apply Hk; right; auto).
    cbn [foldl]. rewrite (visit_child_eq _ _ _ _ _ _ _ _ _ _ E1).
    edestruct (IH Hk') as (c' & E & Hc'); [exact Hc1|].
    exists c'. split; [|exact Hc']. rewrite E.
    assert (X : forall A B C (a a' : A) (b b' : B) (c : C), a = a' -> b = b' -> (a, b, c) = (a', b', c))
      by (intros; subst; reflexivity).
    apply X.
    + rewrite <- app_assoc. f_equal.
      destruct isLast; [|rewrite andb_false_r; reflexivity].
      rewrite andb_true_r. simpl. destruct (selects part k); reflexivity.
    + cbn [map rev]. rewrite concat_app. simpl. rewrite app_nil_r, <- app_assoc.
      reflexivity.
Qed.

Lemma visits_pos n k : 1 <= visits n k.
Proof. destruct n, k; simpl; lia. Qed.

Lemma work_cost_app k s1 s2 : work_cost k (s1 ++ s2) = work_cost k s1 + work_cost k s2.
Proof.
  unfold work_cost. rewrite map_app. induction (map _ s1); simpl; lia.
Qed.

Lemma sum_list_cons x l : sum_list (x :: l) = x + sum_list l.
Proof. reflexivity. Qed.

Lemma work_cost_cons k e s :
  work_cost k (e :: s) = visits (fst e) (k - snd e) + work_cost k s.
Proof. reflexivity. Qed.

Lemma sum_list_app' l1 l2 : sum_list (l1 ++ l2) = sum_list l1 + sum_list l2.
Proof. induction l1; simpl; lia. Qed.

Lemma work_cost_children K part index node :
  index < K ->
  S (work_cost K (concat (rev (map (entries part (index + 1 =? K) index)
                                   (children node)))))
  <= visits node (K - index).
Proof.
  intros Hlt. destruct (K - index) as [|k'] eqn:HK; [lia|].
  destruct node as [r t a ch tx p]. cbn [visits children]. apply le_n_S.
  induction ch as [|c kids IH]; [unfold work_cost; simpl; lia|].
  cbn [map rev]. rewrite concat_app, work_cost_app. cbn [concat sum_list map].
  rewrite app_nil_r.
  etransitivity; [apply Nat.add_le_mono; [exact IH | reflexivity] |].
  rewrite Nat.add_comm. apply Nat.add_le_mono; [|reflexivity].
  unfold entries, work_cost. cbn [map sum_list fst snd]. rewrite HK.
  destruct (Nat.eqb_spec (index + 1) K) as [e|ne].
  - rewrite andb_false_r. simpl. lia.
  - destruct (selects part c); simpl; [|lia].
    replace (K - (index + 1)) with k' by lia.
    destruct k'; [lia|]. lia.
Qed.

Lemma concat_map_concat {A B} (f : A -> list B) (L : list (list A)) :
  concat (map f (concat L)) = concat (map (fun l => concat (map f l)) L).
Proof.
  induction L as [|l L IH]; simpl; auto.
  rewrite map_app, concat_app, IH. reflexivity.
Qed.

Lemma found_unfold parts node index :
  found parts node index =
  match parts !! index with
  | None => []
  | Some part =>
      let isLast := index + 1 =? length parts in
      (if isLast then List.filter (selects part) (children node) else [])
      ++ concat (rev (map (fun child =>
                             found parts child index
                             ++ (if selects part child && negb isLast
                                 then found parts child (index + 1)
                                 else []))
                          (children node)))
  end.
Proof. destruct node; reflexivity. Qed.

Lemma query_loop_found U parts :
  NoDup (map ref U) -> closed U ->
  forall fuel stack results c,
    (forall e, e ∈ stack -> fst e ∈ U) -> caches_agree U c ->
    work_cost (length parts) stack <= fuel ->
    exists c',
      query_loop fuel (map compileMatcher parts) stack results c
      = Some (results ++ concat (map (fun e => found parts (fst e) (snd e)) stack), c')
      /\ caches_agree U c'.
Proof.
  intros Hnd Hcl. induction fuel as [|fuel IH]; intros stack results c Hst Hc Hcost.
  - destruct stack as [|[node index] stack].
    + exists c. simpl. rewrite app_nil_r. auto.
    + exfalso. unfold work_cost in Hcost. simpl in Hcost.
      pose proof (visits_pos node (length parts - index)). lia.
  - destruct stack as [|[node index] stack].
    + exists c. simpl. rewrite app_nil_r. auto.
    + cbn [query_loop].
      assert (Hst' : forall e, e ∈ stack -> fst e ∈ U) by (intros; apply Hst; right; auto).
      assert (Hnode : node ∈ U) by (apply (Hst (node, index)); left).
      unfold work_cost in Hcost. cbn [map sum_list fst snd] in Hcost.
      fold (work_cost (length parts) stack) in Hcost.
      change (map compileMatcher parts) with (compileMatcher <$> parts).
      rewrite list_lookup_fmap. cbn [map concat fst snd].
      rewrite found_unfold.
      destruct (parts !! index) as [part|] eqn:Hp; cbn [fmap option_fmap option_map].
      * rewrite length_fmap.
        destruct (visit_children U part (index + 1 =? length parts) index (children node) Hnd
                    (fun k Hk => Hcl node k Hnode Hk) results stack c Hc) as (c1 & E & Hc1).
        rewrite E.
        assert (Hlt : index < length parts) by (eapply lookup_lt_Some; eauto).
        pose proof (work_cost_children (length parts) part index node Hlt) as Hw.
        edestruct (IH (concat (rev (map (entries part (index + 1 =? length parts) index) (children node))) ++ stack)) as (c' & E' & Hc'); [| exact Hc1 | | ].
        { intros e He. apply elem_of_app in He as [He | He]; [|auto].
          apply list_elem_of_In, in_concat in He as (l & Hl & He).
          apply in_rev, in_map_iff in Hl as (k & <- & Hk).
          assert (Hek : fst e = k).
          { unfold entries in He. destruct He as [<- | He]; [reflexivity|].
            destruct (_ && _); [destruct He as [<- | []]; reflexivity | destruct He]. }
          rewrite Hek. apply Hcl with node; auto. apply list_elem_of_In; auto. }
        { rewrite work_cost_app. unfold id in Hcost. lia. }
        exists c'. split; [|exact Hc']. rewrite E'. f_equal. f_equal.
        rewrite <- !app_assoc. f_equal. cbn zeta. f_equal.
        rewrite map_app, concat_app. f_equal.
        rewrite concat_map_concat, map_rev, map_map. f_equal. f_equal.
        apply map_ext. intros k. unfold entries. cbn [map concat fst snd].
        destruct (_ && _); cbn [map concat fst snd]; rewrite ?app_nil_r; reflexivity.
      * pose proof (visits_pos node (length parts - index)). unfold id in Hcost.
        destruct (IH stack results c Hst' Hc) as (c' & E' & Hc'); [lia|].
        exists c'. split; auto.
Qed.

Lemma closed_subnodes D : closed (subnodes D).
Proof.
  intros n c Hn Hc. unfold subnodes in *. right.
  apply elem_of_cons in Hn as [-> | Hn].
  - apply child_descendant; auto.
  - eapply descendants_trans; eauto. apply child_descendant; auto.
Qed.

Lemma no_caches_agree U : caches_agree U no_caches.
Proof. intros n _. split; intros x; simpl; rewrite lookup_empty; discriminate. Qed.

(** On caches that agree with the tree the loop answers with the visit
    order [found], and leaves caches that agree with the tree. *)
Lemma query_st_found D S c :
  unique_refs D -> caches_agree (subnodes D) c ->
  exists c',
    querySelectorAll_st D S c = Some (found (split_ws (trim S)) D 0, c')
    /\ caches_agree (subnodes D) c'.
Proof.
  intros Hu Hc. unfold querySelectorAll_st, compileSelector.
  destruct (query_loop_found (subnodes D) (split_ws (trim S)) Hu (closed_subnodes D)
              (visits D (length (map compileMatcher (split_ws (trim S)))))
              [(D, 0)] [] c) as (c' & E & Hc'); auto.
  - intros e He. apply list_elem_of_singleton in He as ->. left.
  - unfold work_cost. simpl. rewrite length_map, Nat.sub_0_r. lia.
  - exists c'. split; auto. rewrite E. simpl. rewrite app_nil_r. reflexivity.
Qed.

Lemma query_found D S :
  unique_refs D -> querySelectorAll D S = found (split_ws (trim S)) D 0.
Proof.
  intros Hu. unfold querySelectorAll.
  destruct (query_st_found D S no_caches Hu (no_caches_agree _)) as (c' & -> & _).
  reflexivity.
Qed.

Lemma found_descendants parts n :
  forall index m, m ∈ found parts n index -> m ∈ descendants n.
Proof.
  induction n as [r t a ch tx p IH] using Node_ind. intros index m.
  rewrite found_unfold. destruct (parts !! index) as [part|]; [|inversion 1].
  cbn zeta. cbn [children]. intros Hm.
  apply elem_of_app in Hm as [Hm | Hm].
  - destruct (_ =? _); [|inversion Hm].
    apply list_elem_of_In, filter_In in Hm as [Hm _].
    apply child_descendant. apply list_elem_of_In; auto.
  - apply list_elem_of_In, in_concat in Hm as (l & Hl & Hm).
    apply in_rev, in_map_iff in Hl as (k & <- & Hk).
    rewrite Forall_forall in IH. apply list_elem_of_In in Hk.
    apply elem_of_descendants. exists k. split; auto. right.
    apply in_app_or in Hm as [Hm | Hm].
    + apply (IH k Hk index). apply list_elem_of_In; auto.
    + destruct (_ && _); [|destruct Hm].
      apply (IH k Hk (index + 1)). apply list_elem_of_In; auto.
Qed.

Lemma sum_list_elem x l : x ∈ l -> x <= sum_list l.
Proof.
  induction 1; simpl; lia.
Qed.

Lemma descendant_size n :
  forall m, m ∈ descendants n -> node_size m < node_size n.
Proof.
  induction n as [r t a ch tx p IH] using Node_ind. intros m Hm.
  apply elem_of_descendants in Hm as (c & Hc & Hm). cbn [children] in Hc.
  assert (node_size c <= sum_list (map node_size ch)).
  { apply sum_list_elem. apply list_elem_of_In, in_map, list_elem_of_In; auto. }
  cbn [node_size children].
  apply elem_of_cons in Hm as [-> | Hm]; [lia|].
  rewrite Forall_forall in IH. specialize (IH c Hc m Hm). lia.
Qed.

Lemma not_own_descendant n : n ∉ descendants n.
Proof. intros H. apply descendant_size in H. lia. Qed.

(** The last fragment decides what is recorded. *)
Lemma found_selected parts n :
  forall index m, m ∈ found parts n index ->
  exists part, last parts = Some part /\ selects part m = true.
Proof.
  induction n as [r t a ch tx p IH] using Node_ind. intros index m.
  rewrite found_unfold. destruct (parts !! index) as [part|] eqn:Hp; [|inversion 1].
  cbn zeta. cbn [children]. intros Hm.
  apply elem_of_app in Hm as [Hm | Hm].
  - destruct (Nat.eqb_spec (index + 1) (length parts)) as [e|]; [|inversion Hm].
    apply list_elem_of_In, filter_In in Hm as [_ Hm].
    exists part. split; auto. rewrite last_lookup.
    replace (Init.Nat.pred (length parts)) with index by lia. exact Hp.
  - apply list_elem_of_In, in_concat in Hm as (l & Hl & Hm).
    apply in_rev, in_map_iff in Hl as (k & <- & Hk).
    rewrite Forall_forall in IH. apply list_elem_of_In in Hk.
    apply in_app_or in Hm as [Hm | Hm].
    + apply (IH k Hk index). apply list_elem_of_In; auto.
    + destruct (_ && _); [|destruct Hm].
      apply (IH k Hk (index + 1)). apply list_elem_of_In; auto.
Qed.

(** *** What holds whatever the matchers answer *)

Lemma visit_child_any (m : Matcher) isLast index next results stack c k :
  exists b c1,
    visit_child m isLast index next (results, stack, c) k
    = (results ++ (if b && isLast then [k] else []),
       (k, index) :: (if b && negb isLast then [(k, next)] else []) ++ stack, c1).
Proof.
  destruct (m k c) as [b c1] eqn:E. exists b, c1. apply visit_child_eq. exact E.
Qed.

Lemma visit_children_any (m : Matcher) K index kids :
  index < K ->
  forall results stack c,
  exists results' stack' c',
    foldl (visit_child m (index + 1 =? K) index (index + 1))
          (results, stack, c) kids = (results', stack', c')
    /\ (forall n, n ∈ results' -> n ∈ results \/ n ∈ kids)
    /\ (forall e, e ∈ stack' -> e ∈ stack \/ fst e ∈ kids)
    /\ work_cost K stack'
       <= work_cost K stack
          + sum_list (map (fun k => visits k (K - index)
                                    + match K - index - 1 with
                                      | 0 => 0
                                      | _ => visits k (K - index - 1)
                                      end) kids).
Proof.
  intros Hlt. induction kids as [|k kids IH]; intros results stack c.
  - exists results, stack, c. cbn. repeat split; auto. lia.
  - cbn [foldl].
    destruct (visit_child_any m (index + 1 =? K) index (index + 1) results stack c k)
      as (b & c1 & ->).
    destruct (IH (results ++ (if b && (index + 1 =? K) then [k] else []))
                 ((k, index) :: (if b && negb (index + 1 =? K)
                                 then [(k, index + 1)] else []) ++ stack) c1)
      as (r' & s' & c' & E & Hr & Hs & Hc).
    exists r', s', c'. split; [exact E|]. split; [|split].
    + intros n Hn. destruct (Hr n Hn) as [Hn' | Hn']; [|right; right; exact Hn'].
      apply elem_of_app in Hn' as [Hn' | Hn']; [left; exact Hn'|].
      destruct (b && (index + 1 =? K)); [|inversion Hn'].
      apply list_elem_of_singleton in Hn' as ->. right. left.
    + intros e He. destruct (Hs e He) as [He' | He']; [|right; right; exact He'].
      apply elem_of_cons in He' as [-> | He']; [right; left|].
      apply elem_of_app in He' as [He' | He']; [|left; exact He'].
      destruct (b && negb (index + 1 =? K)); [|inversion He'].
      apply list_elem_of_singleton in He' as ->. right. left.
    + etransitivity; [exact Hc|]. cbn [map]. rewrite sum_list_cons.
      rewrite work_cost_cons, work_cost_app. cbn [fst snd].
      assert (Hextra :
        work_cost K (if b && negb (index + 1 =? K) then [(k, index + 1)] else [])
        <= match K - index - 1 with 0 => 0 | _ => visits k (K - index - 1) end).
      { destruct (Nat.eqb_spec (index + 1) K) as [e|ne].
        - rewrite andb_false_r. unfold work_cost. cbn. lia.
        - destruct b; cbn [andb negb]; [|unfold work_cost; cbn; lia].
          rewrite work_cost_cons. cbn [fst snd]. unfold work_cost at 1. cbn [map sum_list].
          replace (K - (index + 1)) with (K - index - 1) by lia.
          destruct (K - index - 1) eqn:E1; lia. }
      lia.
Qed.

Lemma visits_unfold node k :
  visits node (S k)
  = S (sum_list (map (fun child =>
                        visits child (S k)
                        + match k with 0 => 0 | _ => visits child k end)
                     (children node))).
Proof. destruct node; reflexivity. Qed.

(** The loop ends within the iterations that [visits] counts, and
    records nothing but descendants of the root. *)
Lemma query_loop_any (ms : list Matcher) R :
  forall fuel stack results c,
    (forall e, e ∈ stack -> fst e ∈ subnodes R) ->
    (forall n, n ∈ results -> n ∈ descendants R) ->
    work_cost (length ms) stack <= fuel ->
    exists r c',
      query_loop fuel ms stack results c = Some (r, c')
      /\ forall n, n ∈ r -> n ∈ descendants R.
Proof.
  induction fuel as [|fuel IH]; intros stack results c Hst Hres Hcost.
  - destruct stack as [|[node index] stack]; [exists results, c; auto|].
    exfalso. rewrite work_cost_cons in Hcost. cbn [fst snd] in Hcost.
    pose proof (visits_pos node (length ms - index)). lia.
  - destruct stack as [|[node index] stack]; [exists results, c; auto|].
    cbn [query_loop].
    assert (Hst' : forall e, e ∈ stack -> fst e ∈ subnodes R)
      by (intros; apply Hst; right; auto).
    assert (Hnode : node ∈ subnodes R) by (apply (Hst (node, index)); left).
    rewrite work_cost_cons in Hcost. cbn [fst snd] in Hcost.
    pose proof (visits_pos node (length ms - index)) as Hpos.
    destruct (ms !! index) as [m|] eqn:Hm.
    + assert (Hlt : index < length ms) by (eapply lookup_lt_Some; eauto).
      destruct (visit_children_any m (length ms) index (children node) Hlt
                  results stack c) as (r' & s' & c' & E & Hr & Hs & Hc).
      rewrite E. apply IH.
      * intros e He. destruct (Hs e He) as [He' | He']; [auto|].
        apply (closed_subnodes R node); assumption.
      * intros n Hn. destruct (Hr n Hn) as [Hn' | Hn']; [auto|].
        pose proof (closed_subnodes R node n Hnode Hn') as Hsub.
        apply elem_of_cons in Hsub as [-> | Hsub]; [|exact Hsub].
        exfalso. apply child_descendant in Hn'.
        apply elem_of_cons in Hnode as [-> | Hnode].
        -- exact (not_own_descendant R Hn').
        -- apply (not_own_descendant R). eapply descendants_trans; eassumption.
      * destruct (length ms - index) as [|k] eqn:Ek; [lia|].
        rewrite visits_unfold in Hcost.
        replace (S k - 1) with k in Hc by lia. lia.
    + apply IH; auto. lia.
Qed.

(** [querySelectorAll] always returns: the fuel it runs the loop on is
    enough. *)
Lemma query_total R S c :
  exists r c',
    querySelectorAll_st R S c = Some (r, c')
    /\ forall n, n ∈ r -> n ∈ descendants R.
Proof.
  unfold querySelectorAll_st. apply query_loop_any.
  - intros e He. apply list_elem_of_singleton in He as ->. left.
  - intros n Hn. inversion Hn.
  - rewrite work_cost_cons. cbn [fst snd]. unfold work_cost. cbn [map sum_list].
    rewrite Nat.sub_0_r. lia.
Qed.

Lemma query_descendants R S n :
  n ∈ querySelectorAll R S -> n ∈ descendants R.
Proof.
  unfold querySelectorAll.
  destruct (query_total R S no_caches) as (r & c' & -> & Hr). apply Hr.
Qed.

(** ** The selector engine: claims C1, C2 and C3 *)

Lemma sublist_refs (l1 l2 : list Node) :
  sublist l1 l2 -> sublist (map ref l1) (map ref l2).
Proof. induction 1; simpl; constructor; auto. Qed.

(** C1, as the specification states it, fails: for the selector [a a] on
    three nested [a] elements the innermost element is recorded twice, so
    the result is no subsequence of the descendants, in which every node
    occurs once. *)
Lemma query_repeats_node_counterexample :
  let D := Parser.root (Parser.parseHTML (lit "<a><a><a></a></a></a>")) in
  let result := querySelectorAll D (lit "a a") in
  unique_refs D
  /\ map ref (descendants D) = [1; 2; 3]
  /\ map ref result = [3; 2; 3]
  /\ occurrences 3 (descendants D) < occurrences 3 result
  /\ ~ sublist result (descendants D).
Proof.
  cbv zeta. split; [|split; [|split; [|split]]].
  - by_evaluation.
  - vm_compute. reflexivity.
  - vm_compute. reflexivity.
  - vm_compute. lia.
  - intros H. apply sublist_refs in H. vm_compute in H. refute_sublist.
Qed.

(** C1, amended: every node of the result is a proper descendant of [D]
    (a node can be listed more than once); the call returns whatever the
    caches hold; and on a tree whose objects have identities of their own,
    a run on the caches that an earlier run has left returns the same
    sequence again. *)
Theorem query_results_descend_and_repeat (D : Node) (S : str) (c : Caches) :
  (forall n, n ∈ querySelectorAll D S -> n ∈ descendants D)
  /\ (exists r c', querySelectorAll_st D S c = Some (r, c'))
  /\ (unique_refs D -> caches_agree (subnodes D) c ->
      exists c1 c2,
        querySelectorAll_st D S c = Some (querySelectorAll D S, c1)
        /\ querySelectorAll_st D S c1 = Some (querySelectorAll D S, c2)).
Proof.
  split; [|split].
  - intros n. apply query_descendants.
  - destruct (query_total D S c) as (r & c' & E & _). eauto.
  - intros Hu Hc.
    destruct (query_st_found D S c Hu Hc) as (c1 & E1 & Hc1).
    destruct (query_st_found D S c1 Hu Hc1) as (c2 & E2 & _).
    exists c1, c2. rewrite query_found by assumption. auto.
Qed.

(** The hypotheses of the last part hold of a parsed document and fresh
    caches. *)
Lemma query_results_descend_and_repeat_witness :
  let D := Parser.root (Parser.parseHTML (lit "<ul><li class=x>1</li><li>2</li></ul>")) in
  exists c1 c2,
    querySelectorAll_st D (lit "ul .x") no_caches
    = Some (querySelectorAll D (lit "ul .x"), c1)
    /\ querySelectorAll_st D (lit "ul .x") c1
       = Some (querySelectorAll D (lit "ul .x"), c2).
Proof.
  cbv zeta. apply query_results_descend_and_repeat.
  - by_evaluation.
  - apply no_caches_agree.
Defined.

(** C2, as the specification states it, fails: the work stack hands out
    the last child first, so a match below a later sibling comes before a
    match below an earlier sibling. *)
Lemma query_not_document_order_counterexample :
  let R := Parser.root
             (Parser.parseHTML (lit "<div><span>A</span></div><span>B</span>")) in
  let result := querySelectorAll R (lit "span") in
  unique_refs R
  /\ map ref (descendants R) = [1; 2; 3; 4; 5]
  /\ map ref result = [4; 2]
  /\ map getText result = [lit "B"; lit "A"]
  /\ ~ sublist result (descendants R).
Proof.
  cbv zeta. split; [|split; [|split; [|split]]].
  - by_evaluation.
  - vm_compute. reflexivity.
  - vm_compute. reflexivity.
  - vm_compute. reflexivity.
  - intros H. apply sublist_refs in H. vm_compute in H. refute_sublist.
Qed.

(** C2, amended: the sequence holds proper descendants of [R] only, and
    never [R]; on a tree whose objects have identities of their own it is
    in the visit order of the engine ([found]), which is not the document
    order. *)
Theorem query_results_proper_descendants (R : Node) (S : str) :
  (forall n, n ∈ querySelectorAll R S -> n ∈ descendants R /\ n <> R)
  /\ (unique_refs R -> querySelectorAll R S = found (split_ws (trim S)) R 0).
Proof.
  split; [|apply query_found].
  intros n Hn. apply query_descendants in Hn. split; [assumption|].
  intros ->. exact (not_own_descendant R Hn).
Qed.

Lemma query_results_proper_descendants_witness :
  let R := Parser.root
             (Parser.parseHTML (lit "<div><span>A</span></div><span>B</span>")) in
  querySelectorAll R (lit "span") = found (split_ws (trim (lit "span"))) R 0.
Proof.
  cbv zeta. apply query_results_proper_descendants. by_evaluation.
Defined.

(** C3: the empty and the all-white-space selector split into one empty
    fragment, which compiles to the tag matcher for the empty tag name; the
    text leaves have that tag, so they are returned. *)
Theorem empty_selector_returns_text_leaves :
  let D := Parser.root (Parser.parseHTML (lit "<p>Hi</p>")) in
  split_ws (trim (lit "  ")) = [[]]
  /\ map getText (querySelectorAll D []) = [lit "Hi"]
  /\ map getText (querySelectorAll D (lit "  ")) = [lit "Hi"]
  /\ map tag (querySelectorAll D (lit "  ")) = [[]].
Proof. cbv zeta. repeat split; vm_compute; reflexivity. Qed.

(** The other half of C3 holds: when the last fragment selects no
    descendant, the result is empty, and the engine has no failure to
    report. *)
Lemma query_no_match_empty (D : Node) (S : str) :
  unique_refs D ->
  (forall part n, last (split_ws (trim S)) = Some part ->
                  n ∈ descendants D -> selects part n = false) ->
  querySelectorAll D S = [].
Proof.
  intros Hu Hno. rewrite query_found by assumption.
  destruct (found (split_ws (trim S)) D 0) as [|m l] eqn:E; [reflexivity|].
  assert (Hm : m ∈ found (split_ws (trim S)) D 0) by (rewrite E; left).
  destruct (found_selected _ _ _ _ Hm) as (part & Hl & Hs).
  apply found_descendants in Hm. rewrite (Hno part m Hl Hm) in Hs. discriminate.
Qed.

(** ** The extraction engine: claims C4, C5 and C9 *)

Import Parser Extractor ExtractorSpec.

Section ExtractorProperties.
Context {E D : Type} `{QueryElement E} `{DocumentQuery D E}.

Lemma map_result_ext {A B} (f g : A -> Result B) l :
  (forall x, f x = g x) -> map_result f l = map_result g l.
Proof. intros Hfg. induction l; simpl; [reflexivity|]. rewrite Hfg, IHl. reflexivity. Qed.

Lemma map_result_length {A B} (f : A -> Result B) l ys :
  map_result f l = Ok ys -> length ys = length l.
Proof.
  revert ys. induction l as [|x l IH]; simpl; intros ys.
  - intros [= <-]. reflexivity.
  - destruct (f x); simpl; [|discriminate].
    destruct (map_result f l); simpl; [|discriminate].
    intros [= <-]. simpl. f_equal. apply IH. reflexivity.
Qed.

(** The dispatch of [extractField]. *)
Lemma extractField_nested selector fields multiple limit (ctx : Ctx) :
  extractField (NestedField selector fields multiple limit) ctx
  = if default false multiple
    then extractMultipleNested selector fields limit ctx
    else extractSingleNested selector fields ctx.
Proof.
  cbn [extractField].
  assert (Hloop : forall el fs obj,
    (fix loop (fields0 : list (str * FieldSchema)) (obj0 : list (str * Value))
       : Result Value :=
       match fields0 with
       | [] => Ok (VObject obj0)
       | (key, sub) :: fields' =>
           v <~ extractField sub (OfElement el) ;;
           loop fields' (set_prop obj0 key v)
       end) fs obj = buildNestedObject_loop el fs obj).
  { intros el fs. induction fs as [|[k f] fs IH]; intros obj; [reflexivity|].
    cbn [buildNestedObject_loop]. destruct (extractField f (OfElement el)); simpl; auto. }
  destruct (default false multiple).
  - unfold extractMultipleNested.
    erewrite map_result_ext; [reflexivity|]. intros el. apply Hloop.
  - unfold extractSingleNested.
    destruct (ctx_selectOne ctx selector); [apply Hloop | reflexivity].
Qed.

Lemma limited_nil {A} (limit : option Z) : limited limit (@nil A) = [].
Proof.
  destruct limit as [l|]; [|reflexivity]. unfold limited, slice0.
  destruct (l =? 0)%Z; [reflexivity|]. destruct (l <? 0)%Z; apply take_nil.
Qed.

Lemma extractSingleSimple_raw selector attr_name dflt transform (ctx : Ctx) :
  extractSingleSimple selector attr_name dflt transform ctx
  = apply_transform transform (single_raw selector attr_name dflt ctx).
Proof. reflexivity. Qed.

Lemma extractMultipleSimple_raw selector attr_name dflt transform limit
    (ctx : Ctx) :
  extractMultipleSimple selector attr_name dflt transform limit ctx
  = apply_transform transform
      (VArray (multiple_raw selector attr_name dflt limit ctx)).
Proof.
  unfold extractMultipleSimple, multiple_raw.
  destruct (limited limit (ctx_select ctx selector)); reflexivity.
Qed.

(** A transform throws, and the field with it; it returns, and so does
    the field. *)
Lemma apply_transform_thrown fn raw :
  match thrown (fn raw) with
  | Some C =>
      apply_transform (Some fn) raw = Throw (lit "Transform failed: " ++ C)
  | None => exists v, apply_transform (Some fn) raw = Ok v
  end.
Proof.
  cbn [apply_transform]. unfold safeTransform, rethrow.
  destruct (fn raw); cbn [thrown]; eauto.
Qed.

Lemma map_result_first_some {A} (f : A -> Result Value) (g : A -> option str)
    (l : list A) :
  (forall x,
     match g x with
     | Some C => f x = Throw (lit "Transform failed: " ++ C)
     | None => exists v, f x = Ok v
     end) ->
  match first_some g l with
  | Some C => map_result f l = Throw (lit "Transform failed: " ++ C)
  | None => exists vs, map_result f l = Ok vs
  end.
Proof.
  intros Hfg. induction l as [|x l IH]; cbn [first_some map_result]; [eauto|].
  specialize (Hfg x). destruct (g x) as [C|].
  - rewrite Hfg. reflexivity.
  - destruct Hfg as [v ->]. cbn [bind].
    destruct (first_some g l) as [C|].
    + rewrite IH. reflexivity.
    + destruct IH as [vs ->]. cbn [bind]. eauto.
Qed.

(** [extractField] throws exactly when a transform throws on the value
    extracted for its field, and then [Transform failed: ] with the
    message of the first such transform. *)
Lemma extractField_failure field :
  forall ctx : Ctx,
    match failure field ctx with
    | Some C => extractField field ctx = Throw (lit "Transform failed: " ++ C)
    | None => exists v, extractField field ctx = Ok v
    end.
Proof.
  induction field as [s a d t|s a d t l|s fields mu l IH] using FieldSchema_ind;
    intros ctx.
  - cbn [extractField failure]. rewrite extractSingleSimple_raw.
    destruct t as [fn|]; [apply apply_transform_thrown | cbn; eauto].
  - cbn [extractField failure]. rewrite extractMultipleSimple_raw.
    destruct t as [fn|]; [apply apply_transform_thrown | cbn; eauto].
  - rewrite extractField_nested. cbn [failure].
    assert (Hin : forall el obj,
      match first_some (fun kf => failure (snd kf) (OfElement el)) fields with
      | Some C =>
          buildNestedObject_loop el fields obj
          = Throw (lit "Transform failed: " ++ C)
      | None => exists v, buildNestedObject_loop el fields obj = Ok v
      end).
    { intros el. clear mu l. induction fields as [|[k f] fs IHfs]; intros obj;
        cbn [first_some buildNestedObject_loop snd]; [eauto|].
      apply Forall_cons in IH as [Hf Hfs]. specialize (Hf (OfElement el)).
      cbn [snd] in Hf. destruct (failure f (OfElement el)) as [C|].
      - rewrite Hf. reflexivity.
      - destruct Hf as [v ->]. cbn [bind]. apply IHfs. exact Hfs. }
    destruct (default false mu).
    + unfold extractMultipleNested.
      pose proof (map_result_first_some (buildNestedObject fields)
                    (fun el => first_some
                                 (fun kf => failure (snd kf) (OfElement el)) fields)
                    (limited l (ctx_select ctx s))
                    (fun el => Hin el [])) as Hmap.
      destruct (first_some _ (limited l (ctx_select ctx s))) as [C|].
      * rewrite Hmap. reflexivity.
      * destruct Hmap as [vs ->]. cbn [bind]. eauto.
    + unfold extractSingleNested. destruct (ctx_selectOne ctx s) as [el|].
      * apply Hin.
      * eauto.
Qed.

Lemma extract_loop_failure doc schema :
  forall result,
    match first_failure doc schema with
    | Some (key, C) =>
        extract_loop doc schema result
        = Throw (field_prefix key ++ lit "Transform failed: " ++ C)
    | None => exists props, extract_loop doc schema result = Ok (VObject props)
    end.
Proof.
  induction schema as [|[k f] schema IH]; intros result;
    cbn [first_failure extract_loop]; [eauto|].
  pose proof (extractField_failure f (OfDocument doc)) as Hf.
  destruct (failure f (OfDocument doc)) as [C|].
  - rewrite Hf. reflexivity.
  - destruct Hf as [v ->]. cbn [rethrow bind]. apply IH.
Qed.

Lemma first_failure_split doc schema key C :
  first_failure doc schema = Some (key, C) ->
  exists pre field post,
    schema = pre ++ (key, field) :: post
    /\ Forall (fun kf => failure (snd kf) (OfDocument doc) = None) pre
    /\ failure field (OfDocument doc) = Some C.
Proof.
  induction schema as [|[k f] schema IH]; cbn [first_failure]; [discriminate|].
  destruct (failure f (OfDocument doc)) as [C'|] eqn:Ef.
  - intros [= -> ->]. exists [], f, schema. auto.
  - intros Hs. destruct (IH Hs) as (pre & field & post & -> & Hpre & Hf).
    exists ((k, f) :: pre), field, post. split; [reflexivity|].
    split; [constructor; assumption | assumption].
Qed.

(** C4, amended: the default sequence (or the empty one) stands in only
    when no match is left after the truncation; otherwise the outcome is
    the values of the matches without the nulls, empty or not.  A positive
    [limit] keeps the first [limit] matches. *)
Theorem multiple_simple_default_without_matches
    (selector : str) (attr_name : option str) (dflt : option (list Value))
    (transform : option TransformFn) (limit : option Z) (ctx : Ctx) :
  let els := ctx_select ctx selector in
  let kept := limited limit els in
  let values :=
    List.filter not_nullish
      (map (fun el =>
              of_nullable (extractValue el (default (lit "text") attr_name)))
           kept) in
  (forall l, limit = Some l -> (0 < l)%Z -> kept = take (Z.to_nat l) els)
  /\ (limit = None -> kept = els)
  /\ sublist kept els
  /\ extractMultipleSimple selector attr_name dflt transform limit ctx
     = apply_transform transform
         (VArray (match kept with
                  | [] => default [] dflt
                  | _ => values
                  end)).
Proof.
  cbv zeta. split; [|split; [|split]].
  - intros l -> Hl. unfold limited, slice0.
    destruct (Z.eqb_spec l 0); [lia|]. destruct (Z.ltb_spec l 0); [lia|]. reflexivity.
  - intros ->. reflexivity.
  - unfold limited, slice0. destruct limit as [l|]; [|reflexivity].
    destruct (l =? 0)%Z; [reflexivity|].
    destruct (l <? 0)%Z; apply sublist_take.
  - unfold extractMultipleSimple.
    destruct (limited limit (ctx_select ctx selector)); reflexivity.
Qed.

(** C5, amended: when a transform throws the message [C] on the value
    extracted for its field, and it is the first to do so, [extract]
    throws [Field "key": Transform failed: C], and nothing else comes
    back; [key] is the key, in the schema passed to [extract], of the field
    during whose extraction the transform ran: the field with the
    transform, or the field of the schema that it is nested in.  A
    selector that matches nothing raises nothing: the field yields its
    default, or [null], or the empty array, handed to its transform when
    it has one. *)
Theorem extract_error_names_top_level_field
    (doc : D) (schema : Schema) (key C : str) :
  first_failure doc schema = Some (key, C) ->
  extract doc schema
  = Throw (field_prefix key ++ lit "Transform failed: " ++ C)
  /\ (exists pre field post,
        schema = pre ++ (key, field) :: post
        /\ Forall (fun kf => failure (snd kf) (OfDocument doc) = None) pre
        /\ failure field (OfDocument doc) = Some C)
  /\ (forall (field : FieldSchema) (ctx : Ctx),
        unmatched field ctx ->
        extractField field ctx
        = match field with
          | SingleField _ _ dflt transform =>
              apply_transform transform (default VNull dflt)
          | MultipleField _ _ dflt transform _ =>
              apply_transform transform (VArray (default [] dflt))
          | NestedField _ _ multiple _ =>
              Ok (if default false multiple then VArray [] else VNull)
          end).
Proof.
  intros Hfirst. split; [|split].
  - unfold extract. pose proof (extract_loop_failure doc schema []) as Hl.
    rewrite Hfirst in Hl. exact Hl.
  - apply first_failure_split. exact Hfirst.
  - intros field ctx [Hnone Hone]. destruct field as [s a d t|s a d t l|s fs mu l];
      cbn [selector_of] in Hnone, Hone.
    + cbn [extractField]. rewrite extractSingleSimple_raw.
      unfold single_raw. rewrite Hone. reflexivity.
    + cbn [extractField]. rewrite extractMultipleSimple_raw.
      unfold multiple_raw. rewrite Hnone, limited_nil. reflexivity.
    + rewrite extractField_nested. destruct (default false mu).
      * unfold extractMultipleNested. rewrite Hnone, limited_nil. reflexivity.
      * unfold extractSingleNested. rewrite Hone. reflexivity.
Qed.

(** C9: a [limit] of [0] is falsy, so nothing is sliced: the field
    extracts from all the matches, as it does without a limit.  A
    non-nested field hands the values of all the matches, without the
    nulls, to its transform; a nested field builds the object of every
    match, and returns them all, one per match and in their order, unless
    a transform of the sub-schema throws. *)
Theorem limit_zero_keeps_all_matches
    (selector : str) (attr_name : option str) (dflt : option (list Value))
    (transform : option TransformFn) (fields : Schema) (ctx : Ctx) :
  let els := ctx_select ctx selector in
  let multiple := MultipleField selector attr_name dflt transform in
  let nested := NestedField selector fields (Some true) in
  limited (Some 0%Z) els = els
  /\ extractField (multiple (Some 0%Z)) ctx = extractField (multiple None) ctx
  /\ extractField (nested (Some 0%Z)) ctx = extractField (nested None) ctx
  /\ extractField (multiple (Some 0%Z)) ctx
     = apply_transform transform
         (VArray
            (match els with
             | [] => default [] dflt
             | _ =>
                 List.filter not_nullish
                   (map (fun el =>
                           of_nullable
                             (extractValue el (default (lit "text") attr_name)))
                        els)
             end))
  /\ extractField (nested (Some 0%Z)) ctx
     = (objs <~ map_result (buildNestedObject fields) els ;; Ok (VArray objs))
  /\ (failure (nested (Some 0%Z)) ctx = None ->
      exists objs,
        extractField (nested (Some 0%Z)) ctx = Ok (VArray objs)
        /\ length objs = length els
        /\ Forall2 (fun el obj => buildNestedObject fields el = Ok obj) els objs)
  /\ (forall objs,
        extractField (nested (Some 0%Z)) ctx = Ok (VArray objs) ->
        length objs = length els)
  /\ (transform = None ->
      els <> [] ->
      extractField (multiple (Some 0%Z)) ctx
      = Ok (VArray (List.filter not_nullish
                      (map (fun el =>
                              of_nullable
                                (extractValue el (default (lit "text") attr_name)))
                           els)))).
Proof.
  cbv zeta.
  assert (Hnested :
    extractField (NestedField selector fields (Some true) (Some 0%Z)) ctx
    = (objs <~ map_result (buildNestedObject fields) (ctx_select ctx selector) ;;
       Ok (VArray objs))).
  { rewrite extractField_nested. reflexivity. }
  split; [reflexivity|]. split; [reflexivity|]. split; [reflexivity|].
  split; [|split; [exact Hnested|split; [|split]]].
  - cbn [extractField]. rewrite extractMultipleSimple_raw. unfold multiple_raw.
    cbn [limited Z.eqb]. destruct (ctx_select ctx selector); reflexivity.
  - intros Hno.
    pose proof (extractField_failure
                  (NestedField selector fields (Some true) (Some 0%Z)) ctx) as Hf.
    rewrite Hno in Hf. destruct Hf as [v Hv]. rewrite Hnested in Hv.
    destruct (map_result _ _) as [objs|] eqn:Emr; cbn [bind] in Hv; [|discriminate].
    exists objs. rewrite Hnested. split; [reflexivity|].
    split; [eapply map_result_length; eassumption|].
    clear Hv Hno Hnested. revert objs Emr.
    induction (ctx_select ctx selector) as [|el els IH]; cbn [map_result];
      intros objs.
    + intros [= <-]. constructor.
    + destruct (buildNestedObject fields el) eqn:Eb; cbn [bind]; [|discriminate].
      destruct (map_result _ els); cbn [bind]; [|discriminate].
      intros [= <-]. constructor; [assumption | apply IH; reflexivity].
  - intros objs. rewrite Hnested.
    destruct (map_result _ _) as [ys|] eqn:Eq; simpl; [|discriminate].
    intros [= <-]. eapply map_result_length; eassumption.
  - intros -> Hne. cbn [extractField]. unfold extractMultipleSimple.
    cbn [limited Z.eqb apply_transform].
    destruct (ctx_select ctx selector); [congruence|reflexivity].
Qed.

End ExtractorProperties.

(** C4, as the specification states it, fails: both [li] elements match
    and neither has an [href], so the values are all null and the outcome
    is the empty sequence; the configured default is not used, because the
    code looks for it only when no element is left to read. *)
Lemma multiple_default_counterexample :
  let doc := parseHTML (lit "<ul><li>1</li><li>2</li></ul>") in
  let dflt := Some [VString (lit "none")] in
  extractMultipleSimple (lit "li") (Some (lit "href")) dflt None None
                        (OfDocument doc)
  = Ok (VArray [])
  /\ claimed_multiple_raw (lit "li") (Some (lit "href")) dflt None
                          (OfDocument doc)
     = [VString (lit "none")].
Proof. cbv zeta. split; vm_compute; reflexivity. Qed.

(** C5, as the specification states it, fails for a field of a
    sub-schema: the transform of [price] throws, and the message names
    [items], the field of the top-level schema it is nested in; [price]
    does not occur in it. *)
Lemma nested_transform_error_counterexample :
  let doc := parseHTML (lit "<ul><li><span>x</span></li></ul>") in
  let price :=
    SingleField (lit "span") None None (Some (fun _ => Throw (lit "bad"))) in
  let schema :=
    [(lit "items", NestedField (lit "li") [(lit "price", price)] None None)] in
  extract doc schema
  = Throw (field_prefix (lit "items") ++ lit "Transform failed: bad")
  /\ extract doc schema
     <> Throw (field_prefix (lit "price") ++ lit "Transform failed: bad")
  /\ indexOf (field_prefix (lit "items") ++ lit "Transform failed: bad")
             (lit "price") 0 = None.
Proof.
  cbv zeta. split; [|split].
  - vm_compute. reflexivity.
  - vm_compute. discriminate.
  - vm_compute. reflexivity.
Qed.

Lemma extract_error_names_top_level_field_witness :
  let doc := parseHTML (lit "<h1>T</h1><ul><li><span>x</span></li></ul>") in
  let title := SingleField (lit "h1") None None None in
  let price :=
    SingleField (lit "span") None None
      (Some (fun v => match v with
                      | VString _ => Throw (lit "bad")
                      | _ => Ok v
                      end)) in
  let items := NestedField (lit "li") [(lit "price", price)] None None in
  extract doc [(lit "title", title); (lit "items", items)]
  = Throw (field_prefix (lit "items") ++ lit "Transform failed: " ++ lit "bad").
Proof.
  cbv zeta. apply extract_error_names_top_level_field.
  vm_compute. reflexivity.
Defined.

Lemma limit_zero_keeps_all_matches_witness :
  let doc := parseHTML (lit "<ul><li><b>1</b></li><li><b>2</b></li><li>3</li></ul>") in
  let fields := [(lit "n", SingleField (lit "b") None None None)] in
  let nested := NestedField (lit "li") fields (Some true) (Some 0%Z) in
  length (ctx_select (OfDocument doc) (lit "li")) = 3
  /\ extractField nested (OfDocument doc)
     = Ok (VArray [VObject [(lit "n", VString (lit "1"))];
                   VObject [(lit "n", VString (lit "2"))];
                   VObject [(lit "n", VNull)]])
  /\ exists objs,
       extractField nested (OfDocument doc) = Ok (VArray objs)
       /\ length objs = length (ctx_select (OfDocument doc) (lit "li"))
       /\ Forall2 (fun el obj => buildNestedObject fields el = Ok obj)
                  (ctx_select (OfDocument doc) (lit "li")) objs.
Proof.
  cbv zeta. split; [vm_compute; reflexivity|]. split; [vm_compute; reflexivity|].
  apply (limit_zero_keeps_all_matches (lit "li") None None None
           [(lit "n", SingleField (lit "b") None None None)] (OfDocument _)).
  vm_compute. reflexivity.
Defined.

(** ** The tokenizer: claim C8 *)

Import Tokenizer.

Lemma find_from_ge pat s : forall k r, find_from pat s k = Some r -> k <= r.
Proof.
  induction s as [|c s IH]; intros k r; cbn [find_from].
  - destruct (startsWith [] pat); [intros [= E]; lia | discriminate].
  - destruct (startsWith (c :: s) pat); [intros [= E]; lia|].
    intros Hr. apply IH in Hr. lia.
Qed.

Lemma startsWith_nil pat : pat <> [] -> startsWith [] pat = false.
Proof. destruct pat; [congruence | reflexivity]. Qed.

Lemma indexOf_ge s pat from r :
  pat <> [] -> indexOf s pat from = Some r -> from <= r.
Proof.
  intros Hpat. unfold indexOf. intros Hr.
  destruct (Nat.le_gt_cases from (length s)) as [Hle | Hgt].
  - rewrite Nat.min_l in Hr by assumption. apply find_from_ge in Hr. exact Hr.
  - rewrite Nat.min_r in Hr by lia. rewrite drop_all in Hr. cbn [find_from] in Hr.
    rewrite startsWith_nil in Hr by assumption. discriminate.
Qed.

Lemma span_app p s : s = fst (span p s) ++ snd (span p s).
Proof.
  induction s as [|c s IH]; simpl; [reflexivity|].
  destruct (p c); [|reflexivity]. destruct (span p s). simpl in *. congruence.
Qed.

Lemma span_snd_length p s : length (snd (span p s)) <= length s.
Proof.
  rewrite (span_app p s) at 2. rewrite length_app. lia.
Qed.

Lemma trimStart_length s : length (trimStart s) <= length s.
Proof. induction s as [|c s IH]; simpl; [lia|]. destruct (is_space c); simpl; lia. Qed.

Lemma match_quoted_length q s v r :
  match_quoted q s = Some (v, r) -> length r <= length s.
Proof.
  unfold match_quoted. pose proof (span_snd_length (fun c => negb (ch_eqb c q)) s) as Hl.
  destruct (span _ s) as [a b]. simpl in Hl. destruct b; [discriminate|].
  intros [= _ <-]. simpl in Hl. lia.
Qed.

Lemma match_value_length s v r :
  match_value s = Some (v, r) -> length r <= length s.
Proof.
  unfold match_value. pose proof (trimStart_length s) as H1.
  destruct (trimStart s) as [|c s1]; [discriminate|].
  destruct (ch_eqb c equals); [|discriminate].
  pose proof (trimStart_length s1) as H2.
  destruct (trimStart s1) as [|d s2]; [discriminate|].
  simpl in H1, H2.
  destruct (ch_eqb d dquote); [intros Hq; apply match_quoted_length in Hq; lia|].
  destruct (ch_eqb d squote); [intros Hq; apply match_quoted_length in Hq; lia|].
  pose proof (span_snd_length is_unquoted_char (d :: s2)) as H3.
  destruct (span is_unquoted_char (d :: s2)) as [a b]. simpl in H3.
  destruct a; [discriminate|]. intros [= _ <-]. lia.
Qed.

(** A match of [attrRegex] is not empty. *)
Lemma exec_attr_shorter s name value rest :
  exec_attr s = Some (name, value, rest) -> length rest < length s.
Proof.
  unfold exec_attr.
  pose proof (span_snd_length (fun c => negb (is_attr_name_char c)) s) as H1.
  set (s0 := snd (span (fun c => negb (is_attr_name_char c)) s)) in *.
  pose proof (span_app is_attr_name_char s0) as H2.
  destruct (span is_attr_name_char s0) as [n r]. simpl in H2.
  destruct n as [|c n]; [discriminate|].
  assert (Hr : length r < length s).
  { apply (f_equal length) in H2. rewrite length_app in H2. simpl in H2. lia. }
  destruct (match_value r) as [[v r']|] eqn:Ev.
  - apply match_value_length in Ev. intros [= _ _ <-]. lia.
  - intros [= _ _ <-]. exact Hr.
Qed.

Lemma parseAttrs_loop_total fuel :
  forall s attrs, length s <= fuel -> is_Some (parseAttrs_loop fuel s attrs).
Proof.
  induction fuel as [|fuel IH]; intros s attrs Hs; simpl.
  - destruct (exec_attr s) as [[[n v] r]|] eqn:Ee; [|eauto].
    apply exec_attr_shorter in Ee. lia.
  - destruct (exec_attr s) as [[[n v] r]|] eqn:Ee; [|eauto].
    apply exec_attr_shorter in Ee. apply IH. lia.
Qed.

(** Every iteration that goes on moves the index forward. *)
Lemma tokenize_body_advances html i tokens i' tokens' :
  tokenize_body html i tokens = Continue i' tokens' -> i < i'.
Proof.
  unfold tokenize_body.
  destruct (indexOf html [lt_char] i) as [lt|] eqn:Hlt; [|discriminate].
  apply indexOf_ge in Hlt; [|discriminate].
  destruct (indexOf html [gt_char] (lt + 1)) as [gt|] eqn:Hgt; [|discriminate].
  apply indexOf_ge in Hgt; [|discriminate].
  unfold tokenize_tag.
  destruct (startsWith _ (lit "!--")).
  { destruct (indexOf html (lit "-->") (lt + 4)) as [e|] eqn:He.
    - apply indexOf_ge in He; [|discriminate]. intros [= <- _]. lia.
    - intros [= <- _]. lia. }
  destruct (startsWith _ (lit "!")); [intros [= <- _]; lia|].
  destruct (startsWith _ [slash]).
  { destruct (toLowerCase _); intros [= <- _]; lia. }
  destruct (match_name _) as [nm|]; [|intros [= <- _]; lia].
  destruct (_ || _).
  { destruct (indexOf html _ (gt + 1)) as [e|] eqn:He.
    - apply indexOf_ge in He; [|discriminate]. intros [= <- _]. lia.
    - intros [= <- _]. lia. }
  intros [= <- _]. lia.
Qed.

Lemma tokenize_loop_total html fuel :
  forall i tokens,
    length html - i <= fuel -> is_Some (tokenize_loop fuel html i tokens).
Proof.
  induction fuel as [|fuel IH]; intros i tokens Hf; simpl.
  - destruct (Nat.leb_spec (length html) i); [eauto | lia].
  - destruct (Nat.leb_spec (length html) i); [eauto|].
    destruct (tokenize_body html i tokens) as [t|i' t] eqn:Eb; [eauto|].
    apply tokenize_body_advances in Eb. apply IH. lia.
Qed.

(** With enough fuel the loop does not depend on the fuel. *)
Lemma tokenize_loop_fuel html fuel1 :
  forall fuel2 i tokens,
    length html - i <= fuel1 -> length html - i <= fuel2 ->
    tokenize_loop fuel1 html i tokens = tokenize_loop fuel2 html i tokens.
Proof.
  induction fuel1 as [|fuel1 IH]; intros fuel2 i tokens H1 H2.
  - destruct fuel2; simpl; destruct (Nat.leb_spec (length html) i); auto; lia.
  - destruct fuel2; simpl; destruct (Nat.leb_spec (length html) i); auto; try lia.
    destruct (tokenize_body html i tokens) as [t|i' t] eqn:Eb; [reflexivity|].
    apply tokenize_body_advances in Eb. apply IH; lia.
Qed.

(** C8: for every input the loop of [tokenize] ends within [length html]
    iterations and returns a token sequence, which is what [tokenize]
    returns; the loop over the attributes of a tag ends as well.  No
    operation of the tokenizer can fail: a malformed tag yields the tokens
    found so far, or is skipped. *)
Theorem tokenize_total (html : str) :
  (exists tokens,
     tokenize_loop (length html) html 0 [] = Some tokens
     /\ tokenize html = tokens)
  /\ (forall attrPart attrs,
        is_Some (parseAttrs_loop (length attrPart) attrPart attrs)).
Proof.
  split.
  - destruct (tokenize_loop_total html (length html) 0 []) as [tokens Ht]; [lia|].
    exists tokens. split; [assumption|]. unfold tokenize. rewrite Ht. reflexivity.
  - intros attrPart attrs. apply parseAttrs_loop_total. lia.
Qed.

(** Malformed inputs: an unterminated tag ends the scan, an empty tag name
    and an unterminated comment are skipped, and a [script] without its
    closing tag is skipped up to the end of its opening tag. *)
Example tokenize_malformed :
  tokenize (lit "a<b") = [text_token (lit "a")]
  /\ tokenize (lit "a<>b</>c")
     = [text_token (lit "a"); text_token (lit "b"); text_token (lit "c")]
  /\ tokenize (lit "x<!-- y>z") = [text_token (lit "x"); text_token (lit "z")]
  /\ tokenize (lit "<script>if (a<b) {}") = [text_token (lit "if (a")].
Proof. repeat split; vm_compute; reflexivity. Qed.

(** ** The tree builder: claim C7 *)

Import BuildSpec.

Lemma push_child_length h p c : length (Store.push_child h p c) = length h.
Proof.
  unfold Store.push_child. destruct (h !! p); [apply length_insert | reflexivity].
Qed.

Lemma push_child_lookup_ne h p c a :
  a <> p -> Store.push_child h p c !! a = h !! a.
Proof.
  intros Hne. unfold Store.push_child. destruct (h !! p); [|reflexivity].
  apply list_lookup_insert_ne. congruence.
Qed.

Lemma push_child_lookup_eq h p c o :
  h !! p = Some o ->
  Store.push_child h p c !! p
  = Some (Store.mkNode (Store.tag o) (Store.attrs o) (Store.children o ++ [c])
                       (Store.text o) (Store.parent o)).
Proof.
  intros Ho. unfold Store.push_child. rewrite Ho.
  apply list_lookup_insert_eq. eapply lookup_lt_Some; eassumption.
Qed.

(** What allocating a node and linking it under [p] does to the store. *)
Lemma link_lookup h p x a :
  p < length h ->
  Store.push_child (h ++ [x]) p (length h) !! a
  = if decide (a = p) then
      (fun o => Store.mkNode (Store.tag o) (Store.attrs o)
                             (Store.children o ++ [length h])
                             (Store.text o) (Store.parent o)) <$> h !! p
    else if decide (a = length h) then Some x
    else h !! a.
Proof.
  intros Hp. destruct (decide (a = p)) as [->|Hne].
  - destruct (lookup_lt_is_Some_2 h p Hp) as [o Ho]. rewrite Ho. simpl.
    apply push_child_lookup_eq. apply lookup_app_l_Some. exact Ho.
  - rewrite push_child_lookup_ne by assumption.
    destruct (decide (a = length h)) as [->|Hna].
    + rewrite lookup_app_r by lia. rewrite Nat.sub_diag. reflexivity.
    + destruct (Nat.lt_ge_cases a (length h)).
      * apply lookup_app_l; assumption.
      * rewrite !lookup_ge_None_2; [reflexivity | lia |].
        rewrite length_app. simpl. lia.
Qed.

Lemma link_wf h p x :
  wf_store h -> p < length h -> Store.children x = [] ->
  wf_store (Store.push_child (h ++ [x]) p (length h)).
Proof.
  intros Hwf Hp Hx a o c. rewrite link_lookup by assumption.
  rewrite push_child_length, length_app. simpl.
  destruct (decide (a = p)) as [->|Hne].
  - destruct (h !! p) as [op|] eqn:Hop; [|discriminate]. simpl.
    intros [= <-]. simpl. intros Hc. apply elem_of_app in Hc as [Hc | Hc].
    + pose proof (Hwf p op c Hop Hc). lia.
    + apply list_elem_of_singleton in Hc as ->. lia.
  - destruct (decide (a = length h)) as [->|Hna].
    + intros [= <-]. rewrite Hx. inversion 1.
    + intros Ho Hc. pose proof (Hwf a o c Ho Hc). lia.
Qed.

Lemma attached_top_lt h stack :
  wf_store h -> attached h stack ->
  match stack with
  | top :: below => Forall (fun p => p < top) below
  | [] => True
  end.
Proof.
  intros Hwf. induction stack as [|c below IH]; [auto|].
  intros Hat. destruct below as [|p rest]; [constructor|].
  destruct Hat as ((o & Ho & Hl) & _ & Hat).
  specialize (IH Hat). simpl in IH.
  assert (Hpc : p < c).
  { apply (Hwf p o c Ho). apply last_Some in Hl as (l' & ->).
    apply elem_of_app. right. left. }
  constructor; [assumption|].
  eapply Forall_impl; [exact IH|]. simpl. intros; lia.
Qed.

(** Linking a new child under the top of the stack leaves the path of
    open elements as it is. *)
Lemma link_attached h stack top below x :
  wf_store h -> stack = top :: below -> top < length h ->
  attached h stack ->
  attached (Store.push_child (h ++ [x]) top (length h)) stack.
Proof.
  intros Hwf -> Htop Hat.
  pose proof (attached_top_lt h _ Hwf Hat) as Hlt. simpl in Hlt.
  assert (Hgen : forall st, Forall (fun p => p < top) st -> attached h st ->
                 attached (Store.push_child (h ++ [x]) top (length h)) st).
  { induction st as [|c st IH]; [auto|]. intros Hst Hs.
    apply Forall_cons in Hst as [Hc Hst].
    destruct st as [|p rest]; [exact Hs|].
    destruct Hs as ((o & Ho & Hl) & (oc & Hoc & Hpar) & Hs).
    pose proof (Forall_inv Hst) as Hp. simpl in Hp.
    split; [|split].
    - exists o. split; [|assumption]. rewrite link_lookup by assumption.
      destruct (decide (p = top)); [lia|].
      destruct (decide (p = length h)); [lia|]. assumption.
    - exists oc. split; [|assumption]. rewrite link_lookup by assumption.
      destruct (decide (c = top)); [lia|].
      destruct (decide (c = length h)); [lia|]. assumption.
    - apply IH; assumption. }
  destruct below as [|p rest]; [exact Hat|].
  destruct Hat as ((o & Ho & Hl) & (oc & Hoc & Hpar) & Hs).
  pose proof (Forall_inv Hlt) as Hp. simpl in Hp.
  split; [|split].
  - exists o. split; [|assumption]. rewrite link_lookup by assumption.
    destruct (decide (p = top)); [lia|].
    destruct (decide (p = length h)); [lia|]. assumption.
  - rewrite link_lookup by assumption. rewrite decide_True by reflexivity.
    rewrite Hoc. simpl. eexists. split; [reflexivity|]. simpl. assumption.
  - apply Hgen; assumption.
Qed.

Lemma step_inv st token : build_inv st -> build_inv (step st token).
Proof.
  destruct st as [h stack]. intros (Hwf & Hst & Hat).
  unfold step. destruct stack as [|current below]; [destruct Hat|].
  pose proof (Forall_inv Hst) as Hcur. simpl in Hcur.
  assert (Hlink : forall x, Store.children x = [] ->
            Store.parent x = Some current ->
            build_inv (Store.push_child (h ++ [x]) current (length h),
                       current :: below)
            /\ build_inv (Store.push_child (h ++ [x]) current (length h),
                          length h :: current :: below)).
  { intros x Hx Hpx.
    assert (Hst' : Forall (fun a => a < length (Store.push_child (h ++ [x]) current (length h)))
                          (current :: below)).
    { rewrite push_child_length, length_app. simpl.
      eapply Forall_impl; [exact Hst|]. simpl. intros; lia. }
    pose proof (link_attached h _ current below x Hwf eq_refl Hcur Hat) as Hat'.
    split; (split; [apply link_wf; assumption|]); split; auto.
    - constructor; [|assumption]. rewrite push_child_length, length_app. simpl. lia.
    - split; [|split; [|exact Hat']].
      + rewrite link_lookup, decide_True by auto.
        destruct (lookup_lt_is_Some_2 h current Hcur) as [o Ho]. rewrite Ho. simpl.
        eexists. split; [reflexivity|]. simpl. apply last_snoc.
      + rewrite link_lookup by assumption.
        rewrite decide_False by lia. rewrite decide_True by reflexivity.
        eexists. split; [reflexivity|]. assumption. }
  assert (Hsame : build_inv (h, current :: below))
    by exact (conj Hwf (conj Hst Hat)).
  destruct (Tokenizer.type token) eqn:Hty.
  - (* open *)
    unfold Store.alloc. apply Hlink; reflexivity.
  - (* close *)
    destruct (_ && _) eqn:Hc; [|exact Hsame].
    apply andb_true_iff in Hc as [Hlen _]. apply Nat.ltb_lt in Hlen.
    destruct below as [|p rest]; [simpl in Hlen; lia|].
    simpl. split; [assumption|]. split; [eapply Forall_inv_tail; eassumption|].
    destruct Hat as (_ & _ & Hat). exact Hat.
  - (* text *)
    destruct (Tokenizer.content token) as [[|ch content]|];
      [exact Hsame | | exact Hsame].
    unfold Store.alloc. apply Hlink; reflexivity.
  - (* self-closing *)
    unfold Store.alloc. apply Hlink; reflexivity.
Qed.

Lemma init_inv : build_inv init.
Proof.
  split; [|split].
  - intros a o c Ho Hc. destruct a; simpl in Ho; [|discriminate].
    injection Ho as <-. inversion Hc.
  - repeat constructor.
  - reflexivity.
Qed.

Lemma run_inv tokens : forall st, build_inv st -> build_inv (run tokens st).
Proof.
  unfold run. induction tokens as [|t tokens IH]; intros st Hst; simpl; [assumption|].
  apply IH. apply step_inv. assumption.
Qed.

Lemma freeze_Some fuel h a n :
  freeze fuel h a = Some n ->
  exists fuel' o,
    fuel = S fuel' /\ h !! a = Some o
    /\ Forall2 (fun c k => freeze fuel' h c = Some k) (Store.children o) (children n)
    /\ n = mkNode a (Store.tag o) (Store.attrs o) (children n) (Store.text o)
                  (Store.parent o).
Proof.
  destruct fuel as [|fuel']; [discriminate|]. cbn [freeze].
  destruct (h !! a) as [o|]; [|discriminate]. cbn [mbind option_bind].
  destruct (mapM (freeze fuel' h) (Store.children o)) as [kids|] eqn:Ek; [|discriminate].
  cbn [mbind option_bind]. intros [= <-]. exists fuel', o.
  apply mapM_Some in Ek. auto.
Qed.

Lemma freeze_total h :
  wf_store h ->
  forall fuel a, a < length h -> length h - a <= fuel ->
                 is_Some (freeze fuel h a).
Proof.
  intros Hwf. induction fuel as [|fuel IH]; intros a Ha Hf; [lia|].
  cbn [freeze]. destruct (lookup_lt_is_Some_2 h a Ha) as [o Ho]. rewrite Ho.
  cbn [mbind option_bind].
  assert (Hk : is_Some (mapM (freeze fuel h) (Store.children o))).
  { apply mapM_is_Some. apply Forall_forall. intros c Hc.
    pose proof (Hwf a o c Ho Hc). apply IH; lia. }
  destruct Hk as [kids ->]. cbn [mbind option_bind]. eauto.
Qed.

(** The frozen tree holds every object that is reachable in the store. *)
Lemma freeze_reachable h a b :
  reachable h a b ->
  forall fuel n, freeze fuel h a = Some n ->
  exists m fuel', m ∈ subnodes n /\ freeze fuel' h b = Some m.
Proof.
  induction 1 as [|b c Hab IH (o & Ho & Hc)]; intros fuel n Hn.
  - exists n, fuel. split; [left | assumption].
  - destruct (IH fuel n Hn) as (m & fuel' & Hm & Hfm).
    destruct (freeze_Some _ _ _ _ Hfm) as (f & o' & -> & Ho' & Hkids & _).
    rewrite Ho in Ho'. injection Ho' as <-.
    apply list_elem_of_lookup in Hc as [i Hi].
    destruct (Forall2_lookup_l _ _ _ _ _ Hkids Hi) as (k & Hk & Hfk).
    exists k, f. split; [|assumption].
    apply (closed_subnodes n m k Hm). eapply list_elem_of_lookup_2; eassumption.
Qed.

Lemma freeze_ref fuel h a n : freeze fuel h a = Some n -> ref n = a.
Proof.
  intros Hn. destruct (freeze_Some _ _ _ _ Hn) as (f & o & _ & _ & _ & ->).
  reflexivity.
Qed.

Lemma attached_reachable h stack :
  attached h stack -> forall a, a ∈ stack -> reachable h root_addr a.
Proof.
  induction stack as [|c below IH]; [intros []|].
  intros Hat a Ha. destruct below as [|p rest].
  - apply list_elem_of_singleton in Ha as ->. simpl in Hat. subst. constructor.
  - destruct Hat as ((o & Ho & Hl) & _ & Hat).
    apply elem_of_cons in Ha as [-> | Ha]; [|apply IH; assumption].
    apply reach_child with p; [apply IH; [assumption | left]|].
    exists o. split; [assumption|].
    apply last_Some in Hl as (l' & ->). apply elem_of_app. right. left.
Qed.

(** [buildTree] returns the frozen root: the depth [length h] is
    enough. *)
Lemma buildTree_total tokens :
  let '(h, _) := run tokens init in
  freeze (length h) h root_addr = Some (buildTree tokens).
Proof.
  unfold buildTree. pose proof (run_inv tokens init init_inv) as Hinv.
  destruct (run tokens init) as [h stack]. destruct Hinv as (Hwf & Hst & Hat).
  assert (Hroot : root_addr < length h).
  { pose proof (attached_reachable h stack Hat) as Hr.
    destruct stack as [|c below]; [destruct Hat|].
    apply Forall_inv in Hst.
    pose proof (attached_top_lt h _ Hwf Hat) as Hlt. simpl in Hlt.
    unfold root_addr. lia. }
  destruct (freeze_total h Hwf (length h) root_addr Hroot) as [n Hn]; [lia|].
  rewrite Hn. reflexivity.
Qed.

Lemma close_matches_iff h stack tag :
  (1 <? length stack) && top_tag_is h stack tag = true
  <-> close_matches h stack tag.
Proof.
  unfold close_matches, top_tag_is. rewrite andb_true_iff, Nat.ltb_lt.
  split.
  - intros [Hlen Htop]. split; [assumption|].
    destruct stack as [|top below]; [discriminate|].
    destruct tag as [t|]; [|discriminate].
    destruct (h !! top) as [o|] eqn:Ho; [|discriminate].
    apply str_eqb_eq in Htop. exists top, o. subst. auto.
  - intros [Hlen (top & o & Hhd & Ho & ->)]. split; [assumption|].
    destruct stack as [|top' below]; [discriminate|].
    injection Hhd as ->. rewrite Ho. apply str_eqb_refl.
Qed.

(** C7: a close token pops the stack exactly when the stack holds more
    than the root and the tag of its top is the token's tag; otherwise the
    token changes neither the stack nor the store.  After any token
    sequence the open elements are a path from the root (each the last
    child of the one below), and all of them are nodes of the tree that
    [buildTree] returns. *)
Theorem close_pops_only_matching_top
    (h : Store.t) (stack : list nat) (tag : option str)
    (attrs : option JsMap.t) (content : option str)
    (tokens : list Tokenizer.Token) :
  let close := Tokenizer.mkToken Tokenizer.TClose tag attrs content in
  (close_matches h stack tag ->
   step (h, stack) close = (h, tail stack) /\ tail stack <> stack)
  /\ (~ close_matches h stack tag -> step (h, stack) close = (h, stack))
  /\ (let '(h', stack') := run tokens init in
      attached h' stack'
      /\ forall a, a ∈ stack' ->
           exists n, n ∈ subnodes (buildTree tokens) /\ ref n = a).
Proof.
  cbv zeta. split; [|split].
  - intros Hm. pose proof (proj2 (close_matches_iff h stack tag) Hm) as Hb.
    destruct Hm as [Hlen _]. unfold step.
    destruct stack as [|top below]; [simpl in Hlen; lia|].
    cbn [Tokenizer.type Tokenizer.tag]. rewrite Hb. split; [reflexivity|].
    simpl. intros Heq. apply (f_equal length) in Heq. simpl in Heq. lia.
  - intros Hm. unfold step. destruct stack as [|top below]; [reflexivity|].
    cbn [Tokenizer.type Tokenizer.tag].
    destruct (_ && _) eqn:Hb; [|reflexivity].
    exfalso. apply Hm. apply close_matches_iff. exact Hb.
  - pose proof (buildTree_total tokens) as Hfz.
    pose proof (run_inv tokens init init_inv) as Hinv.
    destruct (run tokens init) as [h' stack']. destruct Hinv as (Hwf & Hst & Hat).
    split; [assumption|]. intros a Ha.
    pose proof (attached_reachable h' stack' Hat a Ha) as Hr.
    destruct (freeze_reachable h' root_addr a Hr _ _ Hfz) as (m & f & Hm & Hfm).
    exists m. split; [assumption|]. eapply freeze_ref; eassumption.
Qed.

(** ** Attribute names: claim C10 *)

Lemma lower_char_not_upper c : is_upper (lower_char c) = false.
Proof. destruct c as [[] [] [] [] [] [] [] []]; reflexivity. Qed.

Lemma toLowerCase_not_upper s : has_upper (toLowerCase s) = false.
Proof.
  induction s as [|c s IH]; [reflexivity|].
  simpl. rewrite lower_char_not_upper. exact IH.
Qed.

Lemma set_lower_keys m k v :
  lower_keys m -> has_upper k = false -> lower_keys (JsMap.set m k v).
Proof.
  unfold lower_keys. induction m as [|[k' v'] m IH]; simpl; intros Hm Hk.
  - repeat constructor. assumption.
  - apply Forall_cons in Hm as [Hk' Hm].
    destruct (str_eqb k' k); simpl; constructor; auto.
Qed.

Lemma parseAttrs_loop_lower fuel :
  forall s m m', parseAttrs_loop fuel s m = Some m' ->
                 lower_keys m -> lower_keys m'.
Proof.
  induction fuel as [|fuel IH]; intros s m m'; simpl;
    destruct (exec_attr s) as [[[n v] r]|]; try discriminate;
    try (intros [= <-]; auto; fail).
  intros Hm' Hm. eapply IH; [eassumption|].
  apply set_lower_keys; [assumption | apply toLowerCase_not_upper].
Qed.

Lemma parseAttrs_lower attrPart : lower_keys (parseAttrs attrPart).
Proof.
  unfold parseAttrs. destruct attrPart as [|c s]; [constructor|].
  destruct (parseAttrs_loop _ _ _) as [m|] eqn:Em; simpl; [|constructor].
  eapply parseAttrs_loop_lower; [eassumption | constructor].
Qed.

Lemma push_text_lower tokens text :
  Forall token_lower tokens -> Forall token_lower (push_text tokens text).
Proof.
  intros Ht. unfold push_text, push. destruct text; [assumption|].
  apply Forall_app. split; [assumption|]. repeat constructor. intros m [=].
Qed.

Lemma tokenize_body_lower html i tokens :
  Forall token_lower tokens ->
  match tokenize_body html i tokens with
  | Break tokens' | Continue _ tokens' => Forall token_lower tokens'
  end.
Proof.
  intros Ht. unfold tokenize_body.
  destruct (indexOf html [lt_char] i) as [lt|]; [|apply push_text_lower; assumption].
  assert (Ht' : Forall token_lower
                  (if i <? lt then push_text tokens (slice html i lt) else tokens)).
  { destruct (i <? lt); [apply push_text_lower|]; assumption. }
  destruct (indexOf html [gt_char] (lt + 1)) as [gt|]; [|assumption].
  unfold tokenize_tag.
  destruct (startsWith _ (lit "!--")).
  { destruct (indexOf html (lit "-->") (lt + 4)); assumption. }
  destruct (startsWith _ (lit "!")); [assumption|].
  destruct (startsWith _ [slash]).
  { destruct (toLowerCase _); [assumption|].
    apply Forall_app. split; [assumption|]. repeat constructor. intros m [=]. }
  destruct (match_name _) as [nm|]; [|assumption].
  destruct (_ || _).
  { destruct (indexOf html _ (gt + 1)); assumption. }
  apply Forall_app. split; [assumption|]. repeat constructor.
  intros m. unfold tag_token. cbn [Tokenizer.attrs].
  destruct (JsMap.size _); [discriminate|]. intros [= <-].
  apply parseAttrs_lower.
Qed.

Lemma tokenize_loop_lower html fuel :
  forall i tokens tokens',
    tokenize_loop fuel html i tokens = Some tokens' ->
    Forall token_lower tokens -> Forall token_lower tokens'.
Proof.
  induction fuel as [|fuel IH]; intros i tokens tokens'; simpl;
    destruct (length html <=? i); try discriminate;
    try (intros [= <-]; auto; fail).
  pose proof (tokenize_body_lower html i tokens) as Hb.
  destruct (tokenize_body html i tokens) as [t|i' t].
  - intros [= <-]. assumption.
  - intros Hl Ht. eapply IH; eauto.
Qed.

Lemma tokenize_lower html : Forall token_lower (tokenize html).
Proof.
  unfold tokenize.
  destruct (tokenize_loop _ _ _ _) as [t|] eqn:Et; simpl; [|constructor].
  eapply tokenize_loop_lower; [eassumption | constructor].
Qed.

Lemma push_child_lower h p c : store_lower h -> store_lower (Store.push_child h p c).
Proof.
  intros Hh. unfold Store.push_child. destruct (h !! p) as [o|] eqn:Ho; [|assumption].
  apply Forall_insert; [assumption|]. simpl.
  eapply (proj1 (Forall_lookup _ _) Hh). eassumption.
Qed.

Lemma step_lower st token :
  token_lower token -> store_lower (fst st) -> store_lower (fst (step st token)).
Proof.
  destruct st as [h stack]. intros Htok Hh. unfold step.
  destruct stack as [|current below]; [assumption|].
  assert (Hnew : forall x, lower_keys (Store.attrs x) ->
            store_lower (Store.push_child (h ++ [x]) current (length h))).
  { intros x Hx. apply push_child_lower. apply Forall_app. split; [assumption|].
    repeat constructor. assumption. }
  assert (Hop : lower_keys (default JsMap.empty (Tokenizer.attrs token))).
  { destruct (Tokenizer.attrs token) as [m|] eqn:Em; [apply Htok; assumption | constructor]. }
  destruct (Tokenizer.type token); simpl.
  - apply Hnew. exact Hop.
  - destruct (_ && _); assumption.
  - destruct (Tokenizer.content token) as [[|ch content]|]; try assumption.
    simpl. apply Hnew. constructor.
  - apply Hnew. exact Hop.
Qed.

Lemma run_lower tokens :
  forall st, Forall token_lower tokens -> store_lower (fst st) ->
             store_lower (fst (run tokens st)).
Proof.
  unfold run. induction tokens as [|t tokens IH]; intros st Ht Hst; simpl; [assumption|].
  apply Forall_cons in Ht as [Ht Hts]. apply IH; [assumption|].
  apply step_lower; assumption.
Qed.

(** A node of the frozen tree has the attributes of an object of the
    store. *)
Lemma freeze_attrs h fuel :
  forall a n, freeze fuel h a = Some n ->
  forall m, m ∈ subnodes n -> exists o, o ∈ h /\ Dom.attrs m = Store.attrs o.
Proof.
  induction fuel as [|fuel IH]; intros a n Hn; [discriminate|].
  destruct (freeze_Some _ _ _ _ Hn) as (f & o & [= <-] & Ho & Hkids & Hnode).
  intros m Hm. apply elem_of_cons in Hm as [-> | Hm].
  - exists o. split; [eapply list_elem_of_lookup_2; eassumption|].
    rewrite Hnode. reflexivity.
  - apply elem_of_descendants in Hm as (k & Hk & Hm).
    apply list_elem_of_lookup in Hk as [i Hi].
    destruct (Forall2_lookup_r _ _ _ _ _ Hkids Hi) as (c & Hc & Hfc).
    eapply IH; eassumption.
Qed.

Lemma get_lower_keys m name :
  lower_keys m -> has_upper name = true -> JsMap.get m name = None.
Proof.
  unfold lower_keys. induction m as [|[k v] m IH]; simpl; intros Hm Hn; [reflexivity|].
  apply Forall_cons in Hm as [Hk Hm]. simpl in Hk.
  destruct (str_eqb k name) eqn:Ek; [|auto].
  apply str_eqb_eq in Ek. congruence.
Qed.

(** C10: in a tree parsed from markup no attribute is stored under a
    name with a capital letter, and [attr] looks the name up as it is
    given: for a name with a capital letter it answers null. *)
Theorem uppercase_attr_lookup_is_null (html name : str) (n : Node) :
  n ∈ subnodes (Parser.root (parseHTML html)) ->
  has_upper name = true ->
  attr (mkElementWrapper n) name = None.
Proof.
  intros Hn Hname. cbn [attr ElementWrapper_QueryElement Parser.node].
  apply get_lower_keys; [|assumption].
  unfold parseHTML in Hn. cbn [Parser.root] in Hn.
  pose proof (buildTree_total (tokenize html)) as Hfz.
  assert (Hinit : store_lower (fst init)) by (repeat constructor).
  pose proof (run_lower (tokenize html) init (tokenize_lower html) Hinit) as Hlow.
  destruct (run (tokenize html) init) as [h stack]. cbn [fst] in Hlow.
  destruct (freeze_attrs h _ _ _ Hfz n Hn) as (o & Ho & ->).
  exact (proj1 (Forall_forall _ _) Hlow o Ho).
Qed.

Lemma uppercase_attr_lookup_is_null_witness :
  let doc := parseHTML (lit "<a HREF=x>t</a>") in
  let n := hd dummy (children (Parser.root doc)) in
  attr (mkElementWrapper n) (lit "HREF") = None
  /\ attr (mkElementWrapper n) (lit "href") = Some (lit "x").
Proof.
  cbv zeta. split.
  - apply (uppercase_attr_lookup_is_null (lit "<a HREF=x>t</a>")).
    + vm_compute. right. left.
    + reflexivity.
  - vm_compute. reflexivity.
Defined.

(** *** Identities: the nodes of a built tree are allocated in document
    order *)

Lemma closed_chain_bounds h :
  (forall a hi, closed h a hi -> a < hi)
  /\ (forall lo cs hi, chain h lo cs hi -> lo <= hi).
Proof.
  assert (H : forall a hi (c : closed h a hi), a < hi).
  { apply (closed_chain_ind h (fun a hi _ => a < hi) (fun lo cs hi _ => lo <= hi));
      intros; lia. }
  split; [exact H|].
  induction 1 as [|c mid cs hi Hc _ IH]; [lia|]. apply H in Hc. lia.
Qed.

Lemma closed_lt h a hi : closed h a hi -> a < hi.
Proof. apply closed_chain_bounds. Qed.

Lemma chain_le h lo cs hi : chain h lo cs hi -> lo <= hi.
Proof. apply closed_chain_bounds. Qed.

(** A closed range depends on the objects of the range only. *)
Lemma closed_chain_frame h h' :
  (forall a hi, closed h a hi ->
     (forall b, a <= b < hi -> h' !! b = h !! b) -> closed h' a hi)
  /\ (forall lo cs hi, chain h lo cs hi ->
        (forall b, lo <= b < hi -> h' !! b = h !! b) -> chain h' lo cs hi).
Proof.
  assert (H : forall a hi (c : closed h a hi),
            (forall b, a <= b < hi -> h' !! b = h !! b) -> closed h' a hi).
  { apply (closed_chain_ind h
             (fun a hi _ => (forall b, a <= b < hi -> h' !! b = h !! b) -> closed h' a hi)
             (fun lo cs hi _ => (forall b, lo <= b < hi -> h' !! b = h !! b)
                                -> chain h' lo cs hi)).
    - intros a o hi Ho Hch IH Hfr. pose proof (chain_le _ _ _ _ Hch).
      apply closed_node with o; [rewrite Hfr by lia; exact Ho|].
      apply IH. intros b Hb. apply Hfr. lia.
    - intros lo _. constructor.
    - intros c mid cs hi Hc IHc Hch IHch Hfr.
      pose proof (closed_lt _ _ _ Hc). pose proof (chain_le _ _ _ _ Hch).
      apply chain_cons with mid; [apply IHc | apply IHch]; intros b Hb; apply Hfr; lia. }
  split; [exact H|].
  induction 1 as [|c mid cs hi Hc Hch IH]; intros Hfr; [constructor|].
  pose proof (closed_lt _ _ _ Hc). pose proof (chain_le _ _ _ _ Hch).
  apply chain_cons with mid; [apply (H _ _ Hc) | apply IH]; intros b Hb; apply Hfr; lia.
Qed.

Lemma chain_frame h h' lo cs hi :
  chain h lo cs hi -> (forall b, lo <= b < hi -> h' !! b = h !! b) ->
  chain h' lo cs hi.
Proof. apply closed_chain_frame. Qed.

Lemma chain_app h lo cs mid cs' hi :
  chain h lo cs mid -> chain h mid cs' hi -> chain h lo (cs ++ cs') hi.
Proof.
  induction 1 as [|c m cs1 hi1 Hc Hch IH]; intros H2; [exact H2|].
  cbn [app]. apply chain_cons with m; [exact Hc | apply IH; exact H2].
Qed.

Lemma open_below_lt h child below :
  open_below h child below -> Forall (fun p => p < child) below.
Proof.
  revert child. induction below as [|p rest IH]; intros child; [constructor|].
  intros ((o & cs & Ho & Hcs & Hch) & Hrest).
  apply chain_le in Hch. constructor; [lia|].
  eapply Forall_impl; [apply IH; exact Hrest|]. cbn beta. intros; lia.
Qed.

Lemma open_below_frame h h' top child below :
  child <= top ->
  (forall b, b < top -> h' !! b = h !! b) ->
  open_below h child below -> open_below h' child below.
Proof.
  intros Hle Hfr. revert child Hle. induction below as [|p rest IH]; intros child Hle; [auto|].
  intros ((o & cs & Ho & Hcs & Hch) & Hrest).
  pose proof (chain_le _ _ _ _ Hch). split.
  - exists o, cs. rewrite Hfr by lia. split; [exact Ho|split; [exact Hcs|]].
    eapply chain_frame; [exact Hch|]. intros b Hb. apply Hfr. lia.
  - apply IH; [lia | exact Hrest].
Qed.

Lemma step_layout st token : layout st -> layout (step st token).
Proof.
  destruct st as [h stack]. unfold layout, step.
  destruct stack as [|top below]; [auto|].
  intros ((o & Ho & Hch) & Hbelow).
  assert (Htop : top < length h) by (eapply lookup_lt_Some; eassumption).
  (* allocating a node with no children under the top *)
  assert (Hlink : forall x, Store.children x = [] ->
    let h' := Store.push_child (h ++ [x]) top (length h) in
    (exists o', h' !! top = Some o'
                /\ chain h' (S top) (Store.children o') (length h'))
    /\ open_below h' top below
    /\ (exists on, h' !! length h = Some on
                   /\ chain h' (S (length h)) (Store.children on) (length h'))
    /\ open_below h' (length h) (top :: below)).
  { intros x Hx h'.
    assert (Hl : length h' = S (length h)).
    { unfold h'. rewrite push_child_length, length_app. cbn. lia. }
    assert (Hfr : forall b, b < length h -> b <> top -> h' !! b = h !! b).
    { intros b Hb Hne. unfold h'. rewrite link_lookup by assumption.
      rewrite decide_False by assumption. rewrite decide_False by lia. reflexivity. }
    assert (Hn : h' !! length h = Some x).
    { unfold h'. rewrite link_lookup by assumption.
      rewrite decide_False by lia. rewrite decide_True by reflexivity. reflexivity. }
    assert (Ht : h' !! top = Some (with_child o [length h])).
    { unfold h'. rewrite link_lookup, decide_True by auto. rewrite Ho. reflexivity. }
    assert (Hold : chain h' (S top) (Store.children o) (length h)).
    { eapply chain_frame; [exact Hch|]. intros b Hb. apply Hfr; lia. }
    assert (Hleaf : chain h' (length h) [length h] (S (length h))).
    { apply chain_cons with (S (length h)); [|constructor].
      apply closed_node with x; [exact Hn|]. rewrite Hx. constructor. }
    assert (Hb' : open_below h' top below).
    { eapply (open_below_frame h h' top); [lia | | exact Hbelow].
      intros b Hb. apply Hfr; lia. }
    split; [|split; [exact Hb'|split]].
    - exists (with_child o [length h]). split; [exact Ht|]. rewrite Hl.
      cbn [with_child Store.children].
      eapply chain_app; eassumption.
    - exists x. split; [exact Hn|]. rewrite Hx, Hl. constructor.
    - split; [|exact Hb'].
      exists (with_child o [length h]), (Store.children o).
      split; [exact Ht|]. split; [reflexivity | exact Hold]. }
  destruct (Tokenizer.type token).
  - (* open *)
    unfold Store.alloc.
    match goal with
    | |- context [Store.push_child (h ++ [?x]) top (length h)] =>
        destruct (Hlink x eq_refl) as (_ & _ & Hn & Hb)
    end.
    split; [exact Hn | exact Hb].
  - (* close *)
    destruct (_ && _) eqn:Hc; [|split; [eauto | exact Hbelow]].
    destruct below as [|p rest]; [cbn in Hc; discriminate|].
    cbn [tail]. destruct Hbelow as ((op & cs & Hop & Hcs & Hchp) & Hrest).
    split; [|exact Hrest].
    exists op. split; [exact Hop|]. rewrite Hcs.
    eapply chain_app; [exact Hchp|].
    apply chain_cons with (length h); [|constructor].
    apply closed_node with o; assumption.
  - (* text *)
    destruct (Tokenizer.content token) as [[|ch content]|];
      [split; [eauto | exact Hbelow] | | split; [eauto | exact Hbelow]].
    unfold Store.alloc.
    match goal with
    | |- context [Store.push_child (h ++ [?x]) top (length h)] =>
        destruct (Hlink x eq_refl) as (Ht & Hb & _)
    end.
    split; [exact Ht | exact Hb].
  - (* self-closing *)
    unfold Store.alloc.
    match goal with
    | |- context [Store.push_child (h ++ [?x]) top (length h)] =>
        destruct (Hlink x eq_refl) as (Ht & Hb & _)
    end.
    split; [exact Ht | exact Hb].
Qed.

Lemma run_layout tokens : forall st, layout st -> layout (run tokens st).
Proof.
  unfold run. induction tokens as [|t tokens IH]; intros st Hst; cbn [foldl]; [assumption|].
  apply IH. apply step_layout. assumption.
Qed.

Lemma init_layout : layout init.
Proof.
  split; [|reflexivity]. eexists. split; [reflexivity|]. constructor.
Qed.

(** When the loop ends, the whole store is the closed range of the
    root. *)
Lemma layout_closed_root h stack : layout (h, stack) -> closed h root_addr (length h).
Proof.
  unfold layout. destruct stack as [|top below]; [intros []|].
  intros ((o & Ho & Hch) & Hbelow).
  assert (Hc : closed h top (length h)) by (apply closed_node with o; assumption).
  clear o Ho Hch. revert top Hc Hbelow.
  induction below as [|p rest IH]; intros top Hc Hbelow.
  - cbn in Hbelow. subst. exact Hc.
  - destruct Hbelow as ((op & cs & Hop & Hcs & Hchp) & Hrest).
    apply (IH p); [|exact Hrest].
    apply closed_node with op; [exact Hop|]. rewrite Hcs.
    eapply chain_app; [exact Hchp|].
    apply chain_cons with (length h); [exact Hc | constructor].
Qed.

Lemma seq_split lo mid hi :
  lo <= mid -> mid <= hi -> seq lo (hi - lo) = seq lo (mid - lo) ++ seq mid (hi - mid).
Proof.
  intros H1 H2. replace (hi - lo) with ((mid - lo) + (hi - mid)) by lia.
  rewrite seq_app. do 2 f_equal. lia.
Qed.

(** The identities of a frozen closed range, in document order, are the
    addresses of the range, in order. *)
Lemma freeze_closed_refs h fuel :
  forall a hi n,
    closed h a hi -> freeze fuel h a = Some n ->
    map ref (subnodes n) = seq a (hi - a).
Proof.
  induction fuel as [|fuel IH]; intros a hi n Hc Hn; [discriminate|].
  destruct (freeze_Some _ _ _ _ Hn) as (f & o & [= <-] & Ho & Hkids & Hnode).
  inversion Hc as [a' o' hi' Ho' Hch]; subst. rewrite Ho in Ho'. injection Ho' as <-.
  pose proof (chain_le _ _ _ _ Hch) as Hle.
  unfold subnodes. rewrite descendants_unfold. cbn [map].
  rewrite Hnode at 1. cbn [ref].
  replace (hi - a) with (S (hi - S a)) by lia. cbn [seq]. f_equal.
  clear Hnode Hn Hc Ho. revert Hch Hkids.
  generalize (S a) (Store.children o) (children n). clear a Hle.
  intros lo cs. revert lo. induction cs as [|c cs IHcs]; intros lo ks Hch Hkids.
  - inversion Hkids; subst. inversion Hch; subst. rewrite Nat.sub_diag. reflexivity.
  - inversion Hkids as [|? k ? ks' Hk Hrest]; subst.
    inversion Hch as [|? mid ? ? Hcl Hch']; subst.
    pose proof (closed_lt _ _ _ Hcl). pose proof (chain_le _ _ _ _ Hch').
    cbn [map concat]. rewrite map_app.
    rewrite (IH _ _ _ Hcl Hk), (IHcs _ _ Hch' Hrest).
    symmetry. apply seq_split; lia.
Qed.

(** In a tree that [buildTree] returns every node has an identity of its
    own: the identities, in document order, count up from the root. *)
Lemma buildTree_refs tokens :
  exists size, map ref (subnodes (buildTree tokens)) = seq 0 size.
Proof.
  pose proof (buildTree_total tokens) as Hfz.
  pose proof (run_layout tokens init init_layout) as Hlay.
  destruct (run tokens init) as [h stack].
  apply layout_closed_root in Hlay.
  exists (length h - 0). eapply freeze_closed_refs; eassumption.
Qed.

Lemma buildTree_unique_refs tokens : unique_refs (buildTree tokens).
Proof.
  unfold unique_refs. destruct (buildTree_refs tokens) as [size ->].
  apply NoDup_seq.
Qed.

(** *** Queries on parsed documents *)

Lemma parsed_unique_refs html : unique_refs (Parser.root (Parser.parseHTML html)).
Proof. apply buildTree_unique_refs. Qed.

(** On a parsed document the engine answers in its visit order, whatever
    earlier queries on the document have left in the caches. *)
Corollary parsed_query_visit_order html S c :
  let D := Parser.root (Parser.parseHTML html) in
  caches_agree (subnodes D) c ->
  querySelectorAll D S = found (split_ws (trim S)) D 0
  /\ exists c',
       querySelectorAll_st D S c = Some (querySelectorAll D S, c')
       /\ caches_agree (subnodes D) c'.
Proof.
  cbv zeta. intros Hc. pose proof (parsed_unique_refs html) as Hu.
  split; [apply query_found; exact Hu|].
  destruct (query_st_found _ S c Hu Hc) as (c' & E & Hc').
  exists c'. rewrite query_found by exact Hu. auto.
Qed.

(** ** The round trip: claim C6 *)

Import RoundTrip.

(** *** Building the tree from the tokens of a plain subtree *)

Lemma repr_unfold h hi s a :
  repr h hi s a <->
  exists o,
    h !! a = Some o /\ a < hi
    /\ Store.tag o = s_tag s /\ Store.attrs o = s_attrs s
    /\ Store.text o = s_text s
    /\ repr_all (repr h hi) a (s_children s) (Store.children o).
Proof. destruct s; reflexivity. Qed.

Lemma repr_all_impl (R R' : Shape -> nat -> Prop) a kids :
  Forall (fun k => forall c, a < c -> R k c -> R' k c) kids ->
  forall cs, repr_all R a kids cs -> repr_all R' a kids cs.
Proof.
  induction 1 as [|k kids Hk _ IH]; intros [|c cs]; simpl; auto.
  intros (Hac & Hr & Hrest). auto.
Qed.

Lemma repr_all_app R a kids1 cs1 kids2 cs2 :
  repr_all R a kids1 cs1 -> repr_all R a kids2 cs2 ->
  repr_all R a (kids1 ++ kids2) (cs1 ++ cs2).
Proof.
  revert cs1. induction kids1 as [|k kids1 IH]; intros [|c cs1]; simpl; try tauto.
  intros (Hac & Hr & Hrest) H2. auto.
Qed.

(** A structure in the store depends on the objects of its range only,
    and stays one in a wider range. *)
Lemma repr_frame h h' hi hi' s :
  hi <= hi' ->
  forall a, repr h hi s a ->
            (forall b, a <= b < hi -> h' !! b = h !! b) ->
            repr h' hi' s a.
Proof.
  intros Hhi. induction s as [t at_ ch tx IH] using Shape_ind. intros a.
  rewrite !repr_unfold. intros (o & Ho & Ha & Ht & Hat & Htx & Hall) Hfr.
  exists o. rewrite Hfr by lia. repeat (split; [first [assumption | lia]|]).
  cbn [s_children] in *. eapply repr_all_impl; [|exact Hall].
  eapply Forall_impl; [exact IH|]. cbn beta. intros k Hk c Hac Hr.
  apply Hk; [assumption|]. intros b Hb. apply Hfr. lia.
Qed.

Lemma run_app l1 l2 st : run (l1 ++ l2) st = run l2 (run l1 st).
Proof. unfold run. apply foldl_app. Qed.

Lemma tag_token_attrs b t m :
  default JsMap.empty (Tokenizer.attrs (tag_token b t m)) = m.
Proof. destruct m; reflexivity. Qed.

Lemma step_tag_token h top rest b tg at_ :
  step (h, top :: rest) (tag_token b tg at_)
  = (Store.push_child (h ++ [Store.mkNode tg at_ [] [] (Some top)]) top (length h),
     if b then top :: rest else length h :: top :: rest).
Proof.
  unfold step. cbn [Tokenizer.type tag_token]. unfold Store.alloc.
  rewrite tag_token_attrs. destruct b; reflexivity.
Qed.

Lemma step_close_token h stack tg :
  step (h, stack) (close_token tg)
  = if (1 <? length stack) && top_tag_is h stack (Some tg)
    then (h, tail stack) else (h, stack).
Proof. destruct stack; reflexivity. Qed.

Lemma forest_builds kids :
  Forall builds kids ->
  forall h top rest o,
    h !! top = Some o -> is_void (Store.tag o) = false ->
    exists h' cs,
      run (concat (map tokens_of kids)) (h, top :: rest) = (h', top :: rest)
      /\ length h <= length h'
      /\ h' !! top = Some (with_child o cs)
      /\ (forall b, b < length h -> b <> top -> h' !! b = h !! b)
      /\ repr_all (repr h' (length h')) top (map shape kids) cs.
Proof.
  induction 1 as [|k kids Hk _ IH]; intros h top rest o Ho Hvoid.
  - exists h, []. simpl. repeat split; auto.
    rewrite Ho. unfold with_child. rewrite app_nil_r. destruct o; reflexivity.
  - destruct (Hk h top rest o Ho Hvoid) as (h1 & Hrun1 & Hlen1 & Htop1 & Hfr1 & Hrep1).
    destruct (IH h1 top rest _ Htop1 Hvoid) as (h' & cs & Hrun & Hlen & Htop & Hfr & Hrep).
    assert (Htoplt : top < length h) by (eapply lookup_lt_Some; eassumption).
    exists h', (length h :: cs). cbn [map concat]. rewrite run_app, Hrun1, Hrun.
    split; [reflexivity|]. split; [lia|]. split.
    { rewrite Htop. unfold with_child. cbn. rewrite <- app_assoc. reflexivity. }
    split.
    { intros b Hb Hne. rewrite Hfr by (first [lia | assumption]). apply Hfr1; assumption. }
    cbn [repr_all]. split; [assumption|]. split; [|assumption].
    eapply repr_frame; [exact Hlen | exact Hrep1 |].
    intros b Hb. apply Hfr; lia.
Qed.

Lemma void_tag_differs t1 t2 :
  is_void t1 = false -> is_void t2 = true -> str_eqb t1 t2 = false.
Proof.
  intros H1 H2. destruct (str_eqb t1 t2) eqn:E; [|reflexivity].
  apply str_eqb_eq in E. congruence.
Qed.

Lemma forallb_Forall_builds kids :
  Forall (fun k => plain k = true -> builds k) kids ->
  forallb plain kids = true -> Forall builds kids.
Proof.
  induction 1 as [|k kids Hk _ IH]; simpl; [constructor|].
  intros Hp. apply andb_true_iff in Hp as [Hpk Hps]. constructor; auto.
Qed.

Lemma plain_builds t : plain t = true -> builds t.
Proof.
  induction t as [r tg at_ ch tx p IH] using Node_ind. intros Hp.
  intros h top rest o Ho Hvoid.
  assert (Htoplt : top < length h) by (eapply lookup_lt_Some; eassumption).
  destruct tx as [|x tx].
  - (* an element *)
    cbn [plain Dom.text Dom.tag Dom.attrs children] in Hp.
    apply andb_true_iff in Hp as [Hp Hadj]. apply andb_true_iff in Hp as [Hp Hall].
    apply andb_true_iff in Hp as [Hp Hvn]. apply andb_true_iff in Hp as [Hgt Hga].
    cbn [tokens_of Dom.text Dom.tag Dom.attrs children shape].
    set (node := Store.mkNode tg at_ [] [] (Some top)).
    set (h1 := Store.push_child (h ++ [node]) top (length h)).
    assert (Hl1 : length h1 = S (length h)).
    { unfold h1. rewrite push_child_length, length_app. simpl. lia. }
    assert (Htop1 : h1 !! top = Some (with_child o [length h])).
    { unfold h1. rewrite link_lookup, decide_True by auto. rewrite Ho. reflexivity. }
    assert (Hn1 : h1 !! length h = Some node).
    { unfold h1. rewrite link_lookup by assumption.
      rewrite decide_False by lia. rewrite decide_True by reflexivity. reflexivity. }
    assert (Hfr1 : forall b, b < length h -> b <> top -> h1 !! b = h !! b).
    { intros b Hb Hne. unfold h1. rewrite link_lookup by assumption.
      rewrite decide_False by assumption. rewrite decide_False by lia. reflexivity. }
    destruct (is_void tg) eqn:Hv.
    + (* a void element: no children, and its close token is ignored *)
      destruct ch as [|c ch]; [|simpl in Hvn; discriminate]. cbn [map concat app].
      exists h1. split; [|split; [lia|split; [assumption|split; [assumption|]]]].
      * unfold run. cbn [foldl]. rewrite step_tag_token. fold node. fold h1.
        rewrite step_close_token. cbn [top_tag_is].
        rewrite Htop1. cbn [with_child Store.tag].
        rewrite (void_tag_differs _ _ Hvoid Hv), andb_false_r. reflexivity.
      * rewrite repr_unfold. exists node. rewrite Hl1. cbn.
        repeat (split; [first [assumption | reflexivity | lia]|]). exact I.
    + (* an element that is pushed: its children hang under it, and its
         close token pops it *)
      assert (Hkids : Forall builds ch).
      { apply forallb_Forall_builds; assumption. }
      destruct (forest_builds ch Hkids h1 (length h) (top :: rest) node Hn1 Hv)
        as (h2 & cs & Hrun2 & Hlen2 & Hn2 & Hfr2 & Hrep2).
      exists h2. split; [|split; [lia|split; [|split]]].
      * change (tag_token false tg at_ :: concat (map tokens_of ch) ++ [close_token tg])
          with ([tag_token false tg at_] ++ concat (map tokens_of ch) ++ [close_token tg]).
        rewrite !run_app.
        assert (Hopen : run [tag_token false tg at_] (h, top :: rest)
                        = (h1, length h :: top :: rest)).
        { unfold run. cbn [foldl]. rewrite step_tag_token. reflexivity. }
        rewrite Hopen, Hrun2. unfold run. cbn [foldl]. rewrite step_close_token.
        cbn [top_tag_is length]. rewrite Hn2. cbn [with_child Store.tag node].
        rewrite str_eqb_refl. reflexivity.
      * rewrite Hfr2 by lia. exact Htop1.
      * intros b Hb Hne. rewrite Hfr2 by lia. apply Hfr1; assumption.
      * rewrite repr_unfold. exists (with_child node cs).
        repeat (split; [first [assumption | reflexivity | lia]|]).
        exact Hrep2.
  - (* a text leaf *)
    cbn [plain Dom.text Dom.tag Dom.attrs children] in Hp.
    apply andb_true_iff in Hp as [Hp Hch]. apply andb_true_iff in Hp as [Hp Hat].
    apply andb_true_iff in Hp as [Hgt Htg].
    destruct tg; [|discriminate]. destruct at_; [|discriminate].
    destruct ch; [|discriminate].
    cbn [tokens_of Dom.text shape Dom.tag Dom.attrs children map].
    set (node := Store.mkNode [] JsMap.empty [] (x :: tx) (Some top)).
    set (h1 := Store.push_child (h ++ [node]) top (length h)).
    exists h1.
    assert (Hl1 : length h1 = S (length h)).
    { unfold h1. rewrite push_child_length, length_app. simpl. lia. }
    split; [reflexivity|]. split; [lia|]. split; [|split].
    + unfold h1. rewrite link_lookup, decide_True by auto. rewrite Ho. reflexivity.
    + intros b Hb Hne. unfold h1. rewrite link_lookup by assumption.
      rewrite decide_False by assumption. rewrite decide_False by lia. reflexivity.
    + rewrite repr_unfold. exists node. rewrite Hl1.
      split.
      { unfold h1. rewrite link_lookup by assumption.
        rewrite decide_False by lia. rewrite decide_True by reflexivity. reflexivity. }
      repeat (split; [first [reflexivity | lia]|]). exact I.
Qed.

Lemma shape_unfold n :
  shape n = mkShape (Dom.tag n) (Dom.attrs n) (map shape (children n)) (Dom.text n).
Proof. destruct n; reflexivity. Qed.

(** Freezing reads a structure of the store back as it is. *)
Lemma repr_freeze h hi s :
  forall a fuel n, repr h hi s a -> freeze fuel h a = Some n -> shape n = s.
Proof.
  induction s as [t at_ ch tx IH] using Shape_ind. intros a fuel n.
  rewrite repr_unfold. intros (o & Ho & _ & Ht & Hat & Htx & Hall) Hn.
  destruct (freeze_Some _ _ _ _ Hn) as (f & o' & -> & Ho' & Hkids & Hnode).
  rewrite Ho in Ho'. injection Ho' as <-.
  rewrite shape_unfold. rewrite Hnode at 1 2 4. cbn [Dom.tag Dom.attrs Dom.text].
  cbn [s_tag s_attrs s_text s_children] in *. rewrite Ht, Hat, Htx. f_equal.
  clear Hnode Hn Ho. revert Hall Hkids. generalize (Store.children o) (children n).
  induction IH as [|k ch Hk _ IHch]; intros cs ns Hall Hkids.
  - destruct cs; [|destruct Hall]. inversion Hkids. reflexivity.
  - destruct cs as [|c cs]; [destruct Hall|]. destruct Hall as (_ & Hr & Hall).
    inversion Hkids as [|? m ? ns' Hm Hrest]; subst. cbn [map]. f_equal.
    + eapply Hk; eassumption.
    + apply IHch with cs; assumption.
Qed.

(** The tree built from the tokens of a plain subtree is the document
    with that subtree as its only child. *)
Lemma buildTree_tokens_of t :
  plain t = true -> map shape (children (buildTree (tokens_of t))) = [shape t].
Proof.
  intros Hp. pose proof (buildTree_total (tokens_of t)) as Hfz.
  destruct (plain_builds t Hp
              [Store.mkNode (lit "document") JsMap.empty [] [] None]
              root_addr [] _ eq_refl eq_refl)
    as (h' & Hrun & Hlen & Htop & _ & Hrep).
  change (run (tokens_of t) init = (h', [root_addr])) in Hrun.
  rewrite Hrun in Hfz.
  destruct (freeze_Some _ _ _ _ Hfz) as (f & o & _ & Ho & Hkids & _).
  rewrite Htop in Ho. injection Ho as <-. cbn in Hkids.
  inversion Hkids as [|c k cs ks Hk Hrest]; subst. inversion Hrest; subst.
  cbn [map]. f_equal. eapply repr_freeze; eassumption.
Qed.

(** *** Scanning the markup of a plain subtree *)

Lemma ch_eqb_eq a b : ch_eqb a b = true <-> a = b.
Proof. unfold ch_eqb. apply Ascii.eqb_eq. Qed.

Lemma ch_eqb_sym a b : ch_eqb a b = ch_eqb b a.
Proof. unfold ch_eqb. apply Ascii.eqb_sym. Qed.

Lemma str_eqb_sym a b : str_eqb a b = str_eqb b a.
Proof.
  destruct (str_eqb a b) eqn:E1, (str_eqb b a) eqn:E2; auto.
  - apply str_eqb_eq in E1. subst. rewrite str_eqb_refl in E2. discriminate.
  - apply str_eqb_eq in E2. subst. rewrite str_eqb_refl in E1. discriminate.
Qed.

Lemma startsWith_empty s : startsWith s [] = true.
Proof. destruct s; reflexivity. Qed.

Lemma startsWith_char c x s : startsWith (x :: s) [c] = ch_eqb c x.
Proof. cbn. rewrite startsWith_empty. apply andb_true_r. Qed.

(** The first occurrence of a character that the text before it does not
    hold. *)
Lemma find_from_char c a rest :
  forallb (fun x => negb (ch_eqb x c)) a = true ->
  forall k, find_from [c] (a ++ c :: rest) k = Some (k + length a).
Proof.
  induction a as [|x a IH]; intros Ha k.
  - cbn [app find_from]. rewrite startsWith_char.
    rewrite (proj2 (ch_eqb_eq c c) eq_refl). cbn. f_equal. lia.
  - cbn in Ha. apply andb_true_iff in Ha as [Hx Ha].
    cbn [app find_from]. rewrite startsWith_char, ch_eqb_sym.
    apply negb_true_iff in Hx. rewrite Hx.
    rewrite IH by assumption. cbn. f_equal. lia.
Qed.

Lemma find_from_none c a :
  forallb (fun x => negb (ch_eqb x c)) a = true ->
  forall k, find_from [c] a k = None.
Proof.
  induction a as [|x a IH]; intros Ha k; [reflexivity|].
  cbn in Ha. apply andb_true_iff in Ha as [Hx Ha].
  cbn [find_from]. rewrite startsWith_char, ch_eqb_sym.
  apply negb_true_iff in Hx. rewrite Hx. apply IH. assumption.
Qed.

Lemma indexOf_char pre c a rest :
  forallb (fun x => negb (ch_eqb x c)) a = true ->
  indexOf (pre ++ a ++ c :: rest) [c] (length pre)
  = Some (length pre + length a).
Proof.
  intros Ha. unfold indexOf. rewrite Nat.min_l by (rewrite length_app; lia).
  rewrite drop_app_length. apply find_from_char. assumption.
Qed.

Lemma slice_app pre a rest :
  slice (pre ++ a ++ rest) (length pre) (length pre + length a) = a.
Proof.
  unfold slice. rewrite drop_app_length.
  replace (length pre + length a - length pre) with (length a) by lia.
  apply take_app_length.
Qed.

Lemma trimStart_id c s : is_space c = false -> trimStart (c :: s) = c :: s.
Proof. intros Hc. simpl. rewrite Hc. reflexivity. Qed.

Lemma trimEnd_id s c : is_space c = false -> trimEnd (s ++ [c]) = s ++ [c].
Proof.
  intros Hc. unfold trimEnd. rewrite rev_app_distr. simpl. rewrite Hc.
  change (c :: rev s) with ([c] ++ rev s). rewrite rev_app_distr, rev_involutive.
  reflexivity.
Qed.

(** A string with no white space at either end is its own [trim]. *)
Lemma trim_id c s d :
  is_space c = false -> is_space d = false ->
  forall s', c :: s = s' ++ [d] -> trim (c :: s) = c :: s.
Proof.
  intros Hc Hd s' E. unfold trim. rewrite trimStart_id by assumption.
  rewrite E. apply trimEnd_id. assumption.
Qed.

Lemma span_all p a rest :
  forallb p a = true ->
  match rest with [] => True | x :: _ => p x = false end ->
  span p (a ++ rest) = (a, rest).
Proof.
  intros Ha Hrest. induction a as [|x a IH].
  - destruct rest as [|y rest]; [reflexivity|]. simpl. rewrite Hrest. reflexivity.
  - cbn in Ha. apply andb_true_iff in Ha as [Hx Ha].
    cbn [app span]. rewrite Hx, IH by assumption. reflexivity.
Qed.

Lemma toLowerCase_id s :
  forallb (fun c => negb (is_upper c)) s = true -> toLowerCase s = s.
Proof.
  induction s as [|c s IH]; [reflexivity|]. cbn. intros Hs.
  apply andb_true_iff in Hs as [Hc Hs]. apply negb_true_iff in Hc.
  unfold lower_char. rewrite Hc. f_equal. apply IH. assumption.
Qed.

Lemma forallb_space_snoc s c :
  is_space c = false -> forallb is_space (s ++ [c]) = false.
Proof.
  intros Hc. rewrite forallb_app. cbn. rewrite Hc. apply andb_false_r.
Qed.

(** A string that ends in a character other than a slash and white space
    has no slash at its end. *)
Lemma slash_end_none s c :
  is_space c = false -> ch_eqb c slash = false ->
  test_slash_end (s ++ [c]) = false /\ replace_slash_end (s ++ [c]) = s ++ [c].
Proof.
  intros Hc Hs. induction s as [|x s [IH1 IH2]].
  - cbn. rewrite Hs. auto.
  - cbn [app test_slash_end replace_slash_end].
    rewrite forallb_space_snoc by assumption. rewrite andb_false_r.
    rewrite IH1, IH2. auto.
Qed.

Lemma set_fresh m k v :
  includes (JsMap.keys m) k = false -> JsMap.set m k v = m ++ [(k, v)].
Proof.
  induction m as [|[k' v'] m IH]; [reflexivity|]. cbn.
  intros Hk. apply orb_false_iff in Hk as [Hk' Hk].
  rewrite str_eqb_sym, Hk'. rewrite IH by assumption. reflexivity.
Qed.

Lemma forallb_imp {A} (p q : A -> bool) l :
  (forall x, p x = true -> q x = true) ->
  forallb p l = true -> forallb q l = true.
Proof.
  intros Hpq. induction l as [|x l IH]; [reflexivity|]. cbn.
  intros H. apply andb_true_iff in H as [Hx Hl]. rewrite Hpq, IH; auto.
Qed.

Lemma render_cons k v m :
  render ((k, v) :: m)
  = k ++ equals :: dquote :: v
      ++ dquote :: match m with [] => [] | _ => " "%char :: render m end.
Proof.
  unfold render. cbn [map].
  assert (Ha : forall tail, attr_to_string (k, v) ++ tail
                            = k ++ equals :: dquote :: v ++ dquote :: tail).
  { intros tail. unfold attr_to_string. cbn [fst snd].
    rewrite <- !app_assoc. cbn [app]. rewrite <- ?app_assoc. reflexivity. }
  destruct m as [|kv m]; cbn [map join_space].
  - rewrite <- (app_nil_r (attr_to_string (k, v))). apply Ha.
  - apply Ha.
Qed.

Lemma attrs_to_string_render m :
  attrs_to_string m = match m with [] => [] | _ => " "%char :: render m end.
Proof.
  unfold attrs_to_string. fold (render m). destruct m as [|[k v] m]; [reflexivity|].
  rewrite render_cons. destruct k; reflexivity.
Qed.

Lemma good_attr_name_facts k :
  good_attr_name k = true ->
  (exists c k', k = c :: k' /\ is_attr_name_char c = true)
  /\ forallb is_attr_name_char k = true
  /\ forallb (fun c => negb (is_upper c)) k = true
  /\ forallb (fun c => negb (ch_eqb c gt_char)) k = true.
Proof.
  unfold good_attr_name. intros H. apply andb_true_iff in H as [Hne Hall].
  assert (H1 : forallb is_attr_name_char k = true).
  { eapply forallb_imp; [|exact Hall]. cbn beta. intros x Hx.
    apply andb_true_iff in Hx as [Hx _]. apply andb_true_iff in Hx as [Hx _]. exact Hx. }
  split; [|split; [exact H1|split]].
  - destruct k as [|c k']; [discriminate|]. exists c, k'. split; [reflexivity|].
    cbn in H1. apply andb_true_iff in H1 as [H1 _]. exact H1.
  - eapply forallb_imp; [|exact Hall]. cbn beta. intros x Hx.
    apply andb_true_iff in Hx as [Hx _]. apply andb_true_iff in Hx as [_ Hx]. exact Hx.
  - eapply forallb_imp; [|exact Hall]. cbn beta. intros x Hx.
    apply andb_true_iff in Hx as [_ Hx]. exact Hx.
Qed.

Lemma good_attr_value_facts v :
  good_attr_value v = true ->
  forallb (fun c => negb (ch_eqb c dquote)) v = true
  /\ forallb (fun c => negb (ch_eqb c gt_char)) v = true.
Proof.
  unfold good_attr_value. intros H. split.
  - eapply forallb_imp; [|exact H]. cbn beta. intros x Hx.
    apply andb_true_iff in Hx as [Hx _]. exact Hx.
  - eapply forallb_imp; [|exact H]. cbn beta. intros x Hx.
    apply andb_true_iff in Hx as [_ Hx]. exact Hx.
Qed.

(** One match of the attribute expression on a printed attribute. *)
Lemma exec_attr_rendered k v tail :
  good_attr_name k = true -> good_attr_value v = true ->
  exec_attr (k ++ equals :: dquote :: v ++ dquote :: tail) = Some (k, v, tail).
Proof.
  intros Hk Hv.
  destruct (good_attr_name_facts k Hk) as ((c & k' & -> & Hc) & Hall & _ & _).
  destruct (good_attr_value_facts v Hv) as (Hvq & _).
  unfold exec_attr.
  assert (Hskip : span (fun x => negb (is_attr_name_char x))
                       ((c :: k') ++ equals :: dquote :: v ++ dquote :: tail)
                  = ([], (c :: k') ++ equals :: dquote :: v ++ dquote :: tail)).
  { cbn [app span]. rewrite Hc. reflexivity. }
  rewrite Hskip. cbn [snd].
  rewrite (span_all is_attr_name_char (c :: k')) by (first [assumption | reflexivity]).
  unfold match_value. rewrite trimStart_id by reflexivity.
  change (ch_eqb equals equals) with true. cbn iota.
  rewrite trimStart_id by reflexivity.
  change (ch_eqb dquote dquote) with true. cbn iota.
  unfold match_quoted.
  rewrite (span_all (fun x => negb (ch_eqb x dquote)) v) by (first [assumption | reflexivity]).
  reflexivity.
Qed.

Lemma exec_attr_space s : exec_attr (" "%char :: s) = exec_attr s.
Proof.
  unfold exec_attr. cbn [span].
  change (negb (is_attr_name_char " ")) with true. cbn iota.
  destruct (span (fun c => negb (is_attr_name_char c)) s). reflexivity.
Qed.

Lemma parseAttrs_loop_space fuel s m :
  parseAttrs_loop fuel (" "%char :: s) m = parseAttrs_loop fuel s m.
Proof. destruct fuel; cbn [parseAttrs_loop]; rewrite exec_attr_space; reflexivity. Qed.

Lemma includes_app l1 l2 x : includes (l1 ++ l2) x = includes l1 x || includes l2 x.
Proof. unfold includes. apply existsb_app. Qed.

Lemma fresh_snoc acc k v l :
  includes l k = false ->
  forallb (fun x => negb (includes (JsMap.keys acc) x)) l = true ->
  forallb (fun x => negb (includes (JsMap.keys (acc ++ [(k, v)])) x)) l = true.
Proof.
  induction l as [|x l IH]; [reflexivity|]. cbn [forallb includes existsb].
  intros Hk Hl. apply orb_false_iff in Hk as [Hkx Hk].
  apply andb_true_iff in Hl as [Hx Hl]. fold (includes l k) in Hk.
  rewrite (IH Hk Hl), andb_true_r.
  unfold JsMap.keys. rewrite map_app, includes_app. cbn [map fst includes existsb].
  fold (JsMap.keys acc). apply negb_true_iff in Hx. rewrite Hx.
  rewrite str_eqb_sym, Hkx. reflexivity.
Qed.

(** The attribute loop reads printed attributes back. *)
Lemma parseAttrs_loop_render m :
  forall acc fuel,
    forallb (fun kv => good_attr_name (fst kv) && good_attr_value (snd kv)) m = true ->
    distinct (JsMap.keys m) = true ->
    forallb (fun k => negb (includes (JsMap.keys acc) k)) (JsMap.keys m) = true ->
    length (render m) <= fuel ->
    parseAttrs_loop fuel (render m) acc = Some (acc ++ m).
Proof.
  induction m as [|[k v] m IH]; intros acc fuel Hgood Hdist Hfresh Hfuel.
  - destruct fuel; cbn; rewrite app_nil_r; reflexivity.
  - cbn [forallb fst snd] in Hgood. apply andb_true_iff in Hgood as [Hkv Hgood].
    apply andb_true_iff in Hkv as [Hk Hv].
    change (JsMap.keys ((k, v) :: m)) with (k :: JsMap.keys m) in Hdist, Hfresh.
    cbn [distinct] in Hdist. apply andb_true_iff in Hdist as [Hkm Hdist].
    cbn [forallb] in Hfresh. apply andb_true_iff in Hfresh as [Hka Hfresh].
    apply negb_true_iff in Hkm, Hka.
    destruct (good_attr_name_facts k Hk) as (_ & _ & Hlow & _).
    rewrite render_cons in *.
    set (tail := match m with [] => [] | _ => " "%char :: render m end) in *.
    assert (Hlen : length tail < length (k ++ equals :: dquote :: v ++ dquote :: tail)).
    { rewrite length_app. cbn [length]. rewrite length_app. cbn [length]. lia. }
    destruct fuel as [|fuel]; [lia|].
    cbn [parseAttrs_loop]. rewrite exec_attr_rendered by assumption.
    rewrite (toLowerCase_id k Hlow), (set_fresh acc k v Hka).
    assert (Hstep : parseAttrs_loop fuel (render m) (acc ++ [(k, v)])
                    = Some ((acc ++ [(k, v)]) ++ m)).
    { apply IH; try assumption.
      - apply fresh_snoc; assumption.
      - subst tail. destruct m; [cbn; lia|]. cbn [length] in Hlen. lia. }
    rewrite <- app_assoc in Hstep. cbn [app] in Hstep.
    subst tail. destruct m as [|kv m].
    + destruct fuel; cbn; rewrite ?app_nil_r; reflexivity.
    + rewrite parseAttrs_loop_space. exact Hstep.
Qed.

Lemma render_ends m : m <> [] -> exists s', render m = s' ++ [dquote].
Proof.
  induction m as [|[k1 v1] m IHm]; [congruence|]. intros _.
  rewrite render_cons. destruct m as [|kv m].
  - exists (k1 ++ equals :: dquote :: v1). rewrite <- app_assoc. reflexivity.
  - destruct IHm as [s' Hs']; [discriminate|]. rewrite Hs'.
    exists (k1 ++ equals :: dquote :: v1 ++ dquote :: " "%char :: s').
    rewrite <- !app_assoc. cbn [app]. rewrite <- !app_assoc. reflexivity.
Qed.

Lemma good_attrs_parse m :
  good_attrs m = true ->
  parseAttrs (replace_slash_end (trim (attrs_to_string m))) = m.
Proof.
  intros Hg. unfold good_attrs in Hg. apply andb_true_iff in Hg as [Hdist Hgood].
  rewrite attrs_to_string_render. destruct m as [|[k v] m]; [reflexivity|].
  cbv iota.
  assert (Hk : good_attr_name k = true).
  { cbn in Hgood. apply andb_true_iff in Hgood as [Hkv _].
    apply andb_true_iff in Hkv as [Hk _]. exact Hk. }
  destruct (good_attr_name_facts k Hk) as ((c & k' & Ek & Hc) & _).
  assert (Hcs : is_space c = false).
  { unfold is_attr_name_char in Hc. apply andb_true_iff in Hc as [Hc _].
    apply negb_true_iff in Hc. exact Hc. }
  (* the printed attributes start with the first name and end in a quote *)
  destruct (render_ends ((k, v) :: m)) as [s' Hs']; [discriminate|].
  assert (Hbody : exists body, render ((k, v) :: m) = c :: body).
  { rewrite render_cons, Ek. cbn [app]. eexists. reflexivity. }
  destruct Hbody as [body Hbody].
  assert (Hloop : parseAttrs_loop (length (render ((k, v) :: m)))
                    (render ((k, v) :: m)) JsMap.empty
                  = Some (JsMap.empty ++ (k, v) :: m)).
  { apply parseAttrs_loop_render; auto.
    clear. generalize (JsMap.keys ((k, v) :: m)). intros l.
    induction l as [|x l IHl]; [reflexivity|]. cbn. exact IHl. }
  revert Hs' Hbody Hloop. generalize (render ((k, v) :: m)). intros r Hs' Hbody Hloop.
  assert (Htrim : trim (" "%char :: r) = r).
  { unfold trim. cbn [trimStart]. change (is_space " ") with true. cbn iota.
    rewrite Hbody. rewrite trimStart_id by assumption. rewrite <- Hbody, Hs'.
    apply trimEnd_id. reflexivity. }
  rewrite Htrim. rewrite Hs' at 1.
  destruct (slash_end_none s' dquote eq_refl eq_refl) as [_ ->].
  rewrite <- Hs'. unfold parseAttrs. rewrite Hloop. rewrite Hbody. reflexivity.
Qed.

Lemma tokenize_from_step html i tokens :
  i < length html ->
  tokenize_from html i tokens
  = match tokenize_body html i tokens with
    | Break tokens' => Some tokens'
    | Continue i' tokens' => tokenize_from html i' tokens'
    end.
Proof.
  intros Hi. unfold tokenize_from.
  destruct (length html - i) as [|f] eqn:Ef; [lia|].
  cbn [tokenize_loop]. destruct (Nat.leb_spec (length html) i); [lia|].
  destruct (tokenize_body html i tokens) as [t|i' t] eqn:Eb; [reflexivity|].
  apply tokenize_body_advances in Eb. apply tokenize_loop_fuel; lia.
Qed.

Lemma tokenize_from_end html i tokens :
  length html <= i -> tokenize_from html i tokens = Some tokens.
Proof.
  intros Hi. unfold tokenize_from. replace (length html - i) with 0 by lia.
  cbn. destruct (Nat.leb_spec (length html) i); [reflexivity | lia].
Qed.

Lemma push_text_app tokens txt : push_text tokens txt = tokens ++ push_text [] txt.
Proof. destruct txt; [rewrite app_nil_r|]; reflexivity. Qed.

(** The first half of an iteration, on markup that goes on with a text
    free of [<], a [<], a tag body free of [>], and a [>]. *)
Lemma tokenize_body_tag pre txt body rest tokens :
  forallb (fun c => negb (ch_eqb c lt_char)) txt = true ->
  forallb (fun c => negb (ch_eqb c gt_char)) body = true ->
  tokenize_body (pre ++ txt ++ lt_char :: body ++ gt_char :: rest)
                (length pre) tokens
  = tokenize_tag (pre ++ txt ++ lt_char :: body ++ gt_char :: rest)
                 (length pre + length txt)
                 (length pre + length txt + 1 + length body)
                 (trim body) (push_text tokens txt).
Proof.
  intros Htxt Hbody. unfold tokenize_body.
  rewrite (indexOf_char pre lt_char txt) by assumption.
  assert (Htok : (if length pre <? length pre + length txt
                  then push_text tokens
                         (slice (pre ++ txt ++ lt_char :: body ++ gt_char :: rest)
                                (length pre) (length pre + length txt))
                  else tokens) = push_text tokens txt).
  { rewrite slice_app. destruct txt as [|c txt]; cbn [length].
    - rewrite Nat.add_0_r, Nat.ltb_irrefl. reflexivity.
    - destruct (Nat.ltb_spec (length pre) (length pre + S (length txt))); [reflexivity | lia]. }
  rewrite Htok.
  assert (Hre : pre ++ txt ++ lt_char :: body ++ gt_char :: rest
                = (pre ++ txt ++ [lt_char]) ++ body ++ gt_char :: rest).
  { rewrite <- !app_assoc. reflexivity. }
  assert (Hl : length (pre ++ txt ++ [lt_char]) = length pre + length txt + 1).
  { rewrite !length_app. cbn. lia. }
  assert (Hgt : indexOf (pre ++ txt ++ lt_char :: body ++ gt_char :: rest)
                        [gt_char] (length pre + length txt + 1)
                = Some (length pre + length txt + 1 + length body)).
  { rewrite Hre, <- Hl. apply indexOf_char. assumption. }
  assert (Hsl : slice (pre ++ txt ++ lt_char :: body ++ gt_char :: rest)
                      (length pre + length txt + 1)
                      (length pre + length txt + 1 + length body) = body).
  { rewrite Hre, <- Hl. apply slice_app. }
  rewrite Hgt. cbv zeta. rewrite Hsl. reflexivity.
Qed.

Lemma tokenize_split_tag pre txt body rest tokens tokens' :
  forallb (fun c => negb (ch_eqb c lt_char)) txt = true ->
  forallb (fun c => negb (ch_eqb c gt_char)) body = true ->
  (forall html lt gt,
     tokenize_tag html lt gt (trim body) (push_text tokens txt)
     = Continue (gt + 1) tokens') ->
  tokenize_split pre (txt ++ lt_char :: body ++ gt_char :: rest) tokens
  = tokenize_split (pre ++ txt ++ lt_char :: body ++ [gt_char]) rest tokens'.
Proof.
  intros Htxt Hbody Htag. unfold tokenize_split.
  rewrite tokenize_from_step
    by (rewrite !length_app; cbn [length]; rewrite !length_app; cbn [length]; lia).
  rewrite tokenize_body_tag, Htag by assumption.
  f_equal.
  - rewrite <- !app_assoc. cbn [app]. rewrite <- !app_assoc. reflexivity.
  - rewrite !length_app. cbn [length]. rewrite !length_app. cbn [length]. lia.
Qed.

Lemma name_char_facts c :
  is_name_char c = true ->
  is_space c = false /\ ch_eqb c slash = false /\ ch_eqb "!" c = false
  /\ ch_eqb slash c = false /\ ch_eqb c gt_char = false.
Proof.
  destruct c as [[] [] [] [] [] [] [] []]; cbv; intros H;
    first [discriminate H | repeat split].
Qed.

Lemma good_tag_facts tg :
  good_tag tg = true ->
  (exists c tg', tg = c :: tg' /\ is_name_char c = true)
  /\ (exists s d, tg = s ++ [d] /\ is_name_char d = true)
  /\ forallb is_name_char tg = true
  /\ toLowerCase tg = tg
  /\ str_eqb tg (lit "script") || str_eqb tg (lit "style") = false.
Proof.
  unfold good_tag. intros H.
  apply andb_true_iff in H as [H Hstyle]. apply andb_true_iff in H as [H Hscript].
  apply andb_true_iff in H as [Hne Hall].
  assert (Hn : forallb is_name_char tg = true).
  { eapply forallb_imp; [|exact Hall]. cbn beta. intros x Hx.
    apply andb_true_iff in Hx as [Hx _]. exact Hx. }
  split; [|split; [|split; [exact Hn|split]]].
  - destruct tg as [|c tg']; [discriminate|]. exists c, tg'. split; [reflexivity|].
    cbn in Hn. apply andb_true_iff in Hn as [Hc _]. exact Hc.
  - assert (Hnil : tg <> []) by (destruct tg; [discriminate | congruence]).
    destruct (exists_last Hnil) as (s & d & Ed).
    exists s, d. split; [exact Ed|].
    rewrite Ed, forallb_app in Hn. apply andb_true_iff in Hn as [_ Hc].
    cbn in Hc. rewrite andb_true_r in Hc. exact Hc.
  - apply toLowerCase_id. eapply forallb_imp; [|exact Hall]. cbn beta.
    intros x Hx. apply andb_true_iff in Hx as [_ Hx]. exact Hx.
  - apply negb_true_iff in Hstyle, Hscript. rewrite Hstyle, Hscript. reflexivity.
Qed.

(** The second half of an iteration on a printed closing tag. *)
Lemma tokenize_tag_close html lt gt tg tokens :
  good_tag tg = true ->
  tokenize_tag html lt gt (trim (slash :: tg)) tokens
  = Continue (gt + 1) (push tokens (close_token tg)).
Proof.
  intros Hg.
  destruct (good_tag_facts tg Hg) as ((c & tg' & Ec & Hc) & (s & d & Ed & Hd) & _ & Hlow & _).
  destruct (name_char_facts c Hc) as (Hcs & _).
  destruct (name_char_facts d Hd) as (Hds & _).
  assert (Ht1 : trim (slash :: tg) = slash :: tg).
  { apply (trim_id slash tg d eq_refl Hds (slash :: s)). rewrite Ed. reflexivity. }
  assert (Ht2 : trim tg = tg).
  { rewrite Ec. apply (trim_id c tg' d Hcs Hds s). rewrite <- Ec. exact Ed. }
  rewrite Ht1. unfold tokenize_tag.
  change (startsWith (slash :: tg) (lit "!--")) with false.
  change (startsWith (slash :: tg) (lit "!")) with false. cbv iota.
  rewrite startsWith_char. change (ch_eqb slash slash) with true. cbv iota.
  change (sliceFrom (slash :: tg) 1) with tg. cbv zeta.
  rewrite Ht2, Hlow. rewrite Ec at 1. reflexivity.
Qed.

Lemma attrs_no_gt m :
  good_attrs m = true ->
  forallb (fun c => negb (ch_eqb c gt_char)) (attrs_to_string m) = true.
Proof.
  unfold good_attrs. intros H. apply andb_true_iff in H as [_ H].
  rewrite attrs_to_string_render.
  assert (Hr : forallb (fun c => negb (ch_eqb c gt_char)) (render m) = true).
  { induction m as [|[k v] m IH]; [reflexivity|].
    cbn [forallb fst snd] in H. apply andb_true_iff in H as [Hkv H].
    apply andb_true_iff in Hkv as [Hk Hv].
    destruct (good_attr_name_facts k Hk) as (_ & _ & _ & Hkg).
    destruct (good_attr_value_facts v Hv) as (_ & Hvg).
    rewrite render_cons. rewrite forallb_app, Hkg. cbn [forallb andb].
    change (negb (ch_eqb equals gt_char)) with true.
    change (negb (ch_eqb dquote gt_char)) with true. cbn [andb].
    rewrite forallb_app, Hvg. cbn [forallb andb].
    change (negb (ch_eqb dquote gt_char)) with true. cbn [andb].
    destruct m as [|kv m]; [reflexivity|]. cbn [forallb].
    change (negb (ch_eqb " " gt_char)) with true. cbn [andb]. apply IH. exact H. }
  destruct m; [reflexivity|]. cbn [forallb]. rewrite Hr. reflexivity.
Qed.

(** The second half of an iteration on a printed opening tag. *)
Lemma tokenize_tag_open html lt gt tg at_ tokens :
  good_tag tg = true -> good_attrs at_ = true ->
  tokenize_tag html lt gt (trim (tg ++ attrs_to_string at_)) tokens
  = Continue (gt + 1) (push tokens (tag_token (is_void tg) tg at_)).
Proof.
  intros Hg Ha.
  destruct (good_tag_facts tg Hg)
    as ((c & tg' & Ec & Hc) & (s & d & Ed & Hd) & Hn & Hlow & Hss).
  destruct (name_char_facts c Hc) as (Hcs & _ & Hcb & Hcsl & _).
  destruct (name_char_facts d Hd) as (Hds & Hdsl & _).
  (* the tag body ends in a name character or in a quote *)
  assert (Hend : exists s' e, tg ++ attrs_to_string at_ = s' ++ [e]
                              /\ is_space e = false /\ ch_eqb e slash = false).
  { rewrite attrs_to_string_render. destruct at_ as [|kv at_].
    - exists s, d. rewrite app_nil_r. auto.
    - destruct (render_ends (kv :: at_)) as [s' Hs']; [discriminate|].
      exists (tg ++ " "%char :: s'), dquote. rewrite Hs'.
      rewrite <- app_assoc. auto. }
  destruct Hend as (s' & e & Hbody & Hes & Hesl).
  assert (Htrim : trim (tg ++ attrs_to_string at_) = tg ++ attrs_to_string at_).
  { rewrite Ec. cbn [app]. apply (trim_id c _ e Hcs Hes s').
    rewrite <- Hbody, Ec. reflexivity. }
  rewrite Htrim. unfold tokenize_tag.
  assert (Hst : forall p ps, ch_eqb p c = false ->
                startsWith (tg ++ attrs_to_string at_) (p :: ps) = false).
  { intros p ps Hp. rewrite Ec. cbn [app startsWith]. rewrite Hp. reflexivity. }
  change (lit "!--") with ["!"%char; "-"%char; "-"%char].
  change (lit "!") with ["!"%char].
  rewrite !(Hst "!"%char) by assumption.
  rewrite (Hst slash) by assumption.
  unfold match_name.
  rewrite (span_all is_name_char tg (attrs_to_string at_)); [|assumption|].
  2:{ rewrite attrs_to_string_render. destruct at_; [exact I | reflexivity]. }
  cbn [fst]. rewrite Ec at 1. rewrite <- Ec. cbv zeta. rewrite Hlow, Hss.
  unfold sliceFrom. rewrite drop_app_length.
  rewrite (good_attrs_parse at_ Ha).
  rewrite Hbody. destruct (slash_end_none s' e Hes Hesl) as [-> _].
  reflexivity.
Qed.

Lemma toString_element r tg at_ ch p :
  toString (mkNode r tg at_ ch [] p)
  = lt_char :: (tg ++ attrs_to_string at_)
      ++ gt_char :: join (map toString ch)
      ++ lt_char :: (slash :: tg) ++ [gt_char].
Proof.
  cbn [toString Dom.text Dom.tag Dom.attrs children].
  change (lit "<") with [lt_char]. change (lit ">") with [gt_char].
  change (lit "</") with [lt_char; slash].
  cbn [app]. rewrite <- !app_assoc. reflexivity.
Qed.

Lemma forallb_plain_inv k kids :
  forallb plain (k :: kids) = true -> plain k = true /\ forallb plain kids = true.
Proof. cbn. apply andb_true_iff. Qed.

Lemma plain_text_facts k :
  plain k = true -> is_text k = true ->
  toString k = Dom.text k /\ tokens_of k = [text_token (Dom.text k)]
  /\ Dom.text k <> []
  /\ forallb (fun c => negb (ch_eqb c lt_char)) (Dom.text k) = true.
Proof.
  destruct k as [r tg at_ ch tx p]. unfold is_text.
  cbn [plain tokens_of toString Dom.text Dom.tag Dom.attrs children].
  destruct tx as [|x tx]; [discriminate|]. intros Hp _.
  apply andb_true_iff in Hp as [Hp _]. apply andb_true_iff in Hp as [Hp _].
  apply andb_true_iff in Hp as [Hp _]. unfold good_text in Hp.
  apply andb_true_iff in Hp as [_ Hp]. repeat split; [discriminate | exact Hp].
Qed.

(** The markup of a sequence of plain children, followed by [post]: the
    loop goes through the elements, and is left before the text
    [pending] of a last text leaf, with the tokens of everything before
    it. *)
Lemma forest_tokenizes kids :
  Forall (fun k => plain k = true -> is_text k = false -> tokenizes k) kids ->
  forallb plain kids = true -> no_adjacent_text kids = true ->
  forall pre txt post tokens (R : option (list Token)),
    forallb (fun c => negb (ch_eqb c lt_char)) txt = true ->
    (txt <> [] -> match kids with k :: _ => is_text k = false | [] => True end) ->
    (forall pre' pending tokens',
       forallb (fun c => negb (ch_eqb c lt_char)) pending = true ->
       pre' ++ pending = pre ++ txt ++ join (map toString kids) ->
       tokens' ++ push_text [] pending
       = tokens ++ push_text [] txt ++ concat (map tokens_of kids) ->
       tokenize_split pre' (pending ++ post) tokens' = R) ->
    tokenize_split pre (txt ++ join (map toString kids) ++ post) tokens = R.
Proof.
  induction 1 as [|k kids Hk _ IH]; intros Hplain Hadj pre txt post tokens R Htxt Hfirst K.
  - cbn [map join concat app]. apply K; [assumption| |].
    + rewrite app_nil_r. reflexivity.
    + rewrite app_nil_r. reflexivity.
  - apply forallb_plain_inv in Hplain as [Hpk Hplain].
    assert (Hadj' : no_adjacent_text kids = true).
    { cbn [no_adjacent_text] in Hadj. destruct kids; [reflexivity|].
      apply andb_true_iff in Hadj as [_ Hadj]. exact Hadj. }
    unfold join. cbn [map concat]. fold (join (map toString kids)).
    destruct (is_text k) eqn:Htk.
    + (* a text leaf: it becomes the pending text *)
      destruct txt as [|c txt]; [|specialize (Hfirst ltac:(discriminate)); discriminate].
      destruct (plain_text_facts k Hpk Htk) as (Hs & Ht & Hne & Hnolt).
      rewrite Hs. cbn [app]. rewrite <- app_assoc.
      apply (IH Hplain Hadj' pre (Dom.text k) post tokens R Hnolt).
      * intros _. cbn [no_adjacent_text] in Hadj. destruct kids as [|k2 kids]; [exact I|].
        apply andb_true_iff in Hadj as [Hadj _]. rewrite Htk in Hadj.
        cbn in Hadj. apply negb_true_iff in Hadj. exact Hadj.
      * intros pre' pending tokens' Hp Hstr Htok. apply K; [assumption| |].
        -- rewrite Hstr. unfold join. cbn [map concat app]. rewrite Hs.
           rewrite <- ?app_assoc. reflexivity.
        -- rewrite Htok. cbn [map concat push_text app]. rewrite Ht.
           destruct (Dom.text k); [congruence|]. reflexivity.
    + (* an element: the loop tokenizes it together with the text before *)
      specialize (Hk Hpk eq_refl).
      rewrite <- (app_assoc (toString k)).
      rewrite (Hk pre txt (join (map toString kids) ++ post) tokens Htxt).
      apply (IH Hplain Hadj' (pre ++ txt ++ toString k) [] post
                (push_text tokens txt ++ tokens_of k) R eq_refl).
      * intros Hne. congruence.
      * intros pre' pending tokens' Hp Hstr Htok. apply K; [assumption| |].
        -- rewrite Hstr. unfold join. cbn [map concat app].
           rewrite <- !app_assoc. reflexivity.
        -- rewrite Htok. cbn [map concat push_text app].
           rewrite (push_text_app tokens txt), <- !app_assoc. reflexivity.
Qed.

Lemma plain_tokenizes t : plain t = true -> is_text t = false -> tokenizes t.
Proof.
  induction t as [r tg at_ ch tx p IH] using Node_ind. intros Hp Htext.
  unfold is_text in Htext. cbn [Dom.text] in Htext.
  destruct tx as [|x tx]; [|discriminate].
  cbn [plain Dom.text Dom.tag Dom.attrs children] in Hp.
  apply andb_true_iff in Hp as [Hp Hadj]. apply andb_true_iff in Hp as [Hp Hall].
  apply andb_true_iff in Hp as [Hp _]. apply andb_true_iff in Hp as [Hgt Hga].
  intros pre txt post tokens Htxt.
  rewrite toString_element.
  cbn [tokens_of Dom.text Dom.tag Dom.attrs children].
  set (body := tg ++ attrs_to_string at_).
  set (kids := join (map toString ch)).
  destruct (good_tag_facts tg Hgt) as (_ & _ & Hn & _ & _).
  assert (Hbody : forallb (fun c => negb (ch_eqb c gt_char)) body = true).
  { unfold body. rewrite forallb_app, (attrs_no_gt at_ Hga), andb_true_r.
    eapply forallb_imp; [|exact Hn]. cbn beta. intros c Hc.
    destruct (name_char_facts c Hc) as (_ & _ & _ & _ & ->). reflexivity. }
  assert (Hclose : forallb (fun c => negb (ch_eqb c gt_char)) (slash :: tg) = true).
  { cbn [forallb]. change (negb (ch_eqb slash gt_char)) with true. cbn [andb].
    eapply forallb_imp; [|exact Hn]. cbn beta. intros c Hc.
    destruct (name_char_facts c Hc) as (_ & _ & _ & _ & ->). reflexivity. }
  (* the opening tag *)
  replace (txt ++ (lt_char :: body ++ gt_char :: kids
                   ++ lt_char :: (slash :: tg) ++ [gt_char]) ++ post)
    with (txt ++ lt_char :: body ++ gt_char
              :: ([] ++ kids ++ lt_char :: (slash :: tg) ++ gt_char :: post)).
  2:{ list_norm. reflexivity. }
  rewrite (tokenize_split_tag pre txt body _ tokens
             (push (push_text tokens txt) (tag_token (is_void tg) tg at_)) Htxt Hbody).
  2:{ intros html lt gt. apply tokenize_tag_open; assumption. }
  (* the children, then the closing tag *)
  apply (forest_tokenizes ch IH Hall Hadj); [reflexivity | congruence |].
  intros pre' pending tokens' Hpend Hstr Htok.
  rewrite (tokenize_split_tag pre' pending (slash :: tg) post tokens'
             (push (push_text tokens' pending) (close_token tg)) Hpend Hclose).
  2:{ intros html lt gt. apply tokenize_tag_close; assumption. }
  f_equal.
  - rewrite app_assoc, Hstr. fold kids. list_norm. reflexivity.
  - unfold push. rewrite (push_text_app tokens' pending), Htok.
    cbn [push_text]. unfold push. list_norm. reflexivity.
Qed.

(** Tokenizing the markup of a plain subtree gives its tokens. *)
Lemma tokenize_toString t : plain t = true -> tokenize (toString t) = tokens_of t.
Proof.
  intros Hp. unfold tokenize.
  assert (Hfrom : tokenize_loop (length (toString t)) (toString t) 0 []
                  = tokenize_split [] (toString t) []).
  { unfold tokenize_split, tokenize_from. cbn [app length].
    rewrite Nat.sub_0_r. reflexivity. }
  rewrite Hfrom. destruct (is_text t) eqn:Ht.
  - destruct (plain_text_facts t Hp Ht) as (Hs & Htok & Hne & Hnolt).
    rewrite Hs, Htok. unfold tokenize_split. cbn [app length].
    rewrite tokenize_from_step by (destruct (Dom.text t); [congruence | cbn; lia]).
    unfold tokenize_body, indexOf. rewrite ?Nat.min_0_l. cbn [Nat.min drop].
    rewrite find_from_none by assumption. unfold sliceFrom. cbn [drop default].
    destruct (Dom.text t); [congruence | reflexivity].
  - pose proof (plain_tokenizes t Hp Ht [] [] [] [] eq_refl) as Hk.
    cbn [app push_text] in Hk. rewrite app_nil_r in Hk. rewrite Hk.
    unfold tokenize_split. rewrite tokenize_from_end by (rewrite app_nil_r; lia).
    reflexivity.
Qed.

(** C6, as the specification states it, fails.  The tree parsed from
    [<p>a<>b</p>] (no comment, doctype, script or style in it) has two text
    leaves in a row, which print as one text; and an attribute value with
    a double quote in it prints inside double quotes.  Neither tree comes
    back. *)
Lemma round_trip_counterexample :
  let t1 := hd dummy (children (Parser.root (parseHTML (lit "<p>a<>b</p>")))) in
  let t2 := hd dummy (children (Parser.root
                                  (parseHTML (lit "<p title='" ++ dquote :: lit "'>x</p>")))) in
  toString t1 = lit "<p>ab</p>"
  /\ map shape (children (reparse t1)) <> [shape t1]
  /\ JsMap.get (Dom.attrs t2) (lit "title") = Some [dquote]
  /\ map shape (children (reparse t2)) <> [shape t2].
Proof.
  cbv zeta. split; [|split; [|split]].
  - vm_compute. reflexivity.
  - vm_compute. discriminate.
  - vm_compute. reflexivity.
  - vm_compute. discriminate.
Qed.

(** C6, amended: a plain subtree (see [plain]) comes back from the round
    trip: the tree built from the tokens of its markup is the document
    with one child, which has the tag, attribute and text structure of the
    subtree. *)
Theorem plain_subtree_round_trip (t : Node) :
  plain t = true -> map shape (children (reparse t)) = [shape t].
Proof.
  intros Hp. unfold reparse. rewrite (tokenize_toString t Hp).
  apply buildTree_tokens_of. exact Hp.
Qed.

Lemma plain_subtree_round_trip_witness :
  let t := hd dummy (children (Parser.root (parseHTML
             (lit "<div class='a b' id=x><br><span>Hi</span>text<b>Bye</b> tail<img src=x></div>")))) in
  map shape (children (reparse t)) = [shape t].
Proof.
  cbv zeta. apply plain_subtree_round_trip. vm_compute. reflexivity.
Defined.

(** ** The examples of the specification, run on the embedding *)

(** [div span] on [<div class="a"><span>Hi</span><b>Bye</b></div>] finds
    one node, with the text [Hi]. *)
Example select_div_span :
  map (fun el => text el)
      (doc_select (parseHTML (lit "<div class=a><span>Hi</span><b>Bye</b></div>"))
                  (lit "div span"))
  = [lit "Hi"].
Proof. vm_compute. reflexivity. Qed.

(** A node with the classes [a b c] matches [.a], [.b] and [.c], and not
    [.d]; [[data-x=1]] matches that value only, [[data-x]] any value. *)
Example class_and_attribute_selectors :
  let doc := parseHTML (lit "<p class='a b c' data-x=1>x</p><p data-x=''>y</p>") in
  map (fun s => length (doc_select doc (lit s)))
      [".a"; ".b"; ".c"; ".d"; "[data-x=1]"; "[data-x]"]%string
  = [1; 1; 1; 0; 1; 2].
Proof. vm_compute. reflexivity. Qed.

(** A void tag tokenizes as self-closing, and does not open an element:
    the text after it is its sibling. *)
Example void_tag_is_self_closing :
  map Tokenizer.type (tokenize (lit "<p><br>x</p>"))
  = [TOpen; TSelfClosing; TText; TClose]
  /\ map (fun n => length (children n))
         (children (Parser.root (parseHTML (lit "<p><br>x</p>"))))
     = [2].
Proof. split; vm_compute; reflexivity. Qed.

(** A multiple field on [li] yields the texts in order; a single field
    without a match yields its default, or null. *)
Example extract_fields :
  let doc := parseHTML (lit "<ul><li>1</li><li>2</li></ul>") in
  extract doc
    [(lit "items", MultipleField (lit "li") (Some (lit "text")) None None None);
     (lit "title", SingleField (lit "h1") None (Some (VString (lit "N/A"))) None);
     (lit "note", SingleField (lit "h2") None None None);
     (lit "rows", NestedField (lit "tr") [] (Some true) None)]
  = Ok (VObject
          [(lit "items", VArray [VString (lit "1"); VString (lit "2")]);
           (lit "title", VString (lit "N/A"));
           (lit "note", VNull);
           (lit "rows", VArray [])]).
Proof. vm_compute. reflexivity. Qed.

(** ** The meaning of a selector *)

Import QuerySpec.

Lemma reaches_last part root n :
  reaches [part] root n <-> n ∈ descendants root /\ selects part n = true.
Proof. reflexivity. Qed.

Lemma reaches_more part p2 rest root n :
  reaches (part :: p2 :: rest) root n
  <-> exists m, m ∈ descendants root /\ selects part m = true
                /\ reaches (p2 :: rest) m n.
Proof. reflexivity. Qed.

Lemma elem_of_concat_rev_map {A B} (f : A -> list B) (l : list A) (y : B) :
  y ∈ concat (rev (map f l)) <-> exists x, x ∈ l /\ y ∈ f x.
Proof.
  rewrite list_elem_of_In, in_concat. split.
  - intros (ys & Hys & Hy). apply in_rev, in_map_iff in Hys as (x & <- & Hx).
    exists x. rewrite !list_elem_of_In. auto.
  - intros (x & Hx & Hy). exists (f x).
    apply list_elem_of_In in Hx. apply list_elem_of_In in Hy.
    split; [|assumption]. apply -> in_rev. apply in_map. assumption.
Qed.

(** The visit order lists exactly the nodes that the fragments from
    [index] on lead to. *)
Lemma found_reaches parts node :
  forall index n,
    n ∈ found parts node index <-> reaches (drop index parts) node n.
Proof.
  induction node as [r t a ch tx p IH] using Node_ind. intros index n.
  rewrite found_unfold. cbn [children].
  destruct (parts !! index) as [part|] eqn:Hp.
  2:{ apply lookup_ge_None in Hp. rewrite drop_ge by lia. simpl.
      split; [inversion 1 | tauto]. }
  rewrite (drop_S _ _ _ Hp). cbn zeta.
  rewrite elem_of_app, elem_of_concat_rev_map.
  assert (Hdesc : forall m, m ∈ descendants (mkNode r t a ch tx p)
                   <-> m ∈ ch \/ exists c, c ∈ ch /\ m ∈ descendants c).
  { intros m. rewrite elem_of_descendants. cbn [children]. unfold subnodes. split.
    - intros (c & Hc & Hm). apply elem_of_cons in Hm as [-> | Hm]; eauto.
    - intros [Hm | (c & Hc & Hm)].
      + exists m. split; [assumption | left].
      + exists c. split; [assumption | right; assumption]. }
  rewrite Forall_forall in IH.
  destruct (Nat.eqb_spec (index + 1) (length parts)) as [Hlast | Hmore].
  - assert (Hd : drop (S index) parts = []) by (apply drop_ge; lia).
    rewrite Hd. rewrite reaches_last, Hdesc. cbn [negb]. split.
    + intros [Hn | (c & Hc & Hn)].
      * apply list_elem_of_In, filter_In in Hn as [Hn Hs].
        apply list_elem_of_In in Hn. auto.
      * rewrite andb_false_r, app_nil_r in Hn.
        apply (IH c Hc) in Hn. rewrite (drop_S _ _ _ Hp), Hd in Hn.
        destruct Hn as [Hn Hs]. split; [right; eauto | assumption].
    + intros [[Hn | (c & Hc & Hn)] Hs].
      * left. apply list_elem_of_In, filter_In. rewrite <- list_elem_of_In. auto.
      * right. exists c. split; [assumption|].
        rewrite andb_false_r, app_nil_r. apply (IH c Hc).
        rewrite (drop_S _ _ _ Hp), Hd. split; assumption.
  - pose proof (lookup_lt_Some _ _ _ Hp) as Hlt.
    destruct (drop (S index) parts) as [|p2 rest] eqn:Hd.
    { apply (f_equal length) in Hd. rewrite length_drop in Hd. simpl in Hd. lia. }
    rewrite reaches_more. cbn [negb]. split.
    + intros [Hn | (c & Hc & Hn)]; [inversion Hn|].
      apply elem_of_app in Hn as [Hn | Hn].
      * apply (IH c Hc) in Hn. rewrite (drop_S _ _ _ Hp), Hd, reaches_more in Hn.
        destruct Hn as (m & Hm & Hs & Hr). exists m.
        split; [apply Hdesc; right; eauto | auto].
      * rewrite andb_true_r in Hn. destruct (selects part c) eqn:Hs; [|inversion Hn].
        apply (IH c Hc) in Hn. replace (index + 1) with (S index) in Hn by lia.
        rewrite Hd in Hn. exists c. split; [apply Hdesc; left; assumption | auto].
    + intros (m & Hm & Hs & Hr). right.
      apply Hdesc in Hm as [Hm | (c & Hc & Hm)].
      * exists m. split; [assumption|]. apply elem_of_app. right.
        rewrite andb_true_r, Hs. apply (IH m Hm).
        replace (index + 1) with (S index) by lia. rewrite Hd. assumption.
      * exists c. split; [assumption|]. apply elem_of_app. left.
        apply (IH c Hc). rewrite (drop_S _ _ _ Hp), Hd, reaches_more. eauto.
Qed.

Lemma sublist_map {A B} (f : A -> B) (l1 l2 : list A) :
  sublist l1 l2 -> sublist (map f l1) (map f l2).
Proof. induction 1; simpl; constructor; auto. Qed.

Lemma subnodes_sublist n :
  forall m, m ∈ subnodes n -> sublist (subnodes m) (subnodes n).
Proof.
  induction n as [r t a ch tx p IH] using Node_ind. intros m Hm.
  apply elem_of_cons in Hm as [-> | Hm]; [reflexivity|].
  unfold subnodes at 2. apply sublist_cons.
  rewrite descendants_unfold. cbn [children].
  rewrite descendants_unfold in Hm. cbn [children] in Hm.
  induction ch as [|c ch IHch]; [inversion Hm|].
  apply Forall_cons in IH as [IHc IH]. cbn [map concat] in *.
  apply elem_of_app in Hm as [Hm | Hm].
  - apply sublist_inserts_r. apply IHc. assumption.
  - apply sublist_inserts_l. apply IHch; assumption.
Qed.

Lemma unique_refs_subnode n m :
  unique_refs n -> m ∈ subnodes n -> unique_refs m.
Proof.
  unfold unique_refs. intros Hn Hm.
  assert (Hsub : sublist (map ref (subnodes m)) (map ref (subnodes n)))
    by (apply (sublist_map ref), subnodes_sublist; assumption).
  exact (sublist_NoDup _ _ Hn Hsub).
Qed.

Lemma found_single_perm part node :
  found [part] node 0 ≡ₚ List.filter (selects part) (descendants node).
Proof.
  induction node as [r t a ch tx p IH] using Node_ind.
  rewrite found_unfold, descendants_unfold. cbn [children lookup list_lookup].
  cbn zeta. cbn [length Nat.add Nat.eqb negb].
  induction ch as [|c ch IHch]; [reflexivity|].
  apply Forall_cons in IH as [IHc IH]. specialize (IHch IH).
  cbn [map rev concat]. rewrite concat_app. cbn [concat].
  rewrite andb_false_r, !app_nil_r. rewrite List.filter_app.
  unfold subnodes at 1. cbn [List.filter].
  destruct (selects part c); cbn [app]; rewrite <- IHch, <- IHc.
  - constructor. rewrite (Permutation_app_comm _ (found [part] c 0)).
    rewrite Permutation_app_swap_app. reflexivity.
  - rewrite (Permutation_app_comm _ (found [part] c 0)).
    rewrite Permutation_app_swap_app. reflexivity.
Qed.

(** X1: on every node of a parsed document, the selector engine lists
    exactly the nodes that the chain of fragments leads to: a node is in
    the result if and only if the last fragment selects it, the fragment
    before selects one of its proper ancestors, and so on up to a proper
    descendant of the node the query starts from. *)
Theorem select_lists_what_the_chain_reaches
    (html S : str) (start n : Node) :
  start ∈ subnodes (Parser.root (Parser.parseHTML html)) ->
  n ∈ querySelectorAll start S <-> reaches (split_ws (trim S)) start n.
Proof.
  intros Hs.
  pose proof (unique_refs_subnode _ _ (parsed_unique_refs html) Hs) as Hu.
  rewrite (query_found _ _ Hu), found_reaches. reflexivity.
Qed.

Lemma select_lists_what_the_chain_reaches_witness :
  let doc := Parser.root (Parser.parseHTML
               (lit "<ul class=nav><li><a href=x>1</a></li></ul><a>2</a>")) in
  let n := hd dummy (querySelectorAll doc (lit ".nav a")) in
  map getText (querySelectorAll doc (lit ".nav a")) = [lit "1"]
  /\ reaches [lit ".nav"; lit "a"] doc n.
Proof.
  cbv zeta. split; [vm_compute; reflexivity|].
  apply (select_lists_what_the_chain_reaches
           (lit "<ul class=nav><li><a href=x>1</a></li></ul><a>2</a>")
           (lit ".nav a")).
  - left.
  - vm_compute. left.
Defined.

(** X2: a selector of one fragment lists every proper descendant that
    the fragment selects, each exactly once (in the visit order of the
    engine). *)
Theorem single_fragment_lists_each_match_once
    (html S part : str) (start : Node) :
  start ∈ subnodes (Parser.root (Parser.parseHTML html)) ->
  split_ws (trim S) = [part] ->
  querySelectorAll start S ≡ₚ List.filter (selects part) (descendants start)
  /\ NoDup (map ref (querySelectorAll start S)).
Proof.
  intros Hs Hp.
  pose proof (unique_refs_subnode _ _ (parsed_unique_refs html) Hs) as Hu.
  rewrite (query_found _ _ Hu), Hp.
  split; [apply found_single_perm|].
  rewrite found_single_perm.
  assert (Hsub : sublist (map ref (List.filter (selects part) (descendants start)))
                        (map ref (descendants start))).
  { apply (sublist_map ref). clear. induction (descendants start) as [|x l IH]; simpl.
    - constructor.
    - destruct (selects part x); [apply sublist_skip | apply sublist_cons]; exact IH. }
  exact (sublist_NoDup _ _ (NoDup_cons_1_2 _ _ Hu) Hsub).
Qed.

Lemma single_fragment_lists_each_match_once_witness :
  let doc := Parser.root (Parser.parseHTML
               (lit "<div><span>A</span></div><span>B</span>")) in
  querySelectorAll doc (lit " span ")
    ≡ₚ List.filter (selects (lit "span")) (descendants doc)
  /\ NoDup (map ref (querySelectorAll doc (lit " span "))).
Proof.
  cbv zeta.
  apply (single_fragment_lists_each_match_once
           (lit "<div><span>A</span></div><span>B</span>")).
  - left.
  - vm_compute. reflexivity.
Defined.

(** X26: [title()] of a parsed document is the trimmed text of a
    [title] element of the document: the empty string when the document
    has none, the text of the element when it has exactly one, and the
    text of one of them otherwise. *)
Theorem title_is_the_text_of_a_title_element (html : str) :
  let doc := Parser.parseHTML html in
  let titles := List.filter (selects (lit "title")) (descendants (Parser.root doc)) in
  (titles = [] -> Parser.title doc = [])
  /\ (forall t, titles = [t] -> Parser.title doc = trim (getText t))
  /\ (titles <> [] ->
      exists t, t ∈ titles /\ Parser.title doc = trim (getText t)).
Proof.
  cbv zeta.
  pose proof (parsed_unique_refs html) as Hu.
  pose proof (found_single_perm (lit "title") (Parser.root (Parser.parseHTML html)))
    as Hperm.
  assert (Hq : querySelectorAll (Parser.root (Parser.parseHTML html)) (lit "title")
               = found [lit "title"] (Parser.root (Parser.parseHTML html)) 0).
  { rewrite (query_found _ _ Hu). reflexivity. }
  cbn [Parser.title Parser.DocumentWrapper_DocumentQuery]. rewrite Hq.
  split; [|split].
  - intros Hno. rewrite Hno in Hperm. apply Permutation_nil_r in Hperm.
    rewrite Hperm. reflexivity.
  - intros t Ht. rewrite Ht in Hperm. apply Permutation_singleton_r in Hperm.
    rewrite Hperm. reflexivity.
  - intros Hne.
    destruct (found [lit "title"] (Parser.root (Parser.parseHTML html)) 0)
      as [|t l] eqn:Ef.
    + apply Permutation_nil_l in Hperm. congruence.
    + exists t. split; [|reflexivity]. rewrite <- Hperm. left.
Qed.

(** ** The extraction engine: the shape of the result *)

Section ExtractorShape.
Context {E D : Type} `{QueryElement E} `{DocumentQuery D E}.

Lemma set_own_fresh obj key v :
  key ∉ map fst obj -> set_own obj key v = obj ++ [(key, v)].
Proof.
  induction obj as [|[k w] obj IH]; simpl; intros Hk; [reflexivity|].
  destruct (str_eqb k key) eqn:Ek.
  - apply str_eqb_eq in Ek. subst. exfalso. apply Hk. left.
  - rewrite IH; [reflexivity|]. intros Hin. apply Hk. right. assumption.
Qed.

(** A loop that assigns one property per field, in the order of the
    fields; the assignment to [__proto__] makes no property. *)
Lemma assign_loop_props (get : FieldSchema -> Result Value)
    (loop : Schema -> list (str * Value) -> Result Value) :
  (forall obj, loop [] obj = Ok (VObject obj)) ->
  (forall key f fields obj,
     loop ((key, f) :: fields) obj
     = (v <~ get f ;; loop fields (set_prop obj key v))) ->
  forall fields obj v,
    NoDup (map fst obj ++ map fst fields) ->
    loop fields obj = Ok v ->
    exists props,
      v = VObject (obj ++ props)
      /\ map fst props = map fst (own_fields fields)
      /\ Forall2 (fun kf kv => get (snd kf) = Ok (snd kv))
                 (own_fields fields) props.
Proof.
  intros Hnil Hcons. induction fields as [|[k f] fields IH]; intros obj v Hnd.
  - rewrite Hnil. intros [= <-]. exists []. rewrite app_nil_r.
    split; [reflexivity|]. split; [reflexivity|]. constructor.
  - rewrite Hcons. destruct (get f) as [w|m] eqn:Ef; simpl; [|discriminate].
    cbn [map fst] in Hnd. unfold own_fields, set_prop. cbn [List.filter fst].
    fold (own_fields fields).
    destruct (str_eqb k proto_key) eqn:Ep; cbn [negb].
    + apply IH. apply NoDup_app in Hnd as (Hobj & Hdis & Hrest).
      apply NoDup_cons in Hrest as [_ Hrest]. apply NoDup_app.
      split; [assumption|]. split; [|assumption].
      intros x Hx Hin. apply (Hdis x Hx). right. assumption.
    + assert (Hk : k ∉ map fst obj).
      { apply NoDup_app in Hnd as (_ & Hdis & _). intros Hin.
        apply (Hdis k Hin). left. }
      rewrite (set_own_fresh _ _ _ Hk). intros Hv.
      apply IH in Hv as (props & -> & Hkeys & Hvals).
      * exists ((k, w) :: props). rewrite <- app_assoc. cbn [app map fst].
        rewrite Hkeys. split; [reflexivity|]. split; [reflexivity|].
        constructor; assumption.
      * rewrite map_app, <- app_assoc. exact Hnd.
Qed.

Lemma extract_props doc schema v :
  NoDup (map fst schema) ->
  extract doc schema = Ok v ->
  exists props,
    v = VObject props
    /\ map fst props = map fst (own_fields schema)
    /\ Forall2 (fun kf kv => extractField (snd kf) (OfDocument doc) = Ok (snd kv))
               (own_fields schema) props.
Proof.
  intros Hnd Hv.
  destruct (assign_loop_props
              (fun f => match extractField f (OfDocument doc) with
                        | Ok w => Ok w
                        | Throw _ => Throw []
                        end)
              (fun fields obj =>
                 match extract_loop doc fields obj with
                 | Ok w => Ok w
                 | Throw _ => Throw []
                 end)) with (fields := schema) (obj := @nil (str * Value)) (v := v)
    as (props & -> & Hk & Hvals).
  - reflexivity.
  - intros key f fields obj. cbn [extract_loop].
    destruct (extractField f (OfDocument doc)); reflexivity.
  - exact Hnd.
  - unfold extract in Hv. rewrite Hv. reflexivity.
  - exists props. repeat split; [assumption|].
    eapply Forall2_impl; [exact Hvals|]. intros kf kv. cbn beta.
    destruct (extractField (snd kf) (OfDocument doc)); congruence.
Qed.

Lemma buildNestedObject_props fields el v :
  NoDup (map fst fields) ->
  buildNestedObject fields el = Ok v ->
  exists props,
    v = VObject props
    /\ map fst props = map fst (own_fields fields)
    /\ Forall2 (fun kf kv => extractField (snd kf) (OfElement el) = Ok (snd kv))
               (own_fields fields) props.
Proof.
  intros Hnd Hv.
  destruct (assign_loop_props
              (fun f => extractField f (OfElement el))
              (buildNestedObject_loop el)) with (fields := fields)
              (obj := @nil (str * Value)) (v := v)
    as (props & -> & Hk & Hvals); try reflexivity; try assumption.
  exists props. auto.
Qed.

Lemma own_fields_all (schema : Schema) :
  proto_key ∉ map fst schema -> own_fields schema = schema.
Proof.
  induction schema as [|[k f] schema IH]; intros Hno; [reflexivity|].
  unfold own_fields. cbn [List.filter fst]. fold (own_fields schema).
  destruct (str_eqb k proto_key) eqn:Ek.
  - apply str_eqb_eq in Ek. subst. exfalso. apply Hno. left.
  - cbn [negb]. rewrite IH; [reflexivity|]. intros Hin. apply Hno. right.
    assumption.
Qed.

Lemma map_result_Forall2 {A B} (f : A -> Result B) l ys :
  map_result f l = Ok ys -> Forall2 (fun x y => f x = Ok y) l ys.
Proof.
  revert ys. induction l as [|x l IH]; simpl; intros ys.
  - intros [= <-]. constructor.
  - destruct (f x) eqn:Ex; simpl; [|discriminate].
    destruct (map_result f l); simpl; [|discriminate].
    intros [= <-]. constructor; auto.
Qed.

(** X3: when [extract] returns, the result is an object with one
    property per field of the schema, under the field's key and in the
    order of the schema, and the property holds what the extraction of
    that field on the document returned.  The one exception is a field
    under the key [__proto__], which makes no property; a schema without
    that key gives a result with exactly the keys of the schema. *)
Theorem extract_result_follows_schema (doc : D) (schema : Schema) (v : Value) :
  NoDup (map fst schema) ->
  extract doc schema = Ok v ->
  exists props,
    v = VObject props
    /\ map fst props = map fst (own_fields schema)
    /\ Forall2 (fun kf kv =>
                  fst kv = fst kf
                  /\ extractField (snd kf) (OfDocument doc) = Ok (snd kv))
               (own_fields schema) props
    /\ (proto_key ∉ map fst schema -> map fst props = map fst schema)
    /\ proto_key ∉ map fst props.
Proof.
  intros Hnd Hv. destruct (extract_props doc schema v Hnd Hv) as (props & -> & Hk & Hvals).
  exists props. split; [reflexivity|]. split; [assumption|]. split; [|split].
  - clear Hnd Hv. revert props Hk Hvals.
    induction (own_fields schema) as [|kf own IH]; intros props Hk Hvals.
    + inversion Hvals. constructor.
    + inversion Hvals as [|? kv ? props' Hkv Hrest]; subst. cbn [map] in Hk.
      injection Hk as Hk1 Hk2. constructor; auto.
  - intros Hno. rewrite Hk, (own_fields_all _ Hno). reflexivity.
  - rewrite Hk. intros Hin. apply list_elem_of_In, in_map_iff in Hin
      as ([k f] & Hkey & Hf). cbn [fst] in Hkey. subst k.
    apply filter_In in Hf as [_ Hf]. cbn [fst] in Hf.
    rewrite str_eqb_refl in Hf. discriminate.
Qed.

(** X4: a nested field with [multiple] yields an array with one object
    per match that the limit keeps, in the order of the matches, each
    object built by [buildNestedObject] for its match; without [multiple]
    it yields null when [selectOne] returns nothing, and otherwise the
    object built for the element that [selectOne] returns.  Each object
    has the keys of the sub-schema, in its order, but for a key
    [__proto__]. *)
Theorem nested_field_yields_objects_of_the_sub_schema
    (selector : str) (fields : Schema) (multiple : option bool)
    (limit : option Z) (ctx : Ctx) (v : Value) :
  NoDup (map fst fields) ->
  extractField (NestedField selector fields multiple limit) ctx = Ok v ->
  if default false multiple then
    exists objs,
      v = VArray objs
      /\ Forall2 (fun el obj =>
                    buildNestedObject fields el = Ok obj
                    /\ exists props,
                         obj = VObject props
                         /\ map fst props = map fst (own_fields fields))
                 (limited limit (ctx_select ctx selector)) objs
  else
    match ctx_selectOne ctx selector with
    | None => v = VNull
    | Some el =>
        buildNestedObject fields el = Ok v
        /\ exists props,
             v = VObject props
             /\ map fst props = map fst (own_fields fields)
             /\ Forall2 (fun kf kv =>
                           extractField (snd kf) (OfElement el) = Ok (snd kv))
                        (own_fields fields) props
    end.
Proof.
  intros Hnd. rewrite extractField_nested. destruct (default false multiple).
  - unfold extractMultipleNested.
    destruct (map_result _ _) as [objs|] eqn:Emr; simpl; [|discriminate].
    intros [= <-]. exists objs. split; [reflexivity|].
    apply map_result_Forall2 in Emr.
    eapply Forall2_impl; [exact Emr|]. intros el obj Hobj. split; [assumption|].
    destruct (buildNestedObject_props fields el obj Hnd Hobj) as (props & -> & Hk & _).
    eauto.
  - unfold extractSingleNested. destruct (ctx_selectOne ctx selector) as [el|].
    + intros Hv. split; [exact Hv|].
      destruct (buildNestedObject_props fields el v Hnd Hv)
        as (props & -> & Hk & Hvals).
      eauto.
    + intros [= <-]. reflexivity.
Qed.

(** X5: the limit of a multiple field keeps a prefix of the matches:
    the first [limit] ones when it is positive, and all but the last
    [-limit] ones when it is negative; the array of a nested field has
    that length. *)
Theorem limit_keeps_a_prefix_of_the_matches
    (selector : str) (fields : Schema) (l : Z) (ctx : Ctx) (objs : list Value) :
  extractField (NestedField selector fields (Some true) (Some l)) ctx
  = Ok (VArray objs) ->
  let els := ctx_select ctx selector in
  limited (Some l) els `prefix_of` els
  /\ length objs = length (limited (Some l) els)
  /\ ((0 < l)%Z -> length objs = Z.to_nat l `min` length els)
  /\ ((l < 0)%Z -> length objs = length els - Z.to_nat (- l)).
Proof.
  intros Hv. cbv zeta.
  assert (Hlen : length objs = length (limited (Some l) (ctx_select ctx selector))).
  { rewrite extractField_nested in Hv. cbn [default] in Hv.
    unfold extractMultipleNested in Hv.
    destruct (map_result _ _) as [ys|] eqn:Emr; simpl in Hv; [|discriminate].
    injection Hv as ->. eapply map_result_length; eassumption. }
  split; [|split; [assumption|split]].
  - unfold limited, slice0. destruct (l =? 0)%Z; [reflexivity|].
    destruct (l <? 0)%Z; apply prefix_take.
  - intros Hl. rewrite Hlen. unfold limited, slice0.
    destruct (Z.eqb_spec l 0); [lia|]. destruct (Z.ltb_spec l 0); [lia|].
    rewrite length_take. reflexivity.
  - intros Hl. rewrite Hlen. unfold limited, slice0.
    destruct (Z.eqb_spec l 0); [lia|]. destruct (Z.ltb_spec l 0); [|lia].
    rewrite length_take. lia.
Qed.

End ExtractorShape.

Lemma extract_result_follows_schema_witness :
  let doc := parseHTML (lit "<h1>T</h1><ul><li>1</li><li>2</li></ul>") in
  let schema :=
    [(lit "title", SingleField (lit "h1") None None None);
     (lit "__proto__", SingleField (lit "h1") None None None);
     (lit "items", MultipleField (lit "li") None None None None)] in
  exists props,
    VObject [(lit "title", VString (lit "T"));
             (lit "items", VArray [VString (lit "1"); VString (lit "2")])]
    = VObject props
    /\ map fst props = map fst (own_fields schema)
    /\ Forall2 (fun kf kv =>
                  fst kv = fst kf
                  /\ extractField (snd kf) (OfDocument doc) = Ok (snd kv))
               (own_fields schema) props
    /\ (proto_key ∉ map fst schema -> map fst props = map fst schema)
    /\ proto_key ∉ map fst props.
Proof.
  cbv zeta. apply extract_result_follows_schema.
  - distinct_strings.
  - vm_compute. reflexivity.
Defined.

Lemma nested_field_yields_objects_of_the_sub_schema_witness :
  let doc := parseHTML (lit "<ul><li><b>1</b><i>x</i></li><li><b>2</b></li></ul>") in
  let fields :=
    [(lit "n", SingleField (lit "b") None None None);
     (lit "note", SingleField (lit "i") None None None)] in
  let first := VObject [(lit "n", VString (lit "1")); (lit "note", VString (lit "x"))] in
  let second := VObject [(lit "n", VString (lit "2")); (lit "note", VNull)] in
  (exists objs,
     VArray [first; second] = VArray objs
     /\ Forall2 (fun el obj =>
                   buildNestedObject fields el = Ok obj
                   /\ exists props,
                        obj = VObject props
                        /\ map fst props = map fst (own_fields fields))
                (limited None (ctx_select (OfDocument doc) (lit "li"))) objs)
  /\ match ctx_selectOne (OfDocument doc) (lit "li") with
     | None => first = VNull
     | Some el =>
         buildNestedObject fields el = Ok first
         /\ exists props,
              first = VObject props
              /\ map fst props = map fst (own_fields fields)
              /\ Forall2 (fun kf kv =>
                            extractField (snd kf) (OfElement el) = Ok (snd kv))
                         (own_fields fields) props
     end.
Proof.
  cbv zeta. split.
  - apply (nested_field_yields_objects_of_the_sub_schema
             (lit "li") _ (Some true) None (OfDocument _)).
    + distinct_strings.
    + vm_compute. reflexivity.
  - apply (nested_field_yields_objects_of_the_sub_schema
             (lit "li") _ None None (OfDocument _)).
    + distinct_strings.
    + vm_compute. reflexivity.
Defined.

Lemma limit_keeps_a_prefix_of_the_matches_witness :
  let doc := parseHTML (lit "<p>1</p><p>2</p><p>3</p>") in
  let els := ctx_select (OfDocument doc) (lit "p") in
  let objs := [VObject []; VObject []] in
  length els = 3
  /\ limited (Some (-1)%Z) els `prefix_of` els
  /\ length objs = length (limited (Some (-1)%Z) els)
  /\ ((0 < -1)%Z -> length objs = Z.to_nat (-1) `min` length els)
  /\ ((-1 < 0)%Z -> length objs = length els - Z.to_nat (- -1)).
Proof.
  cbv zeta. split; [vm_compute; reflexivity|].
  apply (limit_keeps_a_prefix_of_the_matches (lit "p") [] (-1)%Z (OfDocument _)).
  vm_compute. reflexivity.
Defined.

(** ** The transform helpers *)

Section TransformProperties.
Context {E D : Type} `{QueryElement E} `{DocumentQuery D E}.

(** X6: the transform of a multiple field is applied to the array of
    values, not to each value.  The helpers that expect a string take the
    array for a non-string, so such a field yields the fallback of the
    helper whatever the selector matches: the empty string for [trim] and
    [lowercase], false for [boolean], null for [int], and the empty array
    for [split]. *)
Theorem string_helper_on_a_multiple_field_yields_its_fallback
    (selector : str) (attr_name : option str) (dflt : option (list Value))
    (limit : option Z) (delimiter : str) (ctx : Ctx) :
  let field fn := MultipleField selector attr_name dflt (Some fn) limit in
  extractField (field Transform.trim) ctx = Ok (VString [])
  /\ extractField (field Transform.lowercase) ctx = Ok (VString [])
  /\ extractField (field Transform.boolean) ctx = Ok (VBool false)
  /\ extractField (field Transform.int) ctx = Ok VNull
  /\ extractField (field (Transform.split delimiter)) ctx = Ok (VArray []).
Proof. cbv zeta. repeat split. Qed.

(** X7: the default of a single field goes through the transform as
    well.  When nothing matches, a field with [transform.trim] yields the
    trimmed default when the default is a string, and the empty string
    otherwise, also when no default is configured: it never yields
    null. *)
Theorem unmatched_single_field_with_trim_yields_a_string
    (selector : str) (attr_name : option str) (dflt : option Value) (ctx : Ctx) :
  ctx_selectOne ctx selector = None ->
  extractField (SingleField selector attr_name dflt (Some Transform.trim)) ctx
  = Ok (VString (match dflt with
                 | Some (VString d) => trim d
                 | _ => []
                 end)).
Proof.
  intros Hno. cbn [extractField]. unfold extractSingleSimple. rewrite Hno.
  destruct dflt as [[]|]; reflexivity.
Qed.

End TransformProperties.

Lemma unmatched_single_field_with_trim_yields_a_string_witness :
  let doc := parseHTML (lit "<p>x</p>") in
  extractField (SingleField (lit "h1") None (Some (VNumber 0)) (Some Transform.trim))
               (OfDocument doc)
  = Ok (VString []).
Proof.
  cbv zeta.
  apply (unmatched_single_field_with_trim_yields_a_string
           (lit "h1") None (Some (VNumber 0)) (OfDocument _)).
  vm_compute. reflexivity.
Defined.

Lemma transform_chain_app fs gs v :
  Transform.chain (fs ++ gs) v = bind (Transform.chain fs v) (Transform.chain gs).
Proof.
  unfold Transform.chain. rewrite foldl_app.
  generalize (foldl (fun acc fn => bind acc fn) (Ok v) fs). intros r.
  destruct r as [w|m]; [reflexivity|]. simpl.
  induction gs as [|g gs IH]; [reflexivity | exact IH].
Qed.

(** X8: [transform.chain] applies the functions from left to right, each
    to the result of the one before; the chain of two lists put together
    is the chain of the second applied to the result of the chain of the
    first.  A function that throws ends the chain: the functions after it
    have no effect on the outcome, and a field with such a chain throws
    [Transform failed: ] followed by the message of that function. *)
Theorem chain_composes_and_stops_at_the_first_throw
    (pre post : list TransformFn) (f : TransformFn) (v w : Value) (C : str) :
  Transform.chain pre v = Ok w ->
  f w = Throw C ->
  Transform.chain (pre ++ f :: post) v = Throw C
  /\ safeTransform (Transform.chain (pre ++ f :: post)) v
     = Throw (lit "Transform failed: " ++ C)
  /\ (forall fs gs x,
        Transform.chain (fs ++ gs) x
        = bind (Transform.chain fs x) (Transform.chain gs))
  /\ (forall x, Transform.chain [] x = Ok x)
  /\ (forall g x, Transform.chain [g] x = g x).
Proof.
  intros Hpre Hf.
  assert (Hc : Transform.chain (pre ++ f :: post) v = Throw C).
  { rewrite transform_chain_app, Hpre. simpl.
    change (f :: post) with ([f] ++ post). rewrite transform_chain_app.
    unfold Transform.chain at 1. simpl. rewrite Hf. reflexivity. }
  split; [exact Hc|]. split; [unfold safeTransform; rewrite Hc; reflexivity|].
  split; [exact transform_chain_app|]. split; reflexivity.
Qed.

Lemma chain_composes_and_stops_at_the_first_throw_witness :
  Transform.chain ([Transform.trim] ++ (fun _ => Throw (lit "bad")) :: [Transform.int])
                  (VString (lit " 12 "))
  = Throw (lit "bad").
Proof.
  apply (chain_composes_and_stops_at_the_first_throw
           [Transform.trim] [Transform.int] (fun _ => Throw (lit "bad"))
           (VString (lit " 12 ")) (VString (lit "12")) (lit "bad")).
  - vm_compute. reflexivity.
  - reflexivity.
Defined.

Lemma digit_facts c :
  Transform.is_digit c = true ->
  is_space c = false /\ ch_eqb c "-" = false /\ ch_eqb c "+" = false.
Proof.
  destruct c as [[] [] [] [] [] [] [] []]; cbv; intros Hc;
    first [discriminate Hc | repeat split].
Qed.

Lemma filter_int_char_no_minus a :
  forallb (fun c => negb (ch_eqb c "-")) a = true ->
  List.filter Transform.is_int_char a = List.filter Transform.is_digit a.
Proof.
  induction a as [|c a IH]; simpl; [reflexivity|].
  intros Ha. apply andb_true_iff in Ha as [Hc Ha]. unfold Transform.is_int_char at 1.
  apply negb_true_iff in Hc. rewrite Hc, orb_false_r, (IH Ha). reflexivity.
Qed.

Lemma forallb_filter {A} (p : A -> bool) l : forallb p (List.filter p l) = true.
Proof.
  induction l as [|x l IH]; simpl; [reflexivity|].
  destruct (p x) eqn:Hx; simpl; [rewrite Hx|]; exact IH.
Qed.

Lemma parseInt10_digits ds rest :
  ds <> [] -> forallb Transform.is_digit ds = true ->
  match rest with [] => True | x :: _ => Transform.is_digit x = false end ->
  Transform.parseInt10 (ds ++ rest) = Some (Transform.decimal ds).
Proof.
  intros Hne Hds Hrest. unfold Transform.parseInt10.
  destruct ds as [|c ds]; [congruence|].
  pose proof Hds as Hall. cbn [forallb] in Hds. apply andb_true_iff in Hds as [Hc _].
  destruct (digit_facts c Hc) as (Hsp & Hm & Hp).
  cbn [app trimStart]. rewrite Hsp, Hm, Hp.
  change (c :: ds ++ rest) with ((c :: ds) ++ rest).
  rewrite (span_all _ _ _ Hall Hrest). reflexivity.
Qed.

(** X9: [transform.int] deletes every character that is neither a digit
    nor a minus sign before it reads the number, so the digits of a string
    without a minus sign are read as one number, whatever stands between
    them (a decimal point as well); a minus sign after the first digit
    ends the number.  A string without a digit yields null.  (Up to 15
    digits the number is the one JavaScript computes.) *)
Theorem int_joins_the_digits_up_to_a_minus (a rest : str) :
  forallb (fun c => negb (ch_eqb c "-")) a = true ->
  List.filter Transform.is_digit a <> [] ->
  length (List.filter Transform.is_digit a) <= 15 ->
  (rest = [] \/ exists r, rest = "-"%char :: r) ->
  Transform.int (VString (a ++ rest))
  = Ok (VNumber (Transform.decimal (List.filter Transform.is_digit a)))
  /\ (forall s, List.filter Transform.is_digit s = [] ->
                Transform.int (VString s) = Ok VNull).
Proof.
  intros Ha Hne _ Hrest. split.
  - unfold Transform.int. rewrite List.filter_app, (filter_int_char_no_minus a Ha).
    rewrite parseInt10_digits; [reflexivity | assumption | apply forallb_filter |].
    destruct Hrest as [-> | (r & ->)]; [exact I|]. reflexivity.
  - clear. intros s Hs. unfold Transform.int.
    assert (Hk : forallb (fun c => ch_eqb c "-") (List.filter Transform.is_int_char s) = true).
    { induction s as [|c s IH]; [reflexivity|]. cbn [List.filter] in *.
      unfold Transform.is_int_char at 1.
      destruct (Transform.is_digit c) eqn:Hd; [discriminate|]. cbn [orb].
      destruct (ch_eqb c "-") eqn:Hm; [|auto]. cbn [forallb]. rewrite Hm. auto. }
    destruct (List.filter Transform.is_int_char s) as [|c k]; [reflexivity|].
    cbn [forallb] in Hk. apply andb_true_iff in Hk as [Hc Hk].
    apply Ascii.eqb_eq in Hc. subst c.
    unfold Transform.parseInt10. cbn [trimStart]. change (is_space "-") with false.
    cbn iota. change (ch_eqb "-" "-") with true. cbn iota.
    destruct k as [|c k]; [reflexivity|].
    cbn [forallb] in Hk. apply andb_true_iff in Hk as [Hc _].
    apply Ascii.eqb_eq in Hc. subst c. reflexivity.
Qed.

Lemma int_joins_the_digits_up_to_a_minus_witness :
  Transform.int (VString (lit "v 12.5, " ++ lit "-3")) = Ok (VNumber 125)
  /\ (forall s, List.filter Transform.is_digit s = [] ->
                Transform.int (VString s) = Ok VNull).
Proof.
  apply (int_joins_the_digits_up_to_a_minus (lit "v 12.5, ") (lit "-3")).
  - vm_compute. reflexivity.
  - vm_compute. discriminate.
  - vm_compute. lia.
  - right. eexists. reflexivity.
Defined.

Lemma forallb_rev' {A} (p : A -> bool) l : forallb p (rev l) = forallb p l.
Proof.
  induction l as [|x l IH]; [reflexivity|]. cbn [rev forallb].
  rewrite forallb_app, IH. cbn. rewrite andb_true_r. apply andb_comm.
Qed.

Lemma join_with_cons d x l :
  l <> [] ->
  TransformSpec.join_with d (x :: l) = x ++ d ++ TransformSpec.join_with d l.
Proof. destruct l; [congruence | reflexivity]. Qed.

Lemma split_aux_char c s :
  forall cur,
    TransformSpec.lacks c cur = true ->
    let fields := Transform.split_aux [c] s cur 0 in
    TransformSpec.join_with [c] fields = rev cur ++ s
    /\ forallb (TransformSpec.lacks c) fields = true
    /\ fields <> [].
Proof.
  induction s as [|x s IH]; intros cur Hcur; cbv zeta.
  - cbn [Transform.split_aux TransformSpec.join_with forallb].
    rewrite app_nil_r. unfold TransformSpec.lacks in *.
    rewrite forallb_rev', Hcur. repeat split. discriminate.
  - cbn [Transform.split_aux]. rewrite startsWith_char.
    destruct (ch_eqb c x) eqn:Ex.
    + apply ch_eqb_eq in Ex. subst x. cbn [length Nat.sub].
      destruct (IH [] eq_refl) as (Hj & Hf & Hne). cbv zeta in Hj, Hf, Hne.
      rewrite (join_with_cons _ _ _ Hne), Hj. cbn [forallb]. rewrite Hf.
      unfold TransformSpec.lacks in *. rewrite forallb_rev', Hcur.
      repeat split. discriminate.
    + assert (Hcur' : TransformSpec.lacks c (x :: cur) = true).
      { unfold TransformSpec.lacks in *. cbn [forallb].
        rewrite ch_eqb_sym, Ex, Hcur. reflexivity. }
      destruct (IH (x :: cur) Hcur') as (Hj & Hf & Hne). cbv zeta in Hj, Hf, Hne.
      rewrite Hj. cbn [rev]. rewrite <- app_assoc. repeat split; assumption.
Qed.

(** X25: with a delimiter of one character, [transform.split] cuts the
    string at every occurrence of the delimiter, trims each field and
    drops the fields that are empty after trimming: there are fields, none
    of which holds the delimiter, that joined by the delimiter give back
    the string, and the result holds them trimmed, in their order, without
    the empty ones.  A value that is not a string yields the empty
    array. *)
Theorem split_yields_the_trimmed_fields (c : ascii) (s : str) :
  (exists fields,
     TransformSpec.join_with [c] fields = s
     /\ forallb (TransformSpec.lacks c) fields = true
     /\ Transform.split [c] (VString s)
        = Ok (VArray (map VString (filter_nonempty (map trim fields)))))
  /\ (forall v, (forall x, v <> VString x) ->
                Transform.split [c] v = Ok (VArray [])).
Proof.
  split.
  - destruct (split_aux_char c s [] eq_refl) as (Hj & Hf & _). cbv zeta in Hj, Hf.
    exists (Transform.split_aux [c] s [] 0). repeat split; assumption.
  - intros v Hv. destruct v; try reflexivity. exfalso. eapply Hv. reflexivity.
Qed.

(** ** The request manager *)

Section FetcherProperties.
Variable env : Fetcher.Env.

Lemma fetch_loop_success (r : Fetcher.Request) (retries : Z) (res : Fetcher.RequestResult) :
  forall n fuel attempt lastError w,
    (attempt + Z.of_nat n <= retries)%Z ->
    n < fuel ->
    (forall j, j < n -> exists m, Fetcher.respond env (Fetcher.sent w + j) r = Throw m) ->
    Fetcher.respond env (Fetcher.sent w + n) r = Ok res ->
    Fetcher.fetch_loop env fuel r attempt retries lastError w
    = Some (Ok res,
            Fetcher.mkWorld
              (Fetcher.events w ++ Fetcher.failed_attempts r attempt n
               ++ [Fetcher.Requested r])
              (Fetcher.sent w + S n) (Fetcher.drawn w)).
Proof.
  induction n as [|n IH]; intros fuel attempt lastError w Hle Hfuel Hfail Hok.
  - destruct fuel as [|fuel]; [lia|]. cbn [Fetcher.fetch_loop].
    destruct (Z.leb_spec attempt retries); [|lia].
    unfold Fetcher.send. rewrite Nat.add_0_r in Hok. rewrite Hok.
    cbn [Fetcher.failed_attempts app]. do 3 f_equal. lia.
  - destruct fuel as [|fuel]; [lia|]. cbn [Fetcher.fetch_loop].
    destruct (Z.leb_spec attempt retries); [|lia].
    unfold Fetcher.send. destruct (Hfail 0) as [m Hm]; [lia|].
    rewrite Nat.add_0_r in Hm. rewrite Hm.
    destruct (Z.ltb_spec attempt retries); [|lia].
    rewrite (IH fuel (attempt + 1)%Z).
    + unfold Fetcher.record. cbn [Fetcher.events Fetcher.sent Fetcher.drawn].
      cbn [Fetcher.failed_attempts]. do 3 f_equal.
      * rewrite <- !app_assoc. reflexivity.
      * lia.
    + lia.
    + lia.
    + intros j Hj. unfold Fetcher.record. cbn [Fetcher.sent].
      destruct (Hfail (S j)) as [m' Hm']; [lia|]. exists m'.
      rewrite <- Hm'. f_equal. lia.
    + unfold Fetcher.record. cbn [Fetcher.sent]. rewrite <- Hok. f_equal. lia.
Qed.

Lemma fetch_loop_failure (r : Fetcher.Request) (retries : Z) :
  forall n (msg : nat -> str) fuel attempt lastError w,
    (attempt + Z.of_nat n = retries + 1)%Z ->
    n <= fuel ->
    (forall j, j < n -> Fetcher.respond env (Fetcher.sent w + j) r = Throw (msg j)) ->
    Fetcher.fetch_loop env fuel r attempt retries lastError w
    = Some (Throw (Fetcher.failure_message retries
                     (match n with 0 => lastError | S n' => Some (msg n') end)),
            Fetcher.mkWorld
              (Fetcher.events w
               ++ match n with
                  | 0 => []
                  | S n' => Fetcher.failed_attempts r attempt n'
                            ++ [Fetcher.Requested r]
                  end)
              (Fetcher.sent w + n) (Fetcher.drawn w)).
Proof.
  induction n as [|n IH]; intros msg fuel attempt lastError w Hle Hfuel Hfail.
  - assert (Hgt : (retries < attempt)%Z) by lia.
    destruct fuel; cbn [Fetcher.fetch_loop];
      (destruct (Z.leb_spec attempt retries); [lia|]);
      rewrite app_nil_r, Nat.add_0_r; destruct w; reflexivity.
  - destruct fuel as [|fuel]; [lia|]. cbn [Fetcher.fetch_loop].
    destruct (Z.leb_spec attempt retries); [|lia].
    unfold Fetcher.send. pose proof (Hfail 0 ltac:(lia)) as H0.
    rewrite Nat.add_0_r in H0. rewrite H0.
    set (w1 := Fetcher.mkWorld _ _ _).
    set (w2 := if (attempt <? retries)%Z then _ else _).
    assert (Hs : Fetcher.sent w2 = S (Fetcher.sent w)).
    { subst w2 w1. destruct (attempt <? retries)%Z; reflexivity. }
    assert (Hd : Fetcher.drawn w2 = Fetcher.drawn w).
    { subst w2 w1. destruct (attempt <? retries)%Z; reflexivity. }
    rewrite (IH (fun j => msg (S j)) fuel (attempt + 1)%Z (Some (msg 0)) w2).
    + rewrite Hs, Hd. destruct n as [|n].
      * destruct (Z.ltb_spec attempt retries); [lia|]. subst w2 w1.
        cbn [Fetcher.events Fetcher.failed_attempts app].
        rewrite app_nil_r. do 3 f_equal. lia.
      * destruct (Z.ltb_spec attempt retries); [|lia]. subst w2 w1.
        unfold Fetcher.record.
        cbn [Fetcher.events Fetcher.sent Fetcher.drawn Fetcher.failed_attempts].
        do 3 f_equal; [|lia]. rewrite <- !app_assoc. reflexivity.
    + lia.
    + lia.
    + intros j Hj. rewrite Hs. rewrite <- (Hfail (S j)) by lia. f_equal. lia.
Qed.

(** X10: [fetch] returns the first response that the network gives:
    when the first [k] requests fail and the next one is answered, with
    [k] at most [retries], the answer is returned as it is, whatever its
    status (an error status is not a failure and is not retried).  Up to
    then the manager has sent [k + 1] requests, all with the same
    arguments, and has paused after each failed one. *)
Theorem fetch_returns_the_first_response
    (url : str) (options : Fetcher.RequestOptions) (w : Fetcher.World)
    (k : nat) (res : Fetcher.RequestResult) :
  let retries := default 3%Z (Fetcher.retries options) in
  let r := Fetcher.build_request url options (Fetcher.pick_user_agent env w) in
  (Z.of_nat k <= retries)%Z ->
  (forall j, j < k ->
     exists m, Fetcher.respond env (Fetcher.sent w + j) r = Throw m) ->
  Fetcher.respond env (Fetcher.sent w + k) r = Ok res ->
  Fetcher.fetch env url options w
  = (Ok res,
     Fetcher.mkWorld
       (Fetcher.events w ++ Fetcher.failed_attempts r 0 k ++ [Fetcher.Requested r])
       (Fetcher.sent w + S k) (S (Fetcher.drawn w))).
Proof.
  cbv zeta. intros Hk Hfail Hok. unfold Fetcher.fetch.
  rewrite (fetch_loop_success _ _ res k); cbn [Fetcher.sent]; try assumption; try lia.
  reflexivity.
Qed.

(** X11: when every attempt fails, [fetch] makes [retries + 1] requests
    and then throws [Request failed after N attempts: M], [N] being
    [retries + 1] and [M] the message of the last failure.  It pauses
    after every failed attempt but the last, for [1000 * 2 ^ attempt]
    milliseconds and at most 10000.  With a negative [retries] it makes no
    request at all, and [M] reads [undefined]. *)
Theorem fetch_gives_up_after_the_last_retry
    (url : str) (options : Fetcher.RequestOptions) (w : Fetcher.World)
    (msg : nat -> str) :
  let retries := default 3%Z (Fetcher.retries options) in
  let r := Fetcher.build_request url options (Fetcher.pick_user_agent env w) in
  let n := Z.to_nat (retries + 1) in
  (forall j, j < n -> Fetcher.respond env (Fetcher.sent w + j) r = Throw (msg j)) ->
  Fetcher.fetch env url options w
  = (Throw (Fetcher.failure_message retries
              (match n with 0 => None | S n' => Some (msg n') end)),
     Fetcher.mkWorld
       (Fetcher.events w
        ++ match n with
           | 0 => []
           | S n' => Fetcher.failed_attempts r 0 n' ++ [Fetcher.Requested r]
           end)
       (Fetcher.sent w + n) (S (Fetcher.drawn w)))
  /\ (forall attempt, (0 <= attempt)%Z ->
        (1000 <= Fetcher.delay attempt <= 10000)%Z
        /\ (attempt <= 3 -> Fetcher.delay attempt = 1000 * 2 ^ attempt)%Z).
Proof.
  cbv zeta. intros Hfail. split.
  - unfold Fetcher.fetch.
    destruct (Z.ltb_spec (default 3%Z (Fetcher.retries options)) (-1)) as [Hneg | Hpos].
    + replace (Z.to_nat (default 3%Z (Fetcher.retries options) + 1)) with 0 by lia.
      cbn [Fetcher.fetch_loop].
      destruct (Z.leb_spec 0 (default 3%Z (Fetcher.retries options))); [lia|].
      cbn [default Fetcher.events Fetcher.sent]. rewrite app_nil_r, Nat.add_0_r.
      reflexivity.
    + rewrite (fetch_loop_failure _ _ (Z.to_nat (default 3%Z (Fetcher.retries options) + 1)) msg);
        cbn [Fetcher.sent]; try assumption; try lia.
      reflexivity.
  - intros attempt Ha. unfold Fetcher.delay.
    pose proof (Z.pow_le_mono_r 2 0 attempt ltac:(lia) Ha) as H1.
    change (2 ^ 0)%Z with 1%Z in H1.
    split; [lia|]. intros H3.
    pose proof (Z.pow_le_mono_r 2 attempt 3 ltac:(lia) H3) as H8.
    change (2 ^ 3)%Z with 8%Z in H8. lia.
Qed.

End FetcherProperties.

Lemma header_get_set h k v name :
  Fetcher.header_get (Fetcher.header_set h k v) name
  = if str_eqb k name then Some v else Fetcher.header_get h name.
Proof.
  induction h as [|[k' v'] h IH]; simpl.
  - reflexivity.
  - destruct (str_eqb k' k) eqn:Ek; simpl.
    + apply str_eqb_eq in Ek. subst k'. destruct (str_eqb k name); reflexivity.
    + destruct (str_eqb k' name) eqn:En; [|exact IH].
      destruct (str_eqb k name) eqn:Ekn; [|reflexivity].
      apply str_eqb_eq in En, Ekn. subst. rewrite str_eqb_refl in Ek. discriminate.
Qed.

Lemma header_get_spread extra :
  forall base name,
    NoDup (map fst extra) ->
    Fetcher.header_get (Fetcher.spread base extra) name
    = match Fetcher.header_get extra name with
      | Some v => Some v
      | None => Fetcher.header_get base name
      end.
Proof.
  induction extra as [|[k v] extra IH]; intros base name Hnd; [reflexivity|].
  cbn [map fst] in Hnd. apply NoDup_cons in Hnd as [Hk Hnd].
  unfold Fetcher.spread. cbn [foldl fst snd]. fold (Fetcher.spread (Fetcher.header_set base k v) extra).
  rewrite (IH _ _ Hnd), header_get_set. cbn [Fetcher.header_get].
  destruct (str_eqb k name) eqn:Ek; [|reflexivity].
  apply str_eqb_eq in Ek. subst name.
  assert (Hnone : Fetcher.header_get extra k = None).
  { clear -Hk. induction extra as [|[k' v'] extra IH]; [reflexivity|]. simpl.
    destruct (str_eqb k' k) eqn:Ek.
    - apply str_eqb_eq in Ek. subst. exfalso. apply Hk. left.
    - apply IH. intros Hin. apply Hk. right. assumption. }
  rewrite Hnone. reflexivity.
Qed.

(** X12: the headers of a request are the defaults of [fetch] with the
    caller's headers spread over them: under a name that the caller gives,
    the request carries the caller's value, under any other name the
    default.  Names are compared as they are written, so a caller's
    [user-agent] does not replace the default [User-Agent]. *)
Theorem caller_headers_override_the_defaults
    (url : str) (options : Fetcher.RequestOptions) (userAgent name : str) :
  NoDup (map fst (default [] (Fetcher.headers options))) ->
  Fetcher.header_get
    (Fetcher.request_headers (Fetcher.build_request url options userAgent)) name
  = match Fetcher.header_get (default [] (Fetcher.headers options)) name with
    | Some v => Some v
    | None => Fetcher.header_get (Fetcher.default_headers userAgent) name
    end.
Proof.
  intros Hnd. unfold Fetcher.build_request. cbn [Fetcher.request_headers].
  apply header_get_spread. assumption.
Qed.

Lemma fetch_returns_the_first_response_witness :
  let res := Fetcher.mkRequestResult 500 [] (lit "<p>x</p>") in
  let env :=
    Fetcher.mkEnv (fun k _ => if k <? 2 then Throw (lit "down") else Ok res)
                  (fun _ => 0) in
  let options := Fetcher.mkRequestOptions None None None None None in
  let r := Fetcher.build_request (lit "http://x") options
             (Fetcher.pick_user_agent env Fetcher.new_world) in
  Fetcher.fetch env (lit "http://x") options Fetcher.new_world
  = (Ok res,
     Fetcher.mkWorld
       ([] ++ Fetcher.failed_attempts r 0 2 ++ [Fetcher.Requested r])
       (0 + 3) 1).
Proof.
  cbv zeta.
  apply (fetch_returns_the_first_response _ (lit "http://x") _ Fetcher.new_world 2).
  - vm_compute. discriminate.
  - intros j Hj. exists (lit "down").
    destruct j as [|[|j]]; [reflexivity | reflexivity | lia].
  - reflexivity.
Defined.

Lemma fetch_gives_up_after_the_last_retry_witness :
  let env := Fetcher.mkEnv (fun _ _ => Throw (lit "down")) (fun _ => 0) in
  let options := Fetcher.mkRequestOptions None None None None (Some 1%Z) in
  let r := Fetcher.build_request (lit "http://x") options
             (Fetcher.pick_user_agent env Fetcher.new_world) in
  Fetcher.fetch env (lit "http://x") options Fetcher.new_world
  = (Throw (lit "Request failed after 2 attempts: down"),
     Fetcher.mkWorld
       [Fetcher.Requested r; Fetcher.Slept 1000; Fetcher.Requested r] 2 1).
Proof.
  cbv zeta.
  exact (proj1 (fetch_gives_up_after_the_last_retry
                  (Fetcher.mkEnv (fun _ _ => Throw (lit "down")) (fun _ => 0))
                  (lit "http://x")
                  (Fetcher.mkRequestOptions None None None None (Some 1%Z))
                  Fetcher.new_world (fun _ => lit "down")
                  (fun j _ => eq_refl))).
Defined.

Lemma caller_headers_override_the_defaults_witness :
  let options :=
    Fetcher.mkRequestOptions None
      (Some [(lit "user-agent", Fetcher.One (lit "mine"));
             (lit "Accept", Fetcher.One (lit "*/*"))])
      None None None in
  let r := Fetcher.build_request (lit "http://x") options (lit "UA") in
  Fetcher.header_get (Fetcher.request_headers r) (lit "Accept")
  = Some (Fetcher.One (lit "*/*"))
  /\ Fetcher.header_get (Fetcher.request_headers r) (lit "User-Agent")
     = Some (Fetcher.One (lit "UA"))
  /\ Fetcher.header_get (Fetcher.request_headers r) (lit "user-agent")
     = Some (Fetcher.One (lit "mine")).
Proof.
  cbv zeta.
  pose (options :=
    Fetcher.mkRequestOptions None
      (Some [(lit "user-agent", Fetcher.One (lit "mine"));
             (lit "Accept", Fetcher.One (lit "*/*"))])
      None None None).
  assert (Hnd : NoDup (map fst (default [] (Fetcher.headers options))))
    by distinct_strings.
  split; [|split];
    rewrite (caller_headers_override_the_defaults (lit "http://x") options (lit "UA") _ Hnd);
    reflexivity.
Defined.

(** ** The scraper *)

Lemma extract_loop_object (doc : DocumentWrapper) schema :
  forall result v,
    extract_loop doc schema result = Ok v -> exists props, v = VObject props.
Proof.
  induction schema as [|[k f] schema IH]; intros result v; cbn [extract_loop].
  - intros [= <-]. eauto.
  - destruct (rethrow _ _); simpl; [apply IH | discriminate].
Qed.

Lemma extract_truthy (doc : DocumentWrapper) schema v :
  Extractor.extract doc schema = Ok v -> Scraper.truthy v = true.
Proof.
  intros Hv. apply extract_loop_object in Hv as [props ->]. reflexivity.
Qed.

Section ScraperProperties.
Variable env : Fetcher.Env.

(** What the wrappers make of a page: its markup parsed and the schema
    applied, and a failure for an empty page. *)
Lemma after_fetch_markup (st : Scraper.State.t) (w : Fetcher.World)
    (markup : str) (schema : Schema) :
  Scraper.State.html st = Some markup ->
  Scraper.State.doc st = None ->
  Scraper.State.data st = None ->
  Scraper.State.schema st = Some schema ->
  ScraperSpec.after_fetch st w
  = (match markup with
     | [] => Throw (lit "Scraper has neither document nor extracted data.")
     | _ :: _ => Extractor.extract (parseHTML markup) schema
     end,
     Fetcher.destroy w).
Proof.
  intros Hh Hd Hdata Hs. unfold ScraperSpec.after_fetch, Scraper.run_parse. rewrite Hh, Hd.
  change (default [] (Some markup)) with markup.
  destruct markup as [|c markup]; cbn [Scraper.truthy_string].
  - unfold Scraper.run_extract. rewrite Hd.
    unfold Scraper.run_result. rewrite Hdata, Hd. reflexivity.
  - unfold Scraper.run_extract, Scraper.set_doc.
    cbn [Scraper.State.doc Scraper.State.schema Scraper.State.data].
    rewrite Hs, Hdata. cbn [Scraper.truthy_value].
    destruct (Extractor.extract (parseHTML (c :: markup)) schema) as [v|m] eqn:Ev;
      [|reflexivity].
    cbn [bind]. unfold Scraper.run_result, Scraper.set_data, Scraper.getData.
    cbn [Scraper.State.data Scraper.truthy_value].
    rewrite (extract_truthy _ _ _ Ev). reflexivity.
Qed.

(** X13: [scrapeHTML] is [parseHTML] followed by [extract]: it returns
    what the schema extracts from the parsed markup, and throws what
    [extract] throws.  Empty markup is taken for no markup: it is not
    parsed, and the call throws that the scraper has neither document nor
    data.  No request is made, and the request manager is closed in the
    end. *)
Theorem scrapeHTML_parses_and_extracts
    (markup : str) (schema : Schema) (w : Fetcher.World) :
  Scraper.scrapeHTML env markup schema w
  = (match markup with
     | [] => Throw (lit "Scraper has neither document nor extracted data.")
     | _ :: _ => Extractor.extract (parseHTML markup) schema
     end,
     Fetcher.destroy w).
Proof.
  exact (after_fetch_markup
           (Scraper.extract schema (Scraper.html markup Scraper.empty))
           w markup schema eq_refl eq_refl eq_refl eq_refl).
Qed.

(** X14: [scrape] fetches the page with [get], parses the body and
    applies the schema.  When the fetch throws, so does [scrape], with the
    same message; when it returns, the body is used whatever the status of
    the response is, and an empty body is taken for no page.  An empty URL
    is taken for no URL: no request is made. *)
Theorem scrape_fetches_parses_and_extracts
    (url : str) (schema : Schema) (options : option Fetcher.RequestOptions)
    (w : Fetcher.World) :
  Scraper.scrape env url schema options w
  = match url with
    | [] =>
        (Throw (lit "Scraper has neither document nor extracted data."),
         Fetcher.destroy w)
    | _ :: _ =>
        match Fetcher.get env url options w with
        | (Throw m, w') => (Throw m, Fetcher.destroy w')
        | (Ok res, w') =>
            (match Fetcher.text res with
             | [] => Throw (lit "Scraper has neither document nor extracted data.")
             | _ :: _ => Extractor.extract (parseHTML (Fetcher.text res)) schema
             end,
             Fetcher.destroy w')
        end
    end.
Proof.
  unfold Scraper.scrape. destruct url as [|c url]; [reflexivity|].
  unfold Scraper.run_and_get, Scraper.run, Scraper.run_fetch.
  cbn [Scraper.fetch Scraper.extract Scraper.empty Scraper.State.url
       Scraper.State.html Scraper.State.requestOptions Scraper.truthy_string
       andb negb].
  change (default [] (Some (c :: url))) with (c :: url).
  destruct (Fetcher.get env (c :: url) options w) as [[res|m] w'] eqn:Eg;
    [|reflexivity].
  exact (after_fetch_markup
           (Scraper.html (Fetcher.text res)
              (Scraper.State.mk (Some (c :: url)) None None None options (Some schema)))
           w' (Fetcher.text res) schema eq_refl eq_refl eq_refl eq_refl).
Qed.

(** X15: a scraper keeps what it has.  Once [run] has returned data
    from markup, a later [run] returns the same data, without a request
    and without parsing or extracting again, also when another schema,
    another URL or other markup that is not empty has been set in
    between: [extract(schema)] after a [run] has no effect on what [run]
    returns.  Empty markup set in between counts as no markup: with a URL
    that is not empty, [run] requests the page again, throws what the
    request throws, and otherwise stores the text of the response and
    returns the data it had. *)
Theorem run_returns_the_data_it_has
    (st st1 : Scraper.State.t) (w w1 : Fetcher.World) (v : Value)
    (schema : Schema) (url markup : str)
    (options : option Fetcher.RequestOptions) (w2 : Fetcher.World) :
  Scraper.truthy_string (Scraper.State.html st) = true ->
  Scraper.run env st w = (Ok (Scraper.Data v), st1, w1) ->
  let st2 := Scraper.extract schema (Scraper.fetch url options st1) in
  let st3 := Scraper.html markup st2 in
  let st4 := Scraper.html [] st2 in
  w1 = w
  /\ Scraper.run env st1 w2 = (Ok (Scraper.Data v), st1, w2)
  /\ Scraper.run env st2 w2 = (Ok (Scraper.Data v), st2, w2)
  /\ (markup <> [] ->
      Scraper.run env st3 w2 = (Ok (Scraper.Data v), st3, w2))
  /\ (url <> [] ->
      Scraper.run env st4 w2
      = match Fetcher.get env url options w2 with
        | (Ok res, w3) =>
            (Ok (Scraper.Data v), Scraper.html (Fetcher.text res) st4, w3)
        | (Throw m, w3) => (Throw m, st4, w3)
        end).
Proof.
  intros Hh Hrun. cbv zeta.
  unfold Scraper.run, Scraper.run_fetch in Hrun. rewrite Hh, andb_false_r in Hrun.
  destruct (Scraper.run_extract (Scraper.run_parse st)) as [st'|m] eqn:Ee;
    [|discriminate].
  injection Hrun as Hres -> ->.
  assert (Hdata : Scraper.truthy_value (Scraper.State.data st1) = true
                  /\ Scraper.State.data st1 = Some v).
  { unfold Scraper.run_result in Hres.
    destruct (Scraper.truthy_value (Scraper.State.data st1)) eqn:Ht.
    - split; [reflexivity|]. injection Hres as Hv.
      destruct (Scraper.State.data st1); [|discriminate]. simpl in Hv. congruence.
    - destruct (Scraper.State.doc st1); discriminate. }
  destruct Hdata as [Ht Hv].
  assert (Hdoc : is_Some (Scraper.State.doc st1)
                 /\ Scraper.truthy_string (Scraper.State.html st1) = true).
  { unfold Scraper.run_extract in Ee.
    assert (Hp : is_Some (Scraper.State.doc (Scraper.run_parse st))
                 /\ Scraper.truthy_string (Scraper.State.html (Scraper.run_parse st)) = true).
    { unfold Scraper.run_parse. rewrite Hh.
      destruct (Scraper.State.doc st) eqn:Ed; [rewrite Ed | ]; cbn; eauto. }
    destruct Hp as [[d Hd] Hh']. rewrite Hd in Ee.
    destruct (Scraper.State.schema (Scraper.run_parse st)).
    - destruct (Scraper.truthy_value (Scraper.State.data (Scraper.run_parse st))).
      + injection Ee as <-. rewrite Hd. eauto.
      + destruct (Extractor.extract d s); [|discriminate]. injection Ee as <-.
        cbn. rewrite Hd. eauto.
    - injection Ee as <-. rewrite Hd. eauto. }
  destruct Hdoc as [[d Hd] Hh1].
  assert (Hrest : forall s,
            Scraper.State.doc s = Some d ->
            Scraper.State.data s = Some v ->
            Scraper.run_extract (Scraper.run_parse s) = Ok s
            /\ Scraper.run_result s = Ok (Scraper.Data v)).
  { intros s Hsd Hsv.
    assert (Hst : Scraper.truthy_value (Scraper.State.data s) = true).
    { rewrite Hsv. rewrite Hv in Ht. exact Ht. }
    assert (Hparse : Scraper.run_parse s = s).
    { unfold Scraper.run_parse. rewrite Hsd.
      destruct (Scraper.truthy_string (Scraper.State.html s)); reflexivity. }
    rewrite Hparse. unfold Scraper.run_extract, Scraper.run_result.
    rewrite Hsd, Hst, Hsv. destruct (Scraper.State.schema s); auto. }
  assert (Hkeep : forall s w',
            Scraper.truthy_string (Scraper.State.html s) = true ->
            Scraper.State.doc s = Some d ->
            Scraper.State.data s = Some v ->
            Scraper.run env s w' = (Ok (Scraper.Data v), s, w')).
  { intros s w' Hsh Hsd Hsv. destruct (Hrest s Hsd Hsv) as [He Hr].
    unfold Scraper.run, Scraper.run_fetch. rewrite Hsh, andb_false_r.
    rewrite He, Hr. reflexivity. }
  split; [reflexivity|]. split; [|split; [|split]]; try (apply Hkeep; assumption).
  - intros Hm. apply Hkeep; try assumption.
    destruct markup; [congruence | reflexivity].
  - intros Hu. unfold Scraper.run, Scraper.run_fetch.
    change (Scraper.State.url (Scraper.html [] (Scraper.extract schema
              (Scraper.fetch url options st1)))) with (Some url).
    change (Scraper.State.html (Scraper.html [] (Scraper.extract schema
              (Scraper.fetch url options st1)))) with (Some (@nil ascii)).
    change (Scraper.State.requestOptions (Scraper.html [] (Scraper.extract schema
              (Scraper.fetch url options st1)))) with options.
    destruct url as [|c url]; [congruence|].
    change (default [] (Some (c :: url))) with (c :: url).
    cbn [Scraper.truthy_string andb negb].
    destruct (Fetcher.get env (c :: url) options w2) as [[res|m] w3]; [|reflexivity].
    destruct (Hrest (Scraper.html (Fetcher.text res)
                       (Scraper.html [] (Scraper.extract schema
                          (Scraper.fetch (c :: url) options st1)))) Hd Hv)
      as [He Hr].
    rewrite He, Hr. reflexivity.
Qed.

End ScraperProperties.

Lemma run_returns_the_data_it_has_witness :
  let env := Fetcher.mkEnv (fun _ _ => Throw (lit "down")) (fun _ => 0) in
  let title := [(lit "t", SingleField (lit "p") None None None)] in
  let other := [(lit "u", SingleField (lit "b") None None None)] in
  let v := VObject [(lit "t", VString (lit "x"))] in
  let st := Scraper.extract title (Scraper.html (lit "<p>x</p>") Scraper.empty) in
  let st1 := snd (fst (Scraper.run env st Fetcher.new_world)) in
  let st2 := Scraper.extract other (Scraper.fetch (lit "http://x") None st1) in
  let st3 := Scraper.html (lit "<b>y</b>") st2 in
  let st4 := Scraper.html [] st2 in
  Scraper.run env st3 Fetcher.new_world
  = (Ok (Scraper.Data v), st3, Fetcher.new_world)
  /\ fst (fst (Scraper.run env st4 Fetcher.new_world))
     = Throw (lit "Request failed after 4 attempts: down").
Proof.
  cbv zeta.
  pose proof (run_returns_the_data_it_has
       (Fetcher.mkEnv (fun _ _ => Throw (lit "down")) (fun _ => 0))
       (Scraper.extract [(lit "t", SingleField (lit "p") None None None)]
          (Scraper.html (lit "<p>x</p>") Scraper.empty))
       (snd (fst (Scraper.run
          (Fetcher.mkEnv (fun _ _ => Throw (lit "down")) (fun _ => 0))
          (Scraper.extract [(lit "t", SingleField (lit "p") None None None)]
             (Scraper.html (lit "<p>x</p>") Scraper.empty))
          Fetcher.new_world)))
       Fetcher.new_world Fetcher.new_world
       (VObject [(lit "t", VString (lit "x"))])
       [(lit "u", SingleField (lit "b") None None None)]
       (lit "http://x") (lit "<b>y</b>") None Fetcher.new_world
       eq_refl ltac:(vm_compute; reflexivity)) as (_ & _ & _ & Hmarkup & Hempty).
  split.
  - apply Hmarkup. discriminate.
  - rewrite Hempty by discriminate. vm_compute. reflexivity.
Defined.

(** ** The tokens that the tokenizer emits *)

Import TokenSpec.

Lemma find_from_char_before c s :
  forall k r, find_from [c] s k = Some r ->
              k <= r /\ forallb (fun x => negb (ch_eqb x c)) (take (r - k) s) = true.
Proof.
  induction s as [|x s IH]; intros k r; cbn [find_from].
  - cbn. discriminate.
  - rewrite startsWith_char. destruct (ch_eqb c x) eqn:Ex.
    + intros [= <-]. rewrite Nat.sub_diag. auto.
    + intros Hr. apply IH in Hr as [Hk Hall]. split; [lia|].
      replace (r - k) with (S (r - S k)) by lia. cbn [take forallb].
      rewrite ch_eqb_sym, Ex. exact Hall.
Qed.

Lemma find_from_char_absent c s :
  forall k, find_from [c] s k = None ->
            forallb (fun x => negb (ch_eqb x c)) s = true.
Proof.
  induction s as [|x s IH]; intros k; cbn [find_from]; [reflexivity|].
  rewrite startsWith_char. destruct (ch_eqb c x) eqn:Ex; [discriminate|].
  intros Hn. cbn [forallb]. rewrite ch_eqb_sym, Ex. exact (IH _ Hn).
Qed.

Lemma indexOf_char_before html c i r :
  i <= length html -> indexOf html [c] i = Some r ->
  i <= r /\ forallb (fun x => negb (ch_eqb x c)) (slice html i r) = true.
Proof.
  unfold indexOf, slice. intros Hi. rewrite Nat.min_l by assumption.
  apply find_from_char_before.
Qed.

Lemma indexOf_char_absent html c i :
  i <= length html -> indexOf html [c] i = None ->
  forallb (fun x => negb (ch_eqb x c)) (sliceFrom html i) = true.
Proof.
  unfold indexOf, sliceFrom. intros Hi. rewrite Nat.min_l by assumption.
  apply find_from_char_absent.
Qed.

Lemma span_forallb p s : forallb p (fst (span p s)) = true.
Proof.
  induction s as [|c s IH]; [reflexivity|]. cbn [span].
  destruct (p c) eqn:Hc; [|reflexivity].
  destruct (span p s) as [a b]. cbn [fst forallb] in *. rewrite Hc. exact IH.
Qed.

Lemma lower_name_char c :
  is_name_char c = true ->
  is_name_char (lower_char c) && negb (is_upper (lower_char c)) = true.
Proof.
  destruct c as [[] [] [] [] [] [] [] []]; cbv; intros Hc;
    first [discriminate Hc | reflexivity].
Qed.

Lemma lower_attr_char c :
  is_attr_name_char c = true ->
  is_attr_name_char (lower_char c) && negb (is_upper (lower_char c)) = true.
Proof.
  destruct c as [[] [] [] [] [] [] [] []]; cbv; intros Hc;
    first [discriminate Hc | reflexivity].
Qed.

Lemma forallb_toLowerCase (p q : ascii -> bool) s :
  (forall c, p c = true -> q (lower_char c) = true) ->
  forallb p s = true -> forallb q (toLowerCase s) = true.
Proof.
  intros Hpq. induction s as [|c s IH]; [reflexivity|]. cbn.
  intros Hs. apply andb_true_iff in Hs as [Hc Hs]. rewrite (Hpq c Hc). auto.
Qed.

Lemma match_name_lower tagRaw nm :
  match_name tagRaw = Some nm -> lower_name (toLowerCase nm) = true.
Proof.
  unfold match_name. pose proof (span_forallb is_name_char tagRaw) as Hall.
  destruct (fst (span is_name_char tagRaw)) as [|c n]; [discriminate|].
  intros [= <-]. unfold lower_name. apply andb_true_iff. split; [reflexivity|].
  apply (forallb_toLowerCase is_name_char); [apply lower_name_char | assumption].
Qed.

Lemma exec_attr_name s name v rest :
  exec_attr s = Some (name, v, rest) -> attr_key (toLowerCase name) = true.
Proof.
  unfold exec_attr.
  pose proof (span_forallb is_attr_name_char
                (snd (span (fun c => negb (is_attr_name_char c)) s))) as Hall.
  destruct (span is_attr_name_char _) as [n r]. cbn [fst] in Hall.
  destruct n as [|c n]; [discriminate|].
  intros Hs.
  assert (Hn : name = c :: n) by (destruct (match_value r) as [[? ?]|]; congruence).
  subst name. unfold attr_key. apply andb_true_iff. split; [reflexivity|].
  apply (forallb_toLowerCase is_attr_name_char); [apply lower_attr_char | assumption].
Qed.

Lemma includes_set_keys m k v x :
  includes (JsMap.keys (JsMap.set m k v)) x
  = includes (JsMap.keys m) x || (str_eqb x k && negb (includes (JsMap.keys m) k)).
Proof.
  unfold JsMap.keys, includes. induction m as [|[k' v'] m IH]; cbn.
  - rewrite orb_false_r, andb_true_r. reflexivity.
  - destruct (str_eqb k' k) eqn:Ek; cbn.
    + apply str_eqb_eq in Ek. subst k'. rewrite str_eqb_refl. cbn.
      rewrite andb_false_r, orb_false_r. reflexivity.
    + rewrite IH. rewrite (str_eqb_sym k k'), Ek. cbn.
      rewrite orb_assoc. reflexivity.
Qed.

Lemma set_distinct_keys m k v :
  distinct_keys (JsMap.keys m) = true ->
  distinct_keys (JsMap.keys (JsMap.set m k v)) = true.
Proof.
  induction m as [|[k' v'] m IH]; cbn; [reflexivity|].
  intros Hm. apply andb_true_iff in Hm as [Hk' Hm].
  destruct (str_eqb k' k) eqn:Ek; cbn.
  - rewrite Hk', Hm. reflexivity.
  - pose proof (IH Hm) as IH'. unfold JsMap.keys in IH'. rewrite IH', andb_true_r.
    pose proof (includes_set_keys m k v k') as Hi. unfold JsMap.keys in Hi.
    rewrite Hi. apply negb_true_iff in Hk'. rewrite Hk', Ek. reflexivity.
Qed.

Lemma set_attr_keys m k v :
  forallb (fun kv => attr_key (fst kv)) m = true -> attr_key k = true ->
  forallb (fun kv => attr_key (fst kv)) (JsMap.set m k v) = true.
Proof.
  induction m as [|[k' v'] m IH]; cbn; intros Hm Hk.
  - rewrite Hk. reflexivity.
  - apply andb_true_iff in Hm as [Hk' Hm].
    destruct (str_eqb k' k); cbn; rewrite Hk'; auto.
Qed.

Lemma parseAttrs_loop_wf fuel :
  forall s m m',
    parseAttrs_loop fuel s m = Some m' ->
    forallb (fun kv => attr_key (fst kv)) m = true ->
    distinct_keys (JsMap.keys m) = true ->
    forallb (fun kv => attr_key (fst kv)) m' = true
    /\ distinct_keys (JsMap.keys m') = true.
Proof.
  induction fuel as [|fuel IH]; intros s m m'; cbn [parseAttrs_loop];
    destruct (exec_attr s) as [[[n v] r]|] eqn:Ex; try discriminate;
    try (intros [= <-]; auto; fail).
  intros Hm' Hk Hd. eapply IH; [eassumption | |].
  - apply set_attr_keys; [assumption|]. eapply exec_attr_name; eassumption.
  - apply set_distinct_keys. assumption.
Qed.

Lemma tag_token_wf_attrs b tag attrPart :
  wf_attrs (Tokenizer.attrs (tag_token b tag (parseAttrs attrPart))) = true.
Proof.
  unfold tag_token. cbn [Tokenizer.attrs].
  destruct (parseAttrs attrPart) as [|kv m] eqn:Ep; [reflexivity|].
  cbn [JsMap.size length]. unfold wf_attrs. cbn [is_empty negb andb].
  rewrite <- Ep. unfold parseAttrs. unfold parseAttrs in Ep.
  destruct attrPart as [|c s]; [discriminate|].
  destruct (parseAttrs_loop _ _ _) as [m'|] eqn:Em; [|discriminate].
  destruct (parseAttrs_loop_wf _ _ _ _ Em eq_refl eq_refl) as [H1 H2].
  cbn [default]. unfold id. rewrite H1, H2. reflexivity.
Qed.

Lemma push_text_wf tokens text :
  forallb wf_token tokens = true -> no_lt text = true ->
  forallb wf_token (push_text tokens text) = true.
Proof.
  intros Ht Hx. unfold push_text, push. destruct text as [|c s]; [assumption|].
  rewrite forallb_app, Ht. cbn [forallb]. unfold wf_token.
  cbn [Tokenizer.type Tokenizer.content Tokenizer.tag Tokenizer.attrs text_token
       is_empty negb absent andb].
  rewrite Hx. reflexivity.
Qed.

Lemma tokenize_body_wf html i tokens :
  i <= length html ->
  forallb wf_token tokens = true ->
  match tokenize_body html i tokens with
  | Break tokens' | Continue _ tokens' => forallb wf_token tokens' = true
  end.
Proof.
  intros Hi Ht. unfold tokenize_body.
  destruct (indexOf html [lt_char] i) as [lt|] eqn:Elt.
  2:{ apply push_text_wf; [assumption|]. apply indexOf_char_absent; assumption. }
  apply indexOf_char_before in Elt as [Hle Hno]; [|assumption].
  assert (Ht' : forallb wf_token
                  (if i <? lt then push_text tokens (slice html i lt) else tokens)
                = true).
  { destruct (i <? lt); [apply push_text_wf|]; assumption. }
  destruct (indexOf html [gt_char] (lt + 1)) as [gt|]; [|assumption].
  unfold tokenize_tag.
  destruct (startsWith _ (lit "!--")).
  { destruct (indexOf html (lit "-->") (lt + 4)); assumption. }
  destruct (startsWith _ (lit "!")); [assumption|].
  destruct (startsWith _ [slash]).
  { destruct (toLowerCase _) as [|c n] eqn:En; [assumption|].
    unfold push. rewrite forallb_app, Ht'. cbn [forallb]. unfold wf_token.
    cbn [Tokenizer.type Tokenizer.content Tokenizer.tag Tokenizer.attrs close_token
         is_empty negb absent andb].
    rewrite <- En. fold (has_upper (toLowerCase (trim (sliceFrom (trim (slice html (lt + 1) gt)) 1)))).
    rewrite toLowerCase_not_upper. reflexivity. }
  destruct (match_name _) as [nm|] eqn:Enm; [|assumption].
  destruct (_ || _) eqn:Eskip.
  { destruct (indexOf html _ (gt + 1)); assumption. }
  unfold push. rewrite forallb_app, Ht'. cbn [forallb].
  rewrite andb_true_r.
  set (attrPart := replace_slash_end _).
  set (b := test_slash_end _ || includes selfClosingTags (toLowerCase nm)).
  pose proof (tag_token_wf_attrs b (toLowerCase nm) attrPart) as Hattrs.
  assert (Hvoid : b = false -> void (toLowerCase nm) = false).
  { subst b. intros Hb. apply orb_false_elim in Hb as [_ Hb]. exact Hb. }
  unfold wf_token. rewrite Hattrs.
  unfold tag_token. cbn [Tokenizer.type Tokenizer.tag Tokenizer.content absent].
  rewrite (match_name_lower _ _ Enm). unfold skipped. rewrite Eskip.
  destruct b; [reflexivity|]. rewrite Hvoid by reflexivity. reflexivity.
Qed.

Lemma tokenize_loop_wf html fuel :
  forall i tokens tokens',
    tokenize_loop fuel html i tokens = Some tokens' ->
    forallb wf_token tokens = true -> forallb wf_token tokens' = true.
Proof.
  induction fuel as [|fuel IH]; intros i tokens tokens'; cbn [tokenize_loop];
    destruct (Nat.leb_spec (length html) i); try discriminate;
    try (intros [= <-]; auto; fail).
  pose proof (tokenize_body_wf html i tokens ltac:(lia)) as Hb.
  destruct (tokenize_body html i tokens) as [t|i' t].
  - intros [= <-]. assumption.
  - intros Hl Ht. eapply IH; eauto.
Qed.

Lemma tokenize_wf html : forallb wf_token (tokenize html) = true.
Proof.
  unfold tokenize.
  destruct (tokenize_loop _ _ _ _) as [t|] eqn:Et; [|reflexivity].
  eapply tokenize_loop_wf; [eassumption | reflexivity].
Qed.

(** X16: every token that [tokenize] emits is well formed, whatever the
    input: a text token has a content that is not empty and holds no [<];
    a close token has a lower-case tag that is not empty; an open or
    self-closing token has a tag name of the characters [a-z0-9-_:] other
    than [script] and [style], and either no attributes or a map that is
    not empty, with lower-case keys that differ from one another; and a
    token with a void tag is self-closing, never open. *)
Theorem tokenize_emits_well_formed_tokens (html : str) :
  forallb wf_token (tokenize html) = true.
Proof. apply tokenize_wf. Qed.

(** ** The tokenizer reads from left to right *)

Lemma find_from_shift pat s :
  forall k n, find_from pat s (n + k) = (fun r => n + r) <$> find_from pat s k.
Proof.
  induction s as [|c s IH]; intros k n; cbn [find_from];
    destruct (startsWith _ pat); try reflexivity.
  rewrite <- IH. f_equal. lia.
Qed.

Lemma indexOf_shift pre s pat k :
  indexOf (pre ++ s) pat (length pre + k)
  = (fun r => length pre + r) <$> indexOf s pat k.
Proof.
  unfold indexOf. rewrite length_app.
  replace ((length pre + k) `min` (length pre + length s))
    with (length pre + k `min` length s) by lia.
  rewrite drop_app_add'; [|reflexivity]. apply find_from_shift.
Qed.

Lemma slice_shift pre s a b :
  slice (pre ++ s) (length pre + a) (length pre + b) = slice s a b.
Proof.
  unfold slice. rewrite drop_app_add' by reflexivity. f_equal. lia.
Qed.

Lemma push_text_shift tokens t0 text :
  push_text (tokens ++ t0) text = tokens ++ push_text t0 text.
Proof.
  unfold push_text, push. destruct text; [reflexivity|]. rewrite app_assoc. reflexivity.
Qed.

Lemma tokenize_tag_shift pre html lt gt tagRaw tokens t0 :
  tokenize_tag (pre ++ html) (length pre + lt) (length pre + gt) tagRaw
               (tokens ++ t0)
  = shift_step (length pre) tokens (tokenize_tag html lt gt tagRaw t0).
Proof.
  unfold tokenize_tag.
  destruct (startsWith tagRaw (lit "!--")).
  { replace (length pre + lt + 4) with (length pre + (lt + 4)) by lia.
    rewrite indexOf_shift.
    destruct (indexOf html (lit "-->") (lt + 4)); cbn; f_equal; lia. }
  destruct (startsWith tagRaw (lit "!")); [cbn; f_equal; lia|].
  destruct (startsWith tagRaw [slash]).
  { destruct (toLowerCase _); cbn; unfold push; rewrite <- ?app_assoc; f_equal; lia. }
  destruct (match_name tagRaw) as [nm|]; [|cbn; f_equal; lia].
  destruct (_ || _).
  { replace (length pre + gt + 1) with (length pre + (gt + 1)) by lia.
    rewrite indexOf_shift.
    destruct (indexOf html _ (gt + 1)); cbn; f_equal; lia. }
  cbn. unfold push. rewrite <- app_assoc. f_equal. lia.
Qed.

Lemma tokenize_body_shift pre html i tokens t0 :
  tokenize_body (pre ++ html) (length pre + i) (tokens ++ t0)
  = shift_step (length pre) tokens (tokenize_body html i t0).
Proof.
  unfold tokenize_body. rewrite indexOf_shift.
  destruct (indexOf html [lt_char] i) as [lt|]; cbn [fmap option_fmap option_map].
  2:{ unfold sliceFrom. rewrite drop_app_add' by reflexivity. cbn.
      rewrite push_text_shift. reflexivity. }
  replace (length pre + lt + 1) with (length pre + (lt + 1)) by lia.
  rewrite indexOf_shift, slice_shift.
  assert (Hlt : (length pre + i <? length pre + lt) = (i <? lt)).
  { destruct (Nat.ltb_spec i lt), (Nat.ltb_spec (length pre + i) (length pre + lt));
      auto; lia. }
  rewrite Hlt.
  assert (Htok : (if i <? lt then push_text (tokens ++ t0) (slice html i lt)
                  else tokens ++ t0)
                 = tokens ++ (if i <? lt then push_text t0 (slice html i lt) else t0)).
  { destruct (i <? lt); [apply push_text_shift | reflexivity]. }
  rewrite Htok.
  destruct (indexOf html [gt_char] (lt + 1)) as [gt|]; cbn [fmap option_fmap option_map];
    [|reflexivity].
  rewrite slice_shift. apply tokenize_tag_shift.
Qed.

Lemma tokenize_loop_shift html fuel :
  forall pre i tokens,
    tokenize_loop fuel (pre ++ html) (length pre + i) tokens
    = (fun t => tokens ++ t) <$> tokenize_loop fuel html i [].
Proof.
  induction fuel as [|fuel IH]; intros pre i tokens; cbn [tokenize_loop];
    rewrite length_app;
    (destruct (Nat.leb_spec (length pre + length html) (length pre + i)),
              (Nat.leb_spec (length html) i); try lia);
    try (cbn; rewrite ?app_nil_r; reflexivity).
  rewrite <- (app_nil_r tokens) at 1. rewrite tokenize_body_shift.
  destruct (tokenize_body html i []) as [t|i' t]; cbn [shift_step].
  - reflexivity.
  - rewrite IH. pose proof (IH [] i' t) as Hnil. cbn [app length Nat.add] in Hnil.
    rewrite Hnil.
    destruct (tokenize_loop fuel html i' []); cbn; [rewrite app_assoc|]; reflexivity.
Qed.

(** What follows a prefix tokenizes as it does on its own. *)
Lemma tokenize_split_tail pre rest tokens :
  RoundTrip.tokenize_split pre rest tokens = Some (tokens ++ tokenize rest).
Proof.
  unfold RoundTrip.tokenize_split, tokenize_from. rewrite length_app.
  replace (length pre + length rest - length pre) with (length rest) by lia.
  pose proof (tokenize_loop_shift rest (length rest) pre 0 tokens) as Hs.
  rewrite Nat.add_0_r in Hs. rewrite Hs.
  unfold tokenize.
  destruct (tokenize_loop_total rest (length rest) 0 []) as [t ->]; [lia|].
  reflexivity.
Qed.

Lemma tokenize_from_start html :
  tokenize html = default [] (tokenize_from html 0 []).
Proof. unfold tokenize, tokenize_from. rewrite Nat.sub_0_r. reflexivity. Qed.

Lemma trimStart_app s t :
  trimStart (s ++ t)
  = match trimStart s with
    | [] => trimStart t
    | c :: r => (c :: r) ++ t
    end.
Proof.
  induction s as [|x s IH]; cbn [app trimStart].
  - destruct (trimStart t); reflexivity.
  - destruct (is_space x); [exact IH | reflexivity].
Qed.

(** White space is trimmed off the end of what follows a character that
    is not white space. *)
Lemma trimEnd_after x d a :
  is_space d = false -> trimEnd (x ++ [d] ++ a) = x ++ [d] ++ trimEnd a.
Proof.
  intros Hd. unfold trimEnd. rewrite !rev_app_distr. cbn [rev app].
  rewrite <- app_assoc. cbn [app]. rewrite trimStart_app.
  destruct (trimStart (rev a)) as [|c r].
  - cbn [trimStart]. rewrite Hd. cbn [rev]. rewrite rev_involutive.
    rewrite ?app_nil_r. reflexivity.
  - rewrite rev_app_distr. cbn [rev]. rewrite rev_involutive, <- app_assoc.
    reflexivity.
Qed.

Lemma trim_after c x d a :
  is_space c = false -> is_space d = false ->
  trim (c :: x ++ [d] ++ a) = c :: x ++ [d] ++ trimEnd a.
Proof.
  intros Hc Hd. unfold trim. rewrite trimStart_id by assumption.
  apply (trimEnd_after (c :: x)). assumption.
Qed.

Lemma trimStart_suffix s : exists sp, s = sp ++ trimStart s.
Proof.
  induction s as [|c s [sp IH]]; [exists []; reflexivity|]. cbn [trimStart].
  destruct (is_space c).
  - exists (c :: sp). cbn. congruence.
  - exists []. reflexivity.
Qed.

Lemma trimEnd_prefix s : exists sp, s = trimEnd s ++ sp.
Proof.
  unfold trimEnd. destruct (trimStart_suffix (rev s)) as [sp Hsp].
  exists (rev sp). rewrite <- rev_app_distr, <- Hsp, rev_involutive. reflexivity.
Qed.

Lemma first_char c w :
  existsb (fun x => ch_eqb x c) w = true ->
  exists a r, w = a ++ c :: r /\ forallb (fun x => negb (ch_eqb x c)) a = true.
Proof.
  induction w as [|x w IH]; cbn [existsb]; [discriminate|].
  destruct (ch_eqb x c) eqn:Ex.
  - intros _. apply ch_eqb_eq in Ex. subst x. exists [], w. auto.
  - cbn [orb]. intros Hw. destruct (IH Hw) as (a & r & -> & Ha).
    exists (x :: a), r. cbn [forallb app]. rewrite Ex. auto.
Qed.

Lemma free_of_find pat s : free_of pat s <-> find_from pat s 0 = None.
Proof. unfold free_of, indexOf. cbn [Nat.min drop]. reflexivity. Qed.

Lemma find_from_None_shift pat s k :
  find_from pat s 0 = None -> find_from pat s k = None.
Proof.
  intros Hn. pose proof (find_from_shift pat s 0 k) as Hs.
  rewrite Nat.add_0_r, Hn in Hs. exact Hs.
Qed.

(** The end of a comment: the first [-->] after a text that holds
    none. *)
Lemma find_comment_end c rest :
  forall k, find_from (lit "-->") c k = None ->
            find_from (lit "-->") (c ++ lit "-->" ++ rest) k = Some (k + length c).
Proof.
  induction c as [|x c IH]; intros k.
  - intros _. change (lit "-->") with ["-"%char; "-"%char; ">"%char].
    cbn [app find_from startsWith]. change (ch_eqb "-" "-") with true.
    change (ch_eqb ">" ">") with true. rewrite startsWith_empty. cbn [andb].
    f_equal. cbn. lia.
  - cbn [find_from app]. destruct (startsWith (x :: c) (lit "-->")) eqn:Es; [discriminate|].
    intros Hn.
    assert (Hs : startsWith (x :: c ++ lit "-->" ++ rest) (lit "-->") = false).
    { change (lit "-->") with ["-"%char; "-"%char; ">"%char] in *.
      destruct c as [|y [|z c]]; cbn [startsWith app] in Es |- *.
      - change (ch_eqb ">" "-") with false. rewrite !andb_false_r. reflexivity.
      - change (ch_eqb ">" "-") with false. rewrite !andb_false_r. reflexivity.
      - rewrite startsWith_empty in *. exact Es. }
    rewrite Hs, (IH _ Hn). cbn [length]. f_equal. lia.
Qed.

Lemma startsWith_before p0 t :
  forall s q,
    forallb (fun x => negb (ch_eqb x p0)) q = true ->
    startsWith (s ++ p0 :: t) q = startsWith s q.
Proof.
  induction s as [|y s IH]; intros q Hq.
  - destruct q as [|a q]; [reflexivity|]. cbn in Hq |- *.
    apply andb_true_iff in Hq as [Ha _]. apply negb_true_iff in Ha. rewrite Ha.
    reflexivity.
  - destruct q as [|a q]; [reflexivity|]. cbn in Hq |- *.
    apply andb_true_iff in Hq as [_ Hq]. rewrite (IH _ Hq). reflexivity.
Qed.

(** The first occurrence of a pattern whose first character does not
    come back in it, after a text that holds no occurrence. *)
Lemma find_pattern_end p0 pt c rest :
  forallb (fun x => negb (ch_eqb x p0)) pt = true ->
  forall k, find_from (p0 :: pt) c k = None ->
            find_from (p0 :: pt) (c ++ (p0 :: pt) ++ rest) k = Some (k + length c).
Proof.
  intros Hpt. induction c as [|x c IH]; intros k.
  - intros _. cbn [app find_from].
    assert (Hs : forall u v, startsWith (u ++ v) u = true).
    { clear. induction u as [|a u IHu]; intros v; [apply startsWith_empty|].
      cbn. rewrite (proj2 (ch_eqb_eq a a) eq_refl). apply IHu. }
    change (p0 :: pt ++ rest) with ((p0 :: pt) ++ rest). rewrite Hs. f_equal. cbn. lia.
  - cbn [find_from app]. destruct (startsWith (x :: c) (p0 :: pt)) eqn:Es; [discriminate|].
    intros Hn.
    assert (Hs : startsWith (x :: c ++ p0 :: pt ++ rest) (p0 :: pt) = false).
    { cbn [startsWith] in Es |- *.
      rewrite (startsWith_before p0 (pt ++ rest) c pt Hpt). exact Es. }
    rewrite Hs. change (c ++ p0 :: pt ++ rest) with (c ++ (p0 :: pt) ++ rest).
    rewrite (IH _ Hn). cbn [length]. f_equal. lia.
Qed.

(** ** What the tokenizer skips *)

Lemma startsWith_app_self u v : startsWith (u ++ v) u = true.
Proof.
  induction u as [|a u IH]; [apply startsWith_empty|].
  cbn. rewrite (proj2 (ch_eqb_eq a a) eq_refl). exact IH.
Qed.

Lemma existsb_app_r {A} (p : A -> bool) l1 l2 :
  existsb p l2 = true -> existsb p (l1 ++ l2) = true.
Proof. intros H2. rewrite existsb_app, H2. apply orb_true_r. Qed.

(** One iteration on markup that goes on with a text free of [<] and a
    tag, when the tag makes the loop go on at [next] with no token of its
    own: the loop goes on behind [skipped] with the text as its only new
    token. *)
Lemma tokenize_skips txt body r skipped rest :
  no_lt txt = true ->
  forallb (fun c => negb (ch_eqb c gt_char)) body = true ->
  txt ++ lt_char :: body ++ gt_char :: r = skipped ++ rest ->
  tokenize_tag (txt ++ lt_char :: body ++ gt_char :: r)
               (length txt) (length txt + 1 + length body) (trim body)
               (push_text [] txt)
  = Continue (length skipped) (push_text [] txt) ->
  tokenize (txt ++ lt_char :: body ++ gt_char :: r)
  = push_text [] txt ++ tokenize rest.
Proof.
  intros Htxt Hbody Hsplit Htag.
  rewrite tokenize_from_start, tokenize_from_step
    by (rewrite length_app; cbn [length]; lia).
  pose proof (tokenize_body_tag [] txt body r [] Htxt Hbody) as Hb.
  cbn [app length Nat.add] in Hb. rewrite Hb, Htag.
  pose proof (tokenize_split_tail skipped rest (push_text [] txt)) as Ht.
  unfold RoundTrip.tokenize_split in Ht. rewrite <- Hsplit in Ht. rewrite Ht.
  reflexivity.
Qed.

(** X17: a comment yields no token, whatever it holds, and the text
    right before it is a token of its own: the tokens of markup that goes
    on with a text free of [<] and a comment are that text (when it is not
    empty) and the tokens of what follows the comment.  The comment ends at
    the first [-->] after its opening. *)
Theorem tokenize_drops_comments (txt c rest : str) :
  no_lt txt = true ->
  free_of (lit "-->") c ->
  tokenize (txt ++ lit "<!--" ++ c ++ lit "-->" ++ rest)
  = push_text [] txt ++ tokenize rest.
Proof.
  intros Htxt Hc. apply (proj1 (free_of_find _ _)) in Hc.
  assert (Hgt : existsb (fun x => ch_eqb x gt_char) (c ++ lit "-->" ++ rest) = true).
  { apply existsb_app_r. reflexivity. }
  destruct (first_char _ _ Hgt) as (a & r & Hw & Ha).
  change (lit "<!--") with (lt_char :: lit "!--").
  cbn [app]. rewrite Hw.
  change (txt ++ lt_char :: lit "!--" ++ a ++ gt_char :: r)
    with (txt ++ lt_char :: (lit "!--" ++ a) ++ gt_char :: r).
  apply (tokenize_skips txt (lit "!--" ++ a) r
           (txt ++ lit "<!--" ++ c ++ lit "-->")).
  - exact Htxt.
  - rewrite forallb_app, Ha. reflexivity.
  - change (lit "<!--") with (lt_char :: lit "!--"). cbn [app].
    rewrite <- !app_assoc. cbn [app]. do 2 f_equal.
    change ((lit "!--" ++ a) ++ gt_char :: r) with (lit "!--" ++ a ++ gt_char :: r).
    rewrite <- Hw. rewrite <- !app_assoc. reflexivity.
  - unfold tokenize_tag.
    change (lit "!--" ++ a) with ("!"%char :: ["-"%char] ++ ["-"%char] ++ a).
    rewrite trim_after by reflexivity.
    change ("!"%char :: ["-"%char] ++ ["-"%char] ++ trimEnd a)
      with (lit "!--" ++ trimEnd a).
    rewrite startsWith_app_self.
    change ("!"%char :: ["-"%char] ++ ["-"%char] ++ a) with (lit "!--" ++ a).
    change (txt ++ lt_char :: (lit "!--" ++ a) ++ gt_char :: r)
      with (txt ++ lit "<!--" ++ a ++ gt_char :: r).
    rewrite <- Hw.
    replace (txt ++ lit "<!--" ++ c ++ lit "-->" ++ rest)
      with ((txt ++ lit "<!--") ++ c ++ lit "-->" ++ rest)
      by (rewrite <- app_assoc; reflexivity).
    replace (length txt + 4) with (length (txt ++ lit "<!--") + 0)
      by (rewrite length_app; cbn; lia).
    rewrite indexOf_shift. unfold indexOf at 1. cbn [Nat.min]. rewrite drop_0.
    rewrite (find_comment_end c rest 0 Hc). cbn [fmap option_fmap option_map].
    f_equal. rewrite !length_app.
    change (length (lit "<!--")) with 4. change (length (lit "-->")) with 3. lia.
Qed.

Lemma skipped_tag_facts tg :
  tg = lit "script" \/ tg = lit "style" ->
  (exists x d, tg = "s"%char :: x ++ [d] /\ is_space d = false)
  /\ forallb is_name_char tg = true
  /\ toLowerCase tg = tg
  /\ str_eqb tg (lit "script") || str_eqb tg (lit "style") = true
  /\ forallb (fun x => negb (ch_eqb x lt_char)) (slash :: tg ++ [gt_char]) = true
  /\ forallb (fun x => negb (ch_eqb x gt_char)) tg = true.
Proof.
  intros [-> | ->].
  - split; [exists (lit "crip"), "t"%char; split; reflexivity|].
    repeat split; reflexivity.
  - split; [exists (lit "tyl"), "e"%char; split; reflexivity|].
    repeat split; reflexivity.
Qed.

(** X18: a [script] or [style] element yields no token, and neither
    does anything it holds: the tokens of markup that goes on with a text
    free of [<] and such an element are that text (when it is not empty)
    and the tokens of what follows the closing tag.  The element ends at
    the first closing tag in lower case after its opening tag. *)
Theorem tokenize_drops_script_and_style (txt tg a body rest : str) :
  no_lt txt = true ->
  tg = lit "script" \/ tg = lit "style" ->
  forallb (fun x => negb (ch_eqb x gt_char)) a = true ->
  match a with [] => True | x :: _ => is_name_char x = false end ->
  free_of (lit "</" ++ tg ++ lit ">") body ->
  tokenize (txt ++ lit "<" ++ tg ++ a ++ lit ">"
            ++ body ++ lit "</" ++ tg ++ lit ">" ++ rest)
  = push_text [] txt ++ tokenize rest.
Proof.
  intros Htxt Htg Ha Hhead Hbody. apply (proj1 (free_of_find _ _)) in Hbody.
  destruct (skipped_tag_facts tg Htg)
    as ((x & d & Etg & Hd) & Hname & Hlow & Hskip & Hnolt & Hnogt).
  change (lit "<") with [lt_char]. change (lit ">") with [gt_char].
  change (lit "</") with [lt_char; slash]. cbn [app].
  replace (txt ++ lt_char :: tg ++ a ++ gt_char
           :: body ++ lt_char :: slash :: tg ++ gt_char :: rest)
    with (txt ++ lt_char :: (tg ++ a) ++ gt_char
          :: (body ++ lt_char :: slash :: tg ++ gt_char :: rest))
    by (list_norm; reflexivity).
  apply (tokenize_skips txt (tg ++ a)
           (body ++ lt_char :: slash :: tg ++ gt_char :: rest)
           (txt ++ lt_char :: tg ++ a ++ gt_char
            :: body ++ lt_char :: slash :: tg ++ [gt_char])).
  - exact Htxt.
  - rewrite forallb_app, Hnogt, Ha. reflexivity.
  - list_norm. reflexivity.
  - assert (Htrim : trim (tg ++ a) = tg ++ trimEnd a).
    { rewrite Etg. cbn [app]. rewrite <- app_assoc.
      rewrite (trim_after "s" x d a eq_refl Hd). rewrite <- app_assoc. reflexivity. }
    assert (Hspan : span is_name_char (tg ++ trimEnd a) = (tg, trimEnd a)).
    { apply span_all; [assumption|].
      destruct (trimEnd_prefix a) as [sp Hsp].
      destruct (trimEnd a) as [|y t]; [exact I|]. rewrite Hsp in Hhead. exact Hhead. }
    unfold tokenize_tag. rewrite Htrim.
    assert (Hs : forall p, p <> "s"%char ->
                 startsWith (tg ++ trimEnd a) (p :: nil) = false
                 /\ forall q, startsWith (tg ++ trimEnd a) (p :: q) = false).
    { intros p Hp. rewrite Etg. cbn [app startsWith].
      assert (Hps : ch_eqb p "s" = false).
      { destruct (ch_eqb p "s") eqn:E; [|reflexivity].
        apply ch_eqb_eq in E. congruence. }
      rewrite Hps. auto. }
    change (lit "!--") with ("!"%char :: lit "--").
    change (lit "!") with ["!"%char].
    destruct (Hs "!"%char ltac:(discriminate)) as [H1 H2].
    rewrite H2, H1.
    destruct (Hs slash ltac:(discriminate)) as [H3 _]. rewrite H3.
    unfold match_name. rewrite Hspan. cbn [fst].
    destruct tg as [|t0 tg']; [discriminate Etg|].
    rewrite Hlow, Hskip.
    set (pre := txt ++ lt_char :: ((t0 :: tg') ++ a) ++ [gt_char]).
    replace (txt ++ lt_char :: ((t0 :: tg') ++ a) ++ gt_char
             :: body ++ lt_char :: slash :: (t0 :: tg') ++ gt_char :: rest)
      with (pre ++ body ++ (lt_char :: slash :: (t0 :: tg') ++ [gt_char]) ++ rest).
    2:{ subst pre. list_norm. reflexivity. }
    replace (length txt + 1 + length ((t0 :: tg') ++ a) + 1) with (length pre + 0).
    2:{ subst pre. repeat first [rewrite length_app | progress cbn [length]]. lia. }
    change (lit "</" ++ (t0 :: tg') ++ lit ">")
      with (lt_char :: slash :: (t0 :: tg') ++ [gt_char]).
    rewrite indexOf_shift. unfold indexOf at 1. cbn [Nat.min]. rewrite drop_0.
    rewrite (find_pattern_end lt_char (slash :: (t0 :: tg') ++ [gt_char]) body rest Hnolt 0 Hbody).
    cbn [fmap option_fmap option_map]. f_equal.
    subst pre. repeat first [rewrite length_app | progress cbn [length]]. lia.
Qed.

Lemma startsWith_app_true s sp q :
  startsWith s q = true -> startsWith (s ++ sp) q = true.
Proof.
  revert q. induction s as [|x s IH]; intros [|a q]; cbn; try discriminate; auto.
  - intros _. apply startsWith_empty.
  - intros H. apply andb_true_iff in H as [Ha Hq]. rewrite Ha. cbn. auto.
Qed.

(** X19: a declaration such as a doctype yields no token: the tokens of
    markup that goes on with a text free of [<] and a tag that starts with
    [!] are that text (when it is not empty) and the tokens of what follows
    the tag. *)
Theorem tokenize_drops_declarations (txt d rest : str) :
  no_lt txt = true ->
  forallb (fun x => negb (ch_eqb x gt_char)) d = true ->
  startsWith d (lit "--") = false ->
  tokenize (txt ++ lit "<!" ++ d ++ lit ">" ++ rest)
  = push_text [] txt ++ tokenize rest.
Proof.
  intros Htxt Hd Hdash.
  change (lit "<!") with (lt_char :: ["!"%char]). change (lit ">") with [gt_char].
  cbn [app].
  change (txt ++ lt_char :: "!"%char :: d ++ gt_char :: rest)
    with (txt ++ lt_char :: ("!"%char :: d) ++ gt_char :: rest).
  apply (tokenize_skips txt ("!"%char :: d) rest
           (txt ++ lt_char :: ("!"%char :: d) ++ [gt_char])).
  - exact Htxt.
  - cbn [forallb]. rewrite Hd. reflexivity.
  - list_norm. reflexivity.
  - assert (Htrim : trim ("!"%char :: d) = "!"%char :: trimEnd d).
    { unfold trim. rewrite trimStart_id by reflexivity.
      exact (trimEnd_after [] "!"%char d eq_refl). }
    unfold tokenize_tag. rewrite Htrim.
    assert (Hno : startsWith (trimEnd d) (lit "--") = false).
    { destruct (startsWith (trimEnd d) (lit "--")) eqn:E; [|reflexivity].
      destruct (trimEnd_prefix d) as [sp Hsp].
      apply (startsWith_app_true _ sp) in E. rewrite <- Hsp in E. congruence. }
    change (lit "!--") with ("!"%char :: lit "--"). change (lit "!") with ["!"%char].
    cbn [startsWith]. change (ch_eqb "!" "!") with true. cbn [andb].
    rewrite Hno, startsWith_empty. f_equal.
    repeat first [rewrite length_app | progress cbn [length]]. lia.
Qed.

Lemma tokenize_drops_comments_witness :
  tokenize (lit "a" ++ lit "<!--" ++ lit " <b>x</b> " ++ lit "-->" ++ lit "<i>y</i>")
  = push_text [] (lit "a") ++ tokenize (lit "<i>y</i>").
Proof.
  apply tokenize_drops_comments; reflexivity.
Defined.

Lemma tokenize_drops_script_and_style_witness :
  tokenize (lit "a" ++ lit "<" ++ lit "script" ++ lit " type=x" ++ lit ">"
            ++ lit "if (a<b) {}" ++ lit "</" ++ lit "script" ++ lit ">"
            ++ lit "<p>z</p>")
  = push_text [] (lit "a") ++ tokenize (lit "<p>z</p>").
Proof.
  apply tokenize_drops_script_and_style.
  - reflexivity.
  - left. reflexivity.
  - reflexivity.
  - reflexivity.
  - reflexivity.
Defined.

Lemma tokenize_drops_declarations_witness :
  tokenize ([] ++ lit "<!" ++ lit "DOCTYPE html" ++ lit ">" ++ lit "<p>z</p>")
  = push_text [] [] ++ tokenize (lit "<p>z</p>").
Proof.
  apply tokenize_drops_declarations; reflexivity.
Defined.

Lemma indexOf_char_none pre c rest :
  forallb (fun x => negb (ch_eqb x c)) rest = true ->
  indexOf (pre ++ rest) [c] (length pre) = None.
Proof.
  intros Hr. pose proof (indexOf_shift pre rest [c] 0) as Hs.
  rewrite Nat.add_0_r in Hs. rewrite Hs. unfold indexOf. cbn [Nat.min].
  rewrite drop_0, (find_from_none c rest Hr 0). reflexivity.
Qed.

(** X27: the tokenizer stops at a tag that is not closed.  Markup that
    is a text free of [<] yields that text as its one token (none when it
    is empty); and when a [<] follows the text and no [>] follows the [<],
    the text is still the one token: everything from that [<] on is
    dropped, the text behind it as well. *)
Theorem tokenize_stops_at_an_unclosed_tag (txt rest : str) :
  no_lt txt = true ->
  forallb (fun x => negb (ch_eqb x gt_char)) rest = true ->
  tokenize txt = push_text [] txt
  /\ tokenize (txt ++ lt_char :: rest) = push_text [] txt.
Proof.
  intros Htxt Hrest. split.
  - destruct txt as [|c s]; [reflexivity|].
    rewrite tokenize_from_start, tokenize_from_step by (cbn [length]; lia).
    unfold tokenize_body.
    pose proof (indexOf_char_none [] lt_char (c :: s) Htxt) as Hn.
    cbn [app length] in Hn. rewrite Hn. reflexivity.
  - rewrite tokenize_from_start, tokenize_from_step
      by (rewrite length_app; cbn [length]; lia).
    unfold tokenize_body.
    pose proof (indexOf_char [] lt_char txt rest Htxt) as Hlt.
    cbn [app length Nat.add] in Hlt. rewrite Hlt.
    pose proof (indexOf_char_none (txt ++ [lt_char]) gt_char rest Hrest) as Hgt.
    rewrite <- app_assoc, length_app in Hgt. cbn [app length] in Hgt.
    rewrite Hgt. cbn [default].
    pose proof (slice_app [] txt (lt_char :: rest)) as Hsl.
    cbn [app length Nat.add] in Hsl. rewrite Hsl.
    destruct txt as [|c s]; reflexivity.
Qed.

Lemma tokenize_stops_at_an_unclosed_tag_witness :
  tokenize (lit "a " ++ lt_char :: lit " b and more")
  = push_text [] (lit "a ").
Proof.
  apply (tokenize_stops_at_an_unclosed_tag (lit "a ") (lit " b and more"));
    reflexivity.
Defined.

(** ** The nodes of a built tree *)

Import TreeSpec.

(** What one token does to the store and the stack. *)
Lemma step_cases h current below token :
  step (h, current :: below) token
  = match new_node current token with
    | Some x =>
        (Store.push_child (h ++ [x]) current (length h),
         match Tokenizer.type token with
         | TOpen => length h :: current :: below
         | _ => current :: below
         end)
    | None =>
        (h,
         match Tokenizer.type token with
         | TClose =>
             if (1 <? length (current :: below))
                && top_tag_is h (current :: below) (Tokenizer.tag token)
             then below else current :: below
         | _ => current :: below
         end)
    end.
Proof.
  unfold step, new_node, Store.alloc.
  destruct (Tokenizer.type token); try reflexivity.
  - destruct (_ && _); reflexivity.
  - destruct (Tokenizer.content token) as [[|c s]|]; reflexivity.
Qed.

Lemma step_stack_nonempty st token :
  snd st <> [] -> snd (step st token) <> [].
Proof.
  destruct st as [h [|current below]]; intros Hne; [exfalso; apply Hne; reflexivity|].
  clear Hne.
  rewrite step_cases. destruct (new_node current token).
  - destruct (Tokenizer.type token); discriminate.
  - cbn [snd]. destruct (Tokenizer.type token); try discriminate.
    destruct (1 <? length (current :: below)) eqn:Hl; [|discriminate].
    destruct (top_tag_is _ _ _); [|discriminate]. cbn [andb].
    apply Nat.ltb_lt in Hl. destruct below; [cbn in Hl; lia | discriminate].
Qed.

Lemma push_child_summary h p c :
  map store_summary (Store.push_child h p c) = map store_summary h.
Proof.
  unfold Store.push_child. destruct (h !! p) as [o|] eqn:Ho; [|reflexivity].
  change (map store_summary) with (fmap (M := list) store_summary).
  rewrite list_fmap_insert. apply list_insert_id.
  rewrite list_lookup_fmap, Ho. reflexivity.
Qed.

Lemma new_node_created current t :
  store_summary <$> new_node current t = created t.
Proof.
  unfold created, new_node. destruct (Tokenizer.type t); try reflexivity.
  destruct (Tokenizer.content t) as [[|c s]|]; reflexivity.
Qed.

Lemma step_summary st token :
  snd st <> [] ->
  map store_summary (fst (step st token))
  = map store_summary (fst st) ++ option_list (created token).
Proof.
  destruct st as [h [|current below]]; intros Hne; [exfalso; apply Hne; reflexivity|].
  clear Hne.
  rewrite step_cases, <- (new_node_created current).
  destruct (new_node current token) as [x|]; cbn [fst fmap option_fmap option_map option_list].
  - rewrite push_child_summary, map_app. reflexivity.
  - rewrite app_nil_r. reflexivity.
Qed.

Lemma run_summary tokens :
  forall st, snd st <> [] ->
    map store_summary (fst (run tokens st))
    = map store_summary (fst st) ++ omap created tokens.
Proof.
  unfold run. induction tokens as [|t tokens IH]; intros st Hst; cbn [foldl].
  - rewrite app_nil_r. reflexivity.
  - rewrite IH by (apply step_stack_nonempty; assumption).
    rewrite step_summary by assumption. rewrite <- app_assoc. f_equal.
    change (omap created (t :: tokens))
      with (match created t with
            | Some y => y :: omap created tokens
            | None => omap created tokens
            end).
    destruct (created t); reflexivity.
Qed.

(** A node of the frozen tree is an object of the store, field by
    field. *)
Lemma freeze_fields h fuel :
  forall a n, freeze fuel h a = Some n ->
  forall m, m ∈ subnodes n ->
    exists o, h !! ref m = Some o
              /\ summary m = store_summary o
              /\ Dom.parent m = Store.parent o
              /\ map ref (children m) = Store.children o.
Proof.
  induction fuel as [|fuel IH]; intros a n Hn; [discriminate|].
  destruct (freeze_Some _ _ _ _ Hn) as (f & o & [= <-] & Ho & Hkids & Hnode).
  intros m Hm. apply elem_of_cons in Hm as [-> | Hm].
  - exists o. rewrite Hnode. cbn [ref]. split; [assumption|].
    split; [reflexivity|]. split; [reflexivity|]. cbn [children].
    clear -Hkids. induction Hkids as [|c k cs ks Hc _ IH]; [reflexivity|].
    cbn [map]. rewrite (freeze_ref _ _ _ _ Hc), IH. reflexivity.
  - apply elem_of_descendants in Hm as (k & Hk & Hm).
    apply list_elem_of_lookup in Hk as [i Hi].
    destruct (Forall2_lookup_r _ _ _ _ _ Hkids Hi) as (c & Hc & Hfc).
    eapply IH; eassumption.
Qed.

Lemma lookup_seq_all {A} (h : list A) :
  map (fun r => h !! r) (seq 0 (length h)) = map Some h.
Proof.
  apply list_eq. intros i.
  change (map (fun r => h !! r)) with (fmap (M := list) (fun r => h !! r)).
  change (map Some h) with (fmap (M := list) Some h).
  rewrite !list_lookup_fmap.
  destruct (Nat.lt_ge_cases i (length h)) as [Hi | Hi].
  - rewrite lookup_seq_lt by assumption. cbn.
    destruct (lookup_lt_is_Some_2 h i Hi) as [x Hx]. rewrite Hx. reflexivity.
  - rewrite lookup_seq_ge by assumption. rewrite lookup_ge_None_2 by assumption.
    reflexivity.
Qed.

(** The built tree in document order is the store in allocation
    order. *)
Lemma buildTree_store tokens :
  let '(h, _) := run tokens init in
  map ref (subnodes (buildTree tokens)) = seq 0 (length h)
  /\ forall m, m ∈ subnodes (buildTree tokens) ->
       exists o, h !! ref m = Some o
                 /\ summary m = store_summary o
                 /\ Dom.parent m = Store.parent o
                 /\ map ref (children m) = Store.children o.
Proof.
  pose proof (buildTree_total tokens) as Hfz.
  pose proof (run_layout tokens init init_layout) as Hlay.
  destruct (run tokens init) as [h stack].
  apply layout_closed_root in Hlay. split.
  - rewrite (freeze_closed_refs _ _ _ _ _ Hlay Hfz). f_equal. unfold root_addr. lia.
  - eapply freeze_fields. eassumption.
Qed.

Lemma buildTree_summaries tokens :
  map summary (subnodes (buildTree tokens))
  = map store_summary (fst (run tokens init)).
Proof.
  pose proof (buildTree_store tokens) as Hst.
  destruct (run tokens init) as [h stack]. destruct Hst as [Hrefs Hfields]. cbn [fst].
  apply (inj (fmap (M := list) Some)).
  change (fmap (M := list) Some (map store_summary h))
    with (map Some (map store_summary h)).
  rewrite <- (lookup_seq_all (map store_summary h)), length_map, <- Hrefs.
  change (fmap (M := list) Some (map summary (subnodes (buildTree tokens))))
    with (map Some (map summary (subnodes (buildTree tokens)))).
  rewrite !map_map. apply map_ext_in. intros m Hm.
  apply list_elem_of_In in Hm. destruct (Hfields m Hm) as (o & Ho & Hs & _).
  change (map store_summary h) with (fmap (M := list) store_summary h).
  rewrite list_lookup_fmap, Ho, Hs. reflexivity.
Qed.

(** The nodes below the root are those that the tokens create, in the
    order of the tokens. *)
Lemma buildTree_descendants_created
    (tokens : list Tokenizer.Token) :
  map summary (descendants (buildTree tokens)) = omap created tokens
  /\ summary (buildTree tokens) = (lit "document", JsMap.empty, []).
Proof.
  pose proof (buildTree_summaries tokens) as Hs.
  rewrite run_summary in Hs by discriminate.
  unfold subnodes in Hs. cbn [map fst init app store_summary Store.tag Store.attrs
                              Store.text] in Hs.
  split.
  - exact (f_equal (drop 1) Hs).
  - pose proof (f_equal head Hs) as Hh. cbn [head] in Hh.
    injection Hh as Htag Hattrs Htext. unfold summary.
    rewrite Htag, Hattrs, Htext. reflexivity.
Qed.

(** X20: the tree that [buildTree] returns holds, below the root, one
    node for every open token, every self-closing token and every text
    token with a content that is not empty, and no other node; in document
    order (a node before its children, the children in their order) these
    nodes come in the order of their tokens, each with the tag and the
    attributes, or the text, of its token.  A close token creates no node,
    and a missing or misplaced one loses none. *)
Theorem buildTree_lists_the_tokens_in_document_order
    (tokens : list Tokenizer.Token) :
  map summary (descendants (buildTree tokens)) = omap created tokens
  /\ summary (buildTree tokens) = (lit "document", JsMap.empty, []).
Proof. apply buildTree_descendants_created. Qed.

(** ** The shape of a built tree *)

Section Leaves.
Variable leafy : str * JsMap.t * str -> bool.

Lemma new_node_children current token x :
  new_node current token = Some x ->
  Store.children x = [] /\ Store.parent x = Some current.
Proof.
  unfold new_node. destruct (Tokenizer.type token);
    try (intros [= <-]; split; reflexivity); try discriminate.
  destruct (Tokenizer.content token) as [[|c s]|]; try discriminate.
  intros [= <-]. split; reflexivity.
Qed.

Lemma step_leaf_inv st token :
  (Tokenizer.type token = TOpen ->
   forall p, created token = Some p -> leafy p = false) ->
  leaf_inv leafy st -> leaf_inv leafy (step st token).
Proof.
  intros Hopen. destruct st as [h stack]. intros [Hleaf Hstack].
  destruct stack as [|current below]; [exact (conj Hleaf Hstack)|].
  destruct (Hstack current ltac:(left)) as (oc & Hoc & Hlc).
  pose proof (lookup_lt_Some _ _ _ Hoc) as Hcur.
  rewrite step_cases. destruct (new_node current token) as [x|] eqn:Ex.
  - destruct (new_node_children _ _ _ Ex) as [Hxc _].
    assert (Hold : forall a, a ∈ current :: below ->
              exists o, Store.push_child (h ++ [x]) current (length h) !! a = Some o
                        /\ leafy (store_summary o) = false).
    { intros a Ha. destruct (Hstack a Ha) as (o & Ho & Hl).
      pose proof (lookup_lt_Some _ _ _ Ho) as Hlt.
      rewrite link_lookup by assumption.
      destruct (decide (a = current)) as [->|Hne].
      - rewrite Hoc. cbn. eexists. split; [reflexivity|]. exact Hlc.
      - destruct (decide (a = length h)); [lia|]. eauto. }
    split.
    + intros a o. rewrite link_lookup by assumption.
      destruct (decide (a = current)) as [->|Hne].
      * rewrite Hoc. cbn. intros [= <-]. unfold store_summary. cbn.
        unfold store_summary in Hlc. rewrite Hlc. discriminate.
      * destruct (decide (a = length h)) as [->|Hna].
        -- intros [= <-] _. exact Hxc.
        -- apply Hleaf.
    + destruct (Tokenizer.type token) eqn:Et; try exact Hold.
      intros a Ha. apply elem_of_cons in Ha as [-> | Ha]; [|apply Hold; exact Ha].
      rewrite link_lookup by assumption.
      destruct (decide (length h = current)); [lia|].
      rewrite decide_True by reflexivity. exists x. split; [reflexivity|].
      apply (Hopen eq_refl). rewrite <- (new_node_created current), Ex. reflexivity.
  - split; [exact Hleaf|].
    intros a Ha. apply Hstack.
    destruct (Tokenizer.type token); try exact Ha.
    destruct (_ && _); [right|]; exact Ha.
Qed.

Lemma run_leaf_inv tokens :
  forall st,
    (forall t, t ∈ tokens -> Tokenizer.type t = TOpen ->
               forall p, created t = Some p -> leafy p = false) ->
    leaf_inv leafy st -> leaf_inv leafy (run tokens st).
Proof.
  unfold run. induction tokens as [|t tokens IH]; intros st Hopen Hst; cbn [foldl].
  - exact Hst.
  - apply IH.
    + intros t' Ht'. apply Hopen. right. exact Ht'.
    + apply step_leaf_inv; [|exact Hst]. apply Hopen. left.
Qed.

(** The nodes that [leafy] singles out are leaves of the built tree, as
    long as no open token creates such a node. *)
Lemma buildTree_leaves tokens :
  leafy (lit "document", JsMap.empty, []) = false ->
  (forall t, t ∈ tokens -> Tokenizer.type t = TOpen ->
             forall p, created t = Some p -> leafy p = false) ->
  forall m, m ∈ subnodes (buildTree tokens) ->
            leafy (summary m) = true -> children m = [].
Proof.
  intros Hroot Hopen m Hm Hl.
  assert (Hinit : leaf_inv leafy init).
  { split.
    - intros [|a] o; [|discriminate]. intros [= <-] Hdoc.
      change (leafy (lit "document", JsMap.empty, []) = true) in Hdoc. congruence.
    - intros a Ha. apply list_elem_of_singleton in Ha as ->. eexists.
      split; [reflexivity|]. exact Hroot. }
  pose proof (run_leaf_inv tokens init Hopen Hinit) as Hinv.
  pose proof (buildTree_store tokens) as Hst.
  destruct (run tokens init) as [h stack]. destruct Hinv as [Hleaf _].
  destruct Hst as [_ Hfields].
  destruct (Hfields m Hm) as (o & Ho & Hs & _ & Hc).
  rewrite Hs in Hl. rewrite (Hleaf _ _ Ho Hl) in Hc.
  destruct (children m); [reflexivity | discriminate].
Qed.

End Leaves.

Lemma getText_unfold n :
  getText n = match Dom.text n with
              | [] => concat (map getText (children n))
              | t => t
              end.
Proof. destruct n; reflexivity. Qed.

Lemma getText_leaves n :
  (forall m, m ∈ subnodes n -> has_text (summary m) = true -> children m = []) ->
  getText n = concat (map Dom.text (subnodes n)).
Proof.
  induction n as [r t a ch tx p IH] using Node_ind. intros Hleaf.
  rewrite getText_unfold. cbn [Dom.text children].
  destruct tx as [|c s].
  - unfold subnodes. cbn [map concat Dom.text app].
    rewrite descendants_unfold. cbn [children].
    assert (Hch : forall k, k ∈ ch -> forall m, m ∈ subnodes k ->
                   has_text (summary m) = true -> children m = []).
    { intros k Hk m Hm. apply Hleaf. right. apply elem_of_descendants.
      exists k. split; assumption. }
    clear Hleaf. induction ch as [|k ch IHch]; [reflexivity|].
    apply Forall_cons in IH as [IHk IH]. cbn [map concat].
    rewrite map_app, concat_app.
    rewrite (IHk (Hch k ltac:(left))). f_equal.
    apply IHch; [assumption|]. intros k' Hk'. apply Hch. right. assumption.
  - pose proof (Hleaf _ ltac:(left) eq_refl) as Hno. cbn [children] in Hno. subst ch.
    unfold subnodes. cbn. rewrite app_nil_r. reflexivity.
Qed.

Lemma created_text tokens :
  concat (map snd (omap created tokens)) = concat (map token_text tokens).
Proof.
  induction tokens as [|t tokens IH]; [reflexivity|].
  change (omap created (t :: tokens))
    with (match created t with
          | Some y => y :: omap created tokens
          | None => omap created tokens
          end).
  assert (Ht : concat (map snd (match created t with
                                | Some y => [y]
                                | None => []
                                end)) = token_text t).
  { unfold created, new_node, token_text.
    destruct (Tokenizer.type t); cbn; try reflexivity;
      destruct (Tokenizer.content t) as [[|c s]|]; cbn; rewrite ?app_nil_r;
      reflexivity. }
  cbn [map concat]. rewrite <- Ht, <- IH.
  destruct (created t); cbn; rewrite ?app_nil_r; reflexivity.
Qed.

(** X21: the text of a built tree is the text of its tokens: [getText]
    on the root returns the contents of the text tokens, one after the
    other in the order of the tokens, whatever tags stand between them and
    whether they are closed or not. *)
Theorem getText_joins_the_text_tokens (tokens : list Tokenizer.Token) :
  getText (buildTree tokens) = concat (map token_text tokens).
Proof.
  rewrite getText_leaves.
  - destruct (buildTree_descendants_created tokens) as [Hd Hr].
    unfold subnodes. cbn [map concat].
    assert (Htext : forall l, map Dom.text l = map snd (map summary l)).
    { intros l. rewrite map_map. reflexivity. }
    rewrite Htext, Hd, created_text.
    assert (Hroot : Dom.text (buildTree tokens) = []).
    { pose proof (f_equal snd Hr) as Hx. exact Hx. }
    rewrite Hroot. reflexivity.
  - apply (buildTree_leaves has_text); [reflexivity|].
    intros t _ Ht p. unfold created, new_node. rewrite Ht. intros [= <-]. reflexivity.
Qed.

Lemma step_parent_inv st token :
  build_inv st -> parent_inv (fst st) -> parent_inv (fst (step st token)).
Proof.
  destruct st as [h stack]. intros (Hwf & Hst & Hat) [Hpar Hroot]. cbn [fst] in *.
  destruct stack as [|current below]; [destruct Hat|].
  pose proof (Forall_inv Hst) as Hcur. cbn in Hcur.
  rewrite step_cases. destruct (new_node current token) as [x|] eqn:Ex;
    [|exact (conj Hpar Hroot)].
  destruct (new_node_children _ _ _ Ex) as [Hxc Hxp]. cbn [fst]. split.
  - intros a o c. rewrite !link_lookup by assumption.
    assert (Hkeep : forall b ob, h !! b = Some ob ->
              exists oc, (if decide (b = current)
                          then (fun o => Store.mkNode
                                           (Store.tag o) (Store.attrs o)
                                           (Store.children o ++ [length h])
                                           (Store.text o) (Store.parent o)) <$> h !! current
                          else if decide (b = length h) then Some x else h !! b)
                         = Some oc
                         /\ Store.parent oc = Store.parent ob).
    { intros b ob Hb. pose proof (lookup_lt_Some _ _ _ Hb) as Hlt.
      destruct (decide (b = current)) as [->|Hne].
      - rewrite Hb. cbn. eauto.
      - destruct (decide (b = length h)); [lia|]. eauto. }
    destruct (decide (a = current)) as [->|Hne].
    + destruct (h !! current) as [oc|] eqn:Hoc; [|discriminate]. cbn.
      intros [= <-]. cbn. intros Hc. apply elem_of_app in Hc as [Hc | Hc].
      * destruct (Hpar _ _ _ Hoc Hc) as (ob & Hob & Hp).
        destruct (Hkeep _ _ Hob) as (oc' & Hk & Hp'). exists oc'.
        split; [exact Hk | congruence].
      * apply list_elem_of_singleton in Hc as ->.
        destruct (decide (length h = current)); [lia|].
        rewrite decide_True by reflexivity. eauto.
    + destruct (decide (a = length h)) as [->|Hna].
      * intros [= <-]. rewrite Hxc. inversion 1.
      * intros Ho Hc. destruct (Hpar _ _ _ Ho Hc) as (ob & Hob & Hp).
        destruct (Hkeep _ _ Hob) as (oc' & Hk & Hp'). exists oc'.
        split; [exact Hk | congruence].
  - destruct Hroot as (o & Ho & Hp). rewrite link_lookup by assumption.
    destruct (decide (root_addr = current)) as [<-|Hne].
    + rewrite Ho. cbn. eexists. split; [reflexivity | exact Hp].
    + pose proof (lookup_lt_Some _ _ _ Ho).
      destruct (decide (root_addr = length h)); [lia|]. eauto.
Qed.

Lemma run_parent_inv tokens :
  forall st, build_inv st -> parent_inv (fst st) ->
             parent_inv (fst (run tokens st)).
Proof.
  unfold run. induction tokens as [|t tokens IH]; intros st Hb Hp; cbn [foldl].
  - exact Hp.
  - apply IH; [apply step_inv | apply step_parent_inv]; assumption.
Qed.

(** X22: in the tree that [buildTree] returns the [parent] of every
    child is the node that holds it in its [children], and the root has no
    parent. *)
Theorem buildTree_links_children_to_their_parent
    (tokens : list Tokenizer.Token) :
  Dom.parent (buildTree tokens) = None
  /\ forall n c,
       n ∈ subnodes (buildTree tokens) -> c ∈ children n ->
       Dom.parent c = Some (ref n).
Proof.
  assert (Hinit : parent_inv (fst init)).
  { split.
    - intros [|a] o c; [|discriminate]. intros [= <-]. inversion 1.
    - eexists. split; reflexivity. }
  pose proof (run_parent_inv tokens init init_inv Hinit) as [Hpar Hroot].
  pose proof (buildTree_store tokens) as Hst.
  pose proof (buildTree_total tokens) as Hfz.
  destruct (run tokens init) as [h stack]. cbn [fst] in *.
  destruct Hst as [_ Hfields]. split.
  - destruct (Hfields _ ltac:(left)) as (o & Ho & _ & Hp & _).
    rewrite (freeze_ref _ _ _ _ Hfz) in Ho.
    destruct Hroot as (o' & Ho' & Hp'). congruence.
  - intros n c Hn Hc.
    destruct (Hfields n Hn) as (o & Ho & _ & _ & Hkids).
    assert (Hcn : c ∈ subnodes (buildTree tokens)).
    { apply elem_of_cons in Hn as [-> | Hn].
      - right. apply child_descendant. assumption.
      - right. eapply descendants_trans; [exact Hn|].
        apply child_descendant. assumption. }
    destruct (Hfields c Hcn) as (oc & Hoc & _ & Hpc & _).
    assert (Hin : ref c ∈ Store.children o).
    { rewrite <- Hkids. apply list_elem_of_In, in_map, list_elem_of_In. assumption. }
    destruct (Hpar _ _ _ Ho Hin) as (oc' & Hoc' & Hp'). congruence.
Qed.

Lemma wf_attrs_default a :
  wf_attrs a = true -> wf_node_attrs (default JsMap.empty a) = true.
Proof.
  destruct a as [m|]; [|reflexivity]. unfold wf_attrs. intros Ha.
  apply andb_true_iff in Ha as [Ha Hd]. apply andb_true_iff in Ha as [_ Ha].
  change (wf_node_attrs m = true). unfold wf_node_attrs. rewrite Ha, Hd. reflexivity.
Qed.

Lemma created_wf t p :
  wf_token t = true -> created t = Some p ->
  match snd p with
  | _ :: _ =>
      no_lt (snd p) = true /\ fst (fst p) = [] /\ snd (fst p) = []
      /\ Tokenizer.type t = TText
  | [] =>
      lower_name (fst (fst p)) = true /\ skipped (fst (fst p)) = false
      /\ wf_node_attrs (snd (fst p)) = true
      /\ (Tokenizer.type t = TOpen -> void (fst (fst p)) = false)
  end.
Proof.
  unfold wf_token, created, new_node.
  destruct (Tokenizer.type t) eqn:Et.
  - destruct (Tokenizer.tag t) as [n|]; [|discriminate]. intros Hw [= <-].
    cbn [fst snd store_summary Store.tag Store.attrs Store.text].
    apply andb_true_iff in Hw as [Hw _]. apply andb_true_iff in Hw as [Hw Ha].
    apply andb_true_iff in Hw as [Hw Hv]. apply andb_true_iff in Hw as [Hn Hs].
    apply negb_true_iff in Hs, Hv.
    split; [exact Hn|]. split; [exact Hs|].
    split; [apply wf_attrs_default; exact Ha|]. intros _. exact Hv.
  - discriminate.
  - destruct (Tokenizer.content t) as [[|c s]|]; try discriminate.
    intros Hw [= <-].
    cbn [fst snd store_summary Store.tag Store.attrs Store.text].
    apply andb_true_iff in Hw as [Hw _].
    apply andb_true_iff in Hw as [Hw _]. apply andb_true_iff in Hw as [_ Hw].
    auto.
  - destruct (Tokenizer.tag t) as [n|]; [|discriminate]. intros Hw [= <-].
    cbn [fst snd store_summary Store.tag Store.attrs Store.text].
    apply andb_true_iff in Hw as [Hw _]. apply andb_true_iff in Hw as [Hw Ha].
    apply andb_true_iff in Hw as [Hn Hs]. apply negb_true_iff in Hs.
    split; [exact Hn|]. split; [exact Hs|].
    split; [apply wf_attrs_default; exact Ha|]. discriminate.
Qed.

(** X23: every node of a parsed document below the root is a text leaf
    or an element.  A text leaf has a text that is not empty and holds no
    [<], no tag, no attributes and no children.  An element has no text of
    its own, a tag name of the characters [a-z0-9-_:] other than [script]
    and [style], attributes under lower-case names that differ from one
    another, and no children when its tag is void. *)
Theorem parsed_nodes_are_well_formed (html : str) :
  forallb wf_node (descendants (Parser.root (parseHTML html))) = true.
Proof.
  unfold parseHTML. cbn [Parser.root]. apply forallb_forall. intros n Hn.
  apply list_elem_of_In in Hn.
  pose proof (tokenize_wf html) as Hwf.
  rewrite forallb_forall in Hwf.
  destruct (buildTree_descendants_created (tokenize html)) as [Hd _].
  assert (Hsum : exists t, In t (tokenize html) /\ created t = Some (summary n)).
  { assert (Hin : In (summary n) (omap created (tokenize html))).
    { rewrite <- Hd. apply in_map. apply list_elem_of_In. assumption. }
    apply list_elem_of_In, list_elem_of_omap in Hin as (t & Ht & Hc).
    exists t. split; [apply list_elem_of_In; assumption | assumption]. }
  destruct Hsum as (t & Ht & Hc).
  pose proof (created_wf t _ (Hwf t Ht) Hc) as Hp.
  assert (Hleaf : text_or_void (summary n) = true -> children n = []).
  { apply (buildTree_leaves text_or_void (tokenize html)); [reflexivity| |right; assumption].
    intros t' Ht' Hopen p Hp'. apply list_elem_of_In in Ht'.
    pose proof (created_wf t' p (Hwf t' Ht') Hp') as Hq.
    unfold text_or_void, has_text.
    assert (Hs : snd p = []).
    { revert Hp'. unfold created, new_node. rewrite Hopen. intros [= <-]. reflexivity. }
    rewrite Hs in Hq |- *. destruct Hq as (_ & _ & _ & Hv). rewrite (Hv Hopen).
    reflexivity. }
  unfold wf_node. unfold summary in Hp, Hleaf. cbn [fst snd] in Hp.
  unfold text_or_void, has_text in Hleaf. cbn [fst snd] in Hleaf.
  destruct (Dom.text n) as [|c s].
  - destruct Hp as (Hn1 & Hs1 & Ha1 & _). rewrite Hn1, Hs1, Ha1. cbn [negb andb].
    destruct (void (Dom.tag n)); [|reflexivity].
    rewrite Hleaf by reflexivity. reflexivity.
  - destruct Hp as (Hl & -> & -> & _). rewrite Hl, Hleaf by reflexivity. reflexivity.
Qed.

(** ** Attribute selectors *)

Lemma sel_name_char_facts c :
  is_sel_name_char c = true ->
  ch_eqb c "=" = false /\ ch_eqb c "]" = false.
Proof.
  destruct c as [[] [] [] [] [] [] [] []]; cbv; intros Hc;
    first [discriminate Hc | split; reflexivity].
Qed.

Lemma quote_not_value_char q :
  is_quote q = true -> is_sel_value_char q = false.
Proof. unfold is_sel_value_char. intros ->. reflexivity. Qed.

(** An optional quote in front of [s], which does not start with one. *)
Lemma skip_quote_optional (q s : str) :
  (q = [] \/ exists c, q = [c] /\ is_quote c = true) ->
  match s with [] => True | x :: _ => is_quote x = false end ->
  skip_quote (q ++ s) = s.
Proof.
  intros [-> | (c & -> & Hc)] Hs.
  - destruct s as [|x s]; [reflexivity|]. cbn. rewrite Hs. reflexivity.
  - cbn. rewrite Hc. reflexivity.
Qed.

(** X24: for a name that is not empty, of letters, digits, [_] and [-],
    and a value that is not empty and holds no quote and no closing
    bracket: the
    attribute selector [[name=value]] selects the nodes whose attribute
    [name] is [value], and [[name]] those that have the attribute,
    whatever its value.  The value may stand between quotes; a quote on
    either side is optional and the two need not be the same.  The caches
    are not touched. *)
Theorem attribute_selector_compares_the_value
    (name value q1 q2 : str) (node : Node) (c : Caches) :
  name <> [] -> forallb is_sel_name_char name = true ->
  value <> [] -> forallb is_sel_value_char value = true ->
  (q1 = [] \/ exists x, q1 = [x] /\ is_quote x = true) ->
  (q2 = [] \/ exists x, q2 = [x] /\ is_quote x = true) ->
  compileMatcher (lit "[" ++ name ++ lit "=" ++ q1 ++ value ++ q2 ++ lit "]") node c
  = (opt_is (JsMap.get (Dom.attrs node) name) value, c)
  /\ compileMatcher (lit "[" ++ name ++ lit "]") node c
     = (JsMap.has (Dom.attrs node) name, c).
Proof.
  intros Hne Hname Hve Hvalue Hq1 Hq2.
  assert (Hv0 : match value with
                | [] => True
                | x :: _ => is_quote x = false
                end).
  { destruct value as [|x v]; [exact I|]. cbn in Hvalue.
    apply andb_true_iff in Hvalue as [Hx _]. unfold is_sel_value_char in Hx.
    apply andb_true_iff in Hx as [Hx _]. apply negb_true_iff in Hx. exact Hx. }
  split.
  - unfold compileMatcher. change (lit "[") with ["["%char]. cbn [app startsWith].
    change (lit "#") with ["#"%char]. change (lit ".") with ["."%char].
    cbn [startsWith]. change (ch_eqb "#" "[") with false.
    change (ch_eqb "." "[") with false. cbn [andb].
    unfold match_attr_selector. change (ch_eqb "[" "[") with true. cbn iota.
    change (lit "=") with ["="%char]. change (lit "]") with ["]"%char].
    rewrite (span_all is_sel_name_char name
               (["="%char] ++ q1 ++ value ++ q2 ++ ["]"%char]) Hname eq_refl).
    destruct name as [|n0 name']; [congruence|]. cbn [app].
    destruct (q1 ++ value ++ q2 ++ ["]"%char]) as [|y ys] eqn:Erest.
    { destruct q1; [destruct value; [congruence|discriminate] | discriminate]. }
    rewrite <- Erest. change (ch_eqb "=" "=") with true. cbn iota.
    rewrite (skip_quote_optional q1 (value ++ q2 ++ ["]"%char]) Hq1).
    2:{ destruct value as [|x v]; [congruence | exact Hv0]. }
    assert (Hq2' : match q2 ++ ["]"%char] with
                   | [] => True
                   | x :: _ => is_sel_value_char x = false
                   end).
    { destruct Hq2 as [-> | (x & -> & Hx)]; [reflexivity|].
      cbn. apply quote_not_value_char. exact Hx. }
    rewrite (span_all is_sel_value_char value (q2 ++ ["]"%char]) Hvalue Hq2').
    rewrite (skip_quote_optional q2 ["]"%char] Hq2 eq_refl).
    destruct value as [|v0 value']; [congruence|].
    change (ch_eqb "]" "]") with true. reflexivity.
  - unfold compileMatcher. change (lit "[") with ["["%char]. cbn [app startsWith].
    change (lit "#") with ["#"%char]. change (lit ".") with ["."%char].
    cbn [startsWith]. change (ch_eqb "#" "[") with false.
    change (ch_eqb "." "[") with false. cbn [andb].
    unfold match_attr_selector. change (ch_eqb "[" "[") with true. cbn iota.
    change (lit "]") with ["]"%char].
    rewrite (span_all is_sel_name_char name ["]"%char] Hname eq_refl).
    destruct name as [|n0 name']; [congruence|].
    change (ch_eqb "]" "]") with true. reflexivity.
Qed.

Lemma attribute_selector_compares_the_value_witness :
  let node := hd dummy (children (Parser.root (parseHTML (lit "<a href=x>t</a>")))) in
  compileMatcher (lit "[" ++ lit "href" ++ lit "=" ++ [dquote] ++ lit "x"
                  ++ [squote] ++ lit "]") node no_caches
  = (true, no_caches).
Proof.
  cbv zeta.
  refine (proj1 (attribute_selector_compares_the_value
                   (lit "href") (lit "x") [dquote] [squote] _ no_caches
                   _ _ _ _ _ _)).
  - discriminate.
  - reflexivity.
  - discriminate.
  - reflexivity.
  - right. exists dquote. split; reflexivity.
  - right. exists squote. split; reflexivity.
Defined.
